(** * Context Health Bar: scoring and handoff engine (content.js)

    A shallow embedding of the scoring and summarisation functions of
    [content.js] and the properties of them that the specification states.

    Conventions of the embedding.
    - A JavaScript number is a [num]: an exact rational, [+Infinity],
      [-Infinity] or [NaN].  Arithmetic on finite values is exact (the
      rounding of binary64 is not modelled); the special values follow
      IEEE 754 as JavaScript exposes it.  The only zero is [+0].
    - Counts that the code keeps integral (character counts, token counts,
      indices) are [Z] or [nat].
    - A JavaScript string is a [string]: one [ascii] per UTF-16 code unit,
      which covers the code units below 256.
    - [state.pinnedMessageIds] (a [Set] used only through [has], [add] and
      [delete]) is a [gset string].
    - What the code reads from the page (the matched elements, their text,
      the draft input, the visible character count) is an argument of the
      function that reads it; rendering, storage and timers are left out.
    - A function that reads the global [state] takes it as an argument; one
      that writes it returns the new [state].
    - An uncaught [TypeError] is the result [None]. *)

From Stdlib Require Import ZArith QArith Qround Lia Lqa Bool Ascii String List.
From Stdlib Require Import Sorting.Sorted Sorting.Permutation.
From stdpp Require Import base gmap strings list sorting.
Import ListNotations.

Local Open Scope Z_scope.

(* ===================================================================== *)
(** ** JavaScript numbers *)
(* ===================================================================== *)

Module JsNum.

Inductive num : Type :=
| Fin (q : Q)
| PInf
| NInf
| NaN.

Definition ofZ (z : Z) : num := Fin (inject_Z z).

Definition Qltb (a b : Q) : bool := negb (Qle_bool b a).

Definition Qsgn (q : Q) : Z := Z.sgn (Qnum q).

Definition inf_of_sign (s : Z) : num :=
  match s with
  | Z0 => NaN
  | Zpos _ => PInf
  | Zneg _ => NInf
  end.

Definition nneg (x : num) : num :=
  match x with
  | Fin q => Fin (- q)
  | PInf => NInf
  | NInf => PInf
  | NaN => NaN
  end.

Definition nadd (x y : num) : num :=
  match x, y with
  | NaN, _ | _, NaN => NaN
  | Fin a, Fin b => Fin (a + b)
  | PInf, NInf | NInf, PInf => NaN
  | PInf, _ | _, PInf => PInf
  | NInf, _ | _, NInf => NInf
  end.

(** [x - y] *)
Definition nsub (x y : num) : num :=
  match x, y with
  | Fin a, Fin b => Fin (a - b)
  | _, _ => nadd x (nneg y)
  end.

(** [x * y] *)
Definition nmul (x y : num) : num :=
  match x, y with
  | NaN, _ | _, NaN => NaN
  | Fin a, Fin b => Fin (a * b)
  | Fin a, PInf | PInf, Fin a => inf_of_sign (Qsgn a)
  | Fin a, NInf | NInf, Fin a => inf_of_sign (- Qsgn a)
  | PInf, PInf | NInf, NInf => PInf
  | PInf, NInf | NInf, PInf => NInf
  end.

(** [x / y]: a finite value over zero is an infinity of the sign of the
    numerator, and [0 / 0] is [NaN]; nothing is thrown. *)
Definition ndiv (x y : num) : num :=
  match x, y with
  | NaN, _ | _, NaN => NaN
  | Fin a, Fin b =>
      if Qeq_bool b 0 then inf_of_sign (Qsgn a) else Fin (a / b)
  | Fin _, PInf | Fin _, NInf => Fin 0
  | PInf, Fin b => if Qle_bool 0 b then PInf else NInf
  | NInf, Fin b => if Qle_bool 0 b then NInf else PInf
  | PInf, PInf | PInf, NInf | NInf, PInf | NInf, NInf => NaN
  end.

(** [x > y]; every comparison with [NaN] is false. *)
Definition ngtb (x y : num) : bool :=
  match x, y with
  | NaN, _ | _, NaN => false
  | Fin a, Fin b => Qltb b a
  | PInf, PInf => false
  | PInf, _ => true
  | _, NInf => match x with NInf => false | _ => true end
  | _, _ => false
  end.

(** [x >= y] *)
Definition ngeb (x y : num) : bool :=
  match x, y with
  | NaN, _ | _, NaN => false
  | Fin a, Fin b => Qle_bool b a
  | PInf, _ => true
  | _, NInf => true
  | _, _ => false
  end.

(** [Math.max(x, y)] *)
Definition nmax (x y : num) : num :=
  match x, y with
  | NaN, _ | _, NaN => NaN
  | _, _ => if ngeb x y then x else y
  end.

(** [Math.min(x, y)] *)
Definition nmin (x y : num) : num :=
  match x, y with
  | NaN, _ | _, NaN => NaN
  | _, _ => if ngeb y x then x else y
  end.

(** [Math.round(x)]: the nearest integer, halves going up. *)
Definition nround (x : num) : num :=
  match x with
  | Fin q => Fin (inject_Z (Qfloor (q + (1 # 2))))
  | _ => x
  end.

(** Equality of JavaScript numbers as values (rationals up to [Qeq]). *)
Definition num_eq (x y : num) : Prop :=
  match x, y with
  | Fin a, Fin b => (a == b)%Q
  | PInf, PInf | NInf, NInf | NaN, NaN => True
  | _, _ => False
  end.

End JsNum.
Import JsNum.

(* ===================================================================== *)
(** ** Configuration *)
(* ===================================================================== *)

Module CONFIG.

Definition CHARS_PER_TOKEN : Z := 4.

Module TOKEN_THRESHOLDS.
Definition HIGH : Z := 40000.
Definition MEDIUM : Z := 25000.
Definition LOW : Z := 15000.
End TOKEN_THRESHOLDS.

Record Point : Type := mkPoint { chars : Z; penalty : Q }.

Definition CHAR_PENALTY_POINTS : list Point :=
  [ mkPoint 0 0; mkPoint 120000 25; mkPoint 240000 50; mkPoint 800000 100 ].

Module MESSAGE_THRESHOLDS.
Definition HIGH : Z := 140.
Definition MEDIUM : Z := 100.
Definition LOW : Z := 60.
End MESSAGE_THRESHOLDS.

Definition LONG_MESSAGE_THRESHOLD : Z := 4000.
Definition ASSISTANT_DOMINANCE_RATIO : Q := 7 # 10.

Definition IMPERATIVE_PHRASES : list string :=
  [ "you are"; "act as"; "always"; "never"; "do not"; "don't";
    "must"; "should"; "follow these"; "remember to"; "make sure" ]%string.
Definition MIN_IMPERATIVES : nat := 2.
Definition EARLY_MESSAGE_COUNT : nat := 3.

Definition HANDOFF_THRESHOLD : Z := 50.
Definition HANDOFF_MAX_MESSAGE_CHARS : Z := 900.
Definition HANDOFF_MAX_PINNED : Z := 8.
Definition HANDOFF_MAX_RECENT : Z := 12.
Definition HANDOFF_MAX_SALIENCE : Z := 6.

End CONFIG.
Import CONFIG.

(* ===================================================================== *)
(** ** Piecewise-linear penalty *)
(* ===================================================================== *)

(** The [for] loop of [interpolatePenalty], entered with [prev = points[i-1]]
    and [rest = points[i..]]; when it runs off the end, [prev] is the last
    point of the table. *)
Fixpoint interpolateFrom (prev : Point) (rest : list Point) (value : Z) : Q :=
  match rest with
  | [] => penalty prev
  | next :: rest' =>
      if value <=? chars next then
        let span := chars next - chars prev in
        if span <=? 0 then penalty next
        else
          let ratio := (inject_Z (value - chars prev) / inject_Z span)%Q in
          (penalty prev + ratio * (penalty next - penalty prev))%Q
      else interpolateFrom next rest' value
  end.

Definition interpolatePenalty (points : list Point) (value : Z) : Q :=
  match points with
  | [] => 0%Q
  | p0 :: rest =>
      if value <=? chars p0 then penalty p0 else interpolateFrom p0 rest value
  end.

(* ===================================================================== *)
(** ** Strings *)
(* ===================================================================== *)

Local Open Scope string_scope.
Local Open Scope Z_scope.

Definition code (c : ascii) : Z := Z.of_nat (nat_of_ascii c).

(** White space and line terminators: what [trim] strips and [\s] matches
    (TAB, LF, VT, FF, CR, SP, NBSP). *)
Definition isSpace (c : ascii) : bool :=
  let n := code c in ((9 <=? n) && (n <=? 13)) || (n =? 32) || (n =? 160).

(** Line terminators, after which [^] matches under the [m] flag. *)
Definition isLineTerminator (c : ascii) : bool :=
  let n := code c in (n =? 10) || (n =? 13).

(** [\d] *)
Definition isDigit (c : ascii) : bool :=
  let n := code c in (48 <=? n) && (n <=? 57).

(** [\w] *)
Definition isWordChar (c : ascii) : bool :=
  let n := code c in
  isDigit c || ((65 <=? n) && (n <=? 90)) || ((97 <=? n) && (n <=? 122))
  || (n =? 95).

Definition lowerChar (c : ascii) : ascii :=
  let n := code c in
  if ((65 <=? n) && (n <=? 90))
     || ((192 <=? n) && (n <=? 222) && negb (n =? 215))
  then ascii_of_nat (nat_of_ascii c + 32) else c.

(** Case folding of the [i] flag against a pattern of ASCII letters: only
    ASCII letters fold onto ASCII letters. *)
Definition foldChar (c : ascii) : ascii :=
  let n := code c in
  if (65 <=? n) && (n <=? 90) then ascii_of_nat (nat_of_ascii c + 32) else c.

Fixpoint toLowerCase (s : string) : string :=
  match s with
  | EmptyString => EmptyString
  | String c r => String (lowerChar c) (toLowerCase r)
  end.

Fixpoint startsWith (s p : string) : bool :=
  match p, s with
  | EmptyString, _ => true
  | String _ _, EmptyString => false
  | String b p', String a s' => Ascii.eqb a b && startsWith s' p'
  end.

(** [s.includes(p)] *)
Fixpoint includes (s p : string) : bool :=
  startsWith s p ||
  match s with
  | EmptyString => false
  | String _ r => includes r p
  end.

Fixpoint skipSpaces (s : string) : string :=
  match s with
  | EmptyString => EmptyString
  | String c r => if isSpace c then skipSpaces r else s
  end.

Fixpoint trimEnd (s : string) : string :=
  match s with
  | EmptyString => EmptyString
  | String c r =>
      match trimEnd r with
      | EmptyString => if isSpace c then EmptyString else String c EmptyString
      | r' => String c r'
      end
  end.

(** [s.trim()] *)
Definition trim (s : string) : string := trimEnd (skipSpaces s).

(** [s.length] *)
Definition strlen (s : string) : Z := Z.of_nat (String.length s).

(** [s.replace(/\s+/g, ' ')]; [inRun] says that the previous character
    belonged to the run being replaced. *)
Fixpoint collapseSpaces (inRun : bool) (s : string) : string :=
  match s with
  | EmptyString => EmptyString
  | String c r =>
      if isSpace c then
        if inRun then collapseSpaces true r
        else String " " (collapseSpaces true r)
      else String c (collapseSpaces false r)
  end.

Fixpoint takeStr (n : nat) (s : string) : string :=
  match n, s with
  | S n', String c r => String c (takeStr n' r)
  | _, _ => EmptyString
  end.

(** [s.slice(0, e)] for an integer [e]; a negative [e] counts from the end. *)
Definition sliceTo (s : string) (e : Z) : string :=
  let len := strlen s in
  let stop := if e <? 0 then Z.max (len + e) 0 else Z.min e len in
  takeStr (Z.to_nat stop) s.

(** The [test] of a pattern anchored by [^] under the [m] flag: [p] is tried
    at the start of the text and after every line terminator. *)
Fixpoint anyLineStart (p : string -> bool) (atStart : bool) (s : string)
  : bool :=
  (atStart && p s) ||
  match s with
  | EmptyString => false
  | String c r => anyLineStart p (isLineTerminator c) r
  end.

(** [[\s]*[-*]\s+] matched at the head of [s]. *)
Definition bulletHere (s : string) : bool :=
  match skipSpaces s with
  | String c (String d _) =>
      (Ascii.eqb c "-" || Ascii.eqb c "*") && isSpace d
  | _ => false
  end.

Fixpoint skipDigits (s : string) : string :=
  match s with
  | EmptyString => EmptyString
  | String c r => if isDigit c then skipDigits r else s
  end.

(** [[\s]*\d+\.\s+] matched at the head of [s]. *)
Definition numberedHere (s : string) : bool :=
  match skipSpaces s with
  | String c r =>
      isDigit c &&
      match skipDigits r with
      | String dot (String d _) => Ascii.eqb dot "." && isSpace d
      | _ => false
      end
  | EmptyString => false
  end.

(** The pattern word [w] (lower case) matched case-insensitively at the head
    of [s]; the result is what follows the match. *)
Fixpoint wordPrefix (w s : string) : option string :=
  match w, s with
  | EmptyString, _ => Some s
  | String _ _, EmptyString => None
  | String b w', String a s' =>
      if Ascii.eqb (foldChar a) b then wordPrefix w' s' else None
  end.

Definition boundaryAfter (s : string) : bool :=
  match s with
  | EmptyString => true
  | String c _ => negb (isWordChar c)
  end.

(** [/\bw\b/i.test(s)], scanning with [prevWord] telling whether the
    character before the current position is a word character. *)
Fixpoint wordMatch (w : string) (prevWord : bool) (s : string) : bool :=
  (negb prevWord &&
   match wordPrefix w s with
   | Some rest => boundaryAfter rest
   | None => false
   end) ||
  match s with
  | EmptyString => false
  | String c r => wordMatch w (isWordChar c) r
  end.

(* ===================================================================== *)
(** ** Messages and the extension's state *)
(* ===================================================================== *)

Inductive Role : Type := user | assistant.

Definition Role_eqb (a b : Role) : bool :=
  match a, b with
  | user, user | assistant, assistant => true
  | _, _ => false
  end.

(** One entry of [messages].  The DOM [element] reference is left out; a
    missing [isDraft] property is [false]. *)
Record Message : Type := mkMessage {
  msgId : string;
  role : Role;
  text : string;
  charCount : Z;
  tokens : Z;
  tokenStart : Z;
  tokenEnd : Z;
  isDraft : bool
}.

Record Settings : Type := mkSettings {
  autoLoadHistory : bool;
  handoffRichness : string
}.

Inductive Tier : Type := stable | degrading | unreliable | critical.

(** The fields of the global [state] that the modelled functions read or
    write. *)
Record State : Type := mkState {
  conversationId : option string;
  messages : list Message;
  pinnedMessageIds : gset string;
  currentHealth : num;
  lastTier : Tier;
  handoffApplied : bool;
  settings : option Settings
}.

(** [state.pinnedMessageIds] after [add] and [delete] calls. *)
Definition withPins (st : State) (pins : gset string) : State :=
  {| conversationId := conversationId st; messages := messages st;
     pinnedMessageIds := pins; currentHealth := currentHealth st;
     lastTier := lastTier st; handoffApplied := handoffApplied st;
     settings := settings st |}.

(** [state.messages = msgs] *)
Definition withMessages (st : State) (msgs : list Message) : State :=
  {| conversationId := conversationId st; messages := msgs;
     pinnedMessageIds := pinnedMessageIds st;
     currentHealth := currentHealth st; lastTier := lastTier st;
     handoffApplied := handoffApplied st; settings := settings st |}.

(* ===================================================================== *)
(** ** Instruction detection *)
(* ===================================================================== *)

Definition countImperativePhrases (text : string) : nat :=
  let lowerText := toLowerCase text in
  length (List.filter (fun phrase => includes lowerText phrase)
                      IMPERATIVE_PHRASES).

Definition hasBulletList (text : string) : bool :=
  anyLineStart bulletHere true text || anyLineStart numberedHere true text.

(** [messages.filter((m, i) => i <= index && m.role === 'user').length] *)
Definition userMessageIndex (messages : list Message) (index : nat) : nat :=
  length (List.filter (fun m => Role_eqb (role m) user)
                      (firstn (S index) messages)).

(** The heuristics of [detectInstructions] for a user message that is
    neither a draft nor pinned, in the order of the source. *)
Definition autoDetect (messages : list Message) (index : nat) (msg : Message)
  : bool :=
  let isInstruction := false in
  let imperativeCount := countImperativePhrases (text msg) in
  let isInstruction :=
    if (MIN_IMPERATIVES <=? imperativeCount)%nat then true
    else isInstruction in
  let isInstruction :=
    if (userMessageIndex messages index <=? EARLY_MESSAGE_COUNT)%nat then
      if hasBulletList (text msg) then true else isInstruction
    else isInstruction in
  let isInstruction :=
    if (MIN_IMPERATIVES <=? imperativeCount)%nat && (charCount msg <? 800)
    then true else isInstruction in
  isInstruction.

(** Whether the body of the [forEach] callback pushes [index]. *)
Definition pushesIndex (pins : gset string) (messages : list Message)
  (index : nat) (msg : Message) : bool :=
  if negb (Role_eqb (role msg) user) then false
  else if isDraft msg then false
  else if bool_decide (msgId msg ∈ pins) then true
  else autoDetect messages index msg.

(** The [forEach] of [detectInstructions]: [rest] is what remains to visit,
    [index] the position of its head, [instructions] the array so far. *)
Fixpoint detectLoop (pins : gset string) (messages : list Message)
  (index : nat) (rest : list Message) (instructions : list nat) : list nat :=
  match rest with
  | [] => instructions
  | msg :: rest' =>
      detectLoop pins messages (S index) rest'
        (if pushesIndex pins messages index msg
         then (instructions ++ [index])%list else instructions)
  end.

Definition detectInstructions (st : State) (messages : list Message)
  : list nat :=
  detectLoop (pinnedMessageIds st) messages 0 messages [].

(* ===================================================================== *)
(** ** Noise detection *)
(* ===================================================================== *)

(** The callback of the [forEach] of [detectNoise]; the pair is
    [(assistantTokens, longMonologueCount)]. *)
Definition noiseStep (acc : Z * Z) (msg : Message) : Z * Z :=
  let '(assistantTokens, longMonologueCount) := acc in
  match role msg with
  | assistant =>
      (assistantTokens + tokens msg,
       if charCount msg >? LONG_MESSAGE_THRESHOLD
       then longMonologueCount + 1 else longMonologueCount)
  | user => acc
  end.

Definition noiseScan (messages : list Message) : Z * Z :=
  fold_left noiseStep messages (0, 0).

Definition detectNoise (messages : list Message) (totalTokens : Z) : Z :=
  let noisePenalty := 0 in
  let '(assistantTokens, longMonologueCount) := noiseScan messages in
  let noisePenalty :=
    if longMonologueCount >? 0 then noisePenalty + 10 else noisePenalty in
  let assistantRatio := ndiv (ofZ assistantTokens) (ofZ totalTokens) in
  let noisePenalty :=
    if ngtb assistantRatio (Fin ASSISTANT_DOMINANCE_RATIO)
    then noisePenalty + 15 else noisePenalty in
  noisePenalty.

(* ===================================================================== *)
(** ** Health calculation *)
(* ===================================================================== *)

(** The entries of [reasons].  Each constructor stands for one template
    string of the source and carries the number the template prints. *)
Inductive Reason : Type :=
| PrimaryInstructionBack (thousands : Z)
    (* `Primary instruction ${Math.floor(distanceFromEnd / 1000)}k tokens back` *)
| NoCoreInstructions
    (* 'No core instructions detected' *)
| LengthTokens (totalTokens : Z)
    (* `Conversation length: ${formatCount(totalTokens)} tokens` *)
| LengthChars (totalChars : Z)
    (* `Conversation length: ${formatCount(totalChars)} chars` *)
| LengthMessages (messageCount : Z)
    (* `Conversation length: ${messageCount} messages` *)
| LongAssistantResponses.
    (* 'Long assistant responses detected' *)

Record DebugStats : Type := mkDebugStats {
  ds_totalChars : Z;
  ds_totalTokens : Z;
  ds_messageCount : Z
}.

Record HealthReport : Type := mkHealthReport {
  health : num;
  tier : Tier;
  reasons : list Reason;
  hasUserMessages : bool;
  debugStats : DebugStats
}.

(** [Math.ceil(a / b)] for integers [a] and [b > 0]. *)
Definition ceilDiv (a b : Z) : Z := - ((- a) / b).

(** [Math.max(...indices)] for a non-empty array of indices. *)
Definition maxIndex (indices : list nat) : nat := fold_right Nat.max 0%nat indices.

Definition Qmax3 (a b c : Q) : Q :=
  let m := if Qle_bool a b then b else a in
  if Qle_bool m c then c else m.

(** Step 1 of [calculateHealth]: the instruction penalty and the reasons
    it pushes.  [None] is the [TypeError] of reading [tokenEnd] from a
    missing message. *)
Definition instructionPart (messages : list Message) (totalTokens : Z)
  (instructionIndices : list nat) (hasUserMessages : bool) (totalChars : Z)
  : option (num * list Reason) :=
  let instructionPenalty := Fin 0 in
  if (0 <? length instructionIndices)%nat then
    let lastInstructionIndex := maxIndex instructionIndices in
    match messages !! lastInstructionIndex with
    | None => None
    | Some lastInstructionMsg =>
        let lastInstructionPos := tokenEnd lastInstructionMsg in
        let distanceFromEnd := totalTokens - lastInstructionPos in
        let distanceRatio := ndiv (ofZ distanceFromEnd) (ofZ totalTokens) in
        let instructionPenalty :=
          if ngtb distanceRatio (Fin (1 # 2))
          then nmul (nsub distanceRatio (Fin (1 # 2))) (Fin 80)
          else instructionPenalty in
        Some (instructionPenalty,
              if distanceFromEnd >? 5000
              then [PrimaryInstructionBack (distanceFromEnd / 1000)] else [])
    end
  else if hasUserMessages then
    let maxPenalty := Fin 30 in
    let rampChars := Fin 120000 in
    let scaledPenalty := nmul (ndiv (ofZ totalChars) rampChars) maxPenalty in
    Some (nmin maxPenalty scaledPenalty, [NoCoreInstructions])
  else Some (instructionPenalty, []).

Definition tokenPenaltyOf (effectiveTokens : Z) : Q :=
  if effectiveTokens >? TOKEN_THRESHOLDS.HIGH then 30
  else if effectiveTokens >? TOKEN_THRESHOLDS.MEDIUM then 20
  else if effectiveTokens >? TOKEN_THRESHOLDS.LOW then 10
  else 0.

Definition messagePenaltyOf (effectiveMessages : Z) : Q :=
  if effectiveMessages >? MESSAGE_THRESHOLDS.HIGH then 30
  else if effectiveMessages >? MESSAGE_THRESHOLDS.MEDIUM then 20
  else if effectiveMessages >? MESSAGE_THRESHOLDS.LOW then 10
  else 0.

(** Step 2 of [calculateHealth]: the length penalty and the reasons it
    pushes. *)
Definition lengthPart (totalTokens totalChars messageCount : Z)
  : Q * list Reason :=
  let tokenPenalty := tokenPenaltyOf totalTokens in
  let charPenalty := interpolatePenalty CHAR_PENALTY_POINTS totalChars in
  let messagePenalty := messagePenaltyOf messageCount in
  let lengthPenalty := Qmax3 tokenPenalty charPenalty messagePenalty in
  (lengthPenalty,
   ((if Qeq_bool lengthPenalty tokenPenalty && Qltb 0 tokenPenalty
     then [LengthTokens totalTokens] else [])
    ++ (if Qeq_bool lengthPenalty charPenalty && Qltb 0 charPenalty
        then [LengthChars totalChars] else [])
    ++ (if Qeq_bool lengthPenalty messagePenalty && Qltb 0 messagePenalty
        then [LengthMessages messageCount] else []))%list).

Definition tierOf (health : num) : Tier :=
  if ngeb health (Fin 80) then stable
  else if ngeb health (Fin 50) then degrading
  else if ngeb health (Fin 20) then unreliable
  else critical.

Definition isRealUser (msg : Message) : bool :=
  Role_eqb (role msg) user && negb (isDraft msg).

(** [totalCharsOverride || 0]; [None] is an omitted argument. *)
Definition orZero (x : option Z) : Z :=
  match x with
  | Some z => z
  | None => 0
  end.

Definition totalCharsOf (messages : list Message)
  (totalCharsOverride : option Z) : Z :=
  let nonDraftMessages := List.filter (fun msg => negb (isDraft msg)) messages in
  let totalCharsFromMessages :=
    fold_left (fun sum msg => sum + charCount msg) nonDraftMessages 0 in
  Z.max totalCharsFromMessages (orZero totalCharsOverride).

Definition messageCountOf (messages : list Message) : Z :=
  Z.of_nat (length (List.filter (fun msg => negb (isDraft msg)) messages)).

(** The value of [health] after the clamp and before [Math.round]. *)
Definition clampedHealth (instructionPenalty : num) (lengthPenalty : Q)
  (noisePenalty : Z) : num :=
  let health :=
    nsub (nsub (nsub (Fin 100) instructionPenalty) (Fin lengthPenalty))
         (ofZ noisePenalty) in
  nmax (Fin 0) (nmin (Fin 100) health).

Definition calculateHealth (messages : list Message) (totalTokens : Z)
  (instructionIndices : list nat) (totalCharsOverride : option Z)
  : option HealthReport :=
  let hasUserMessages := existsb isRealUser messages in
  let messageCount := messageCountOf messages in
  let totalChars := totalCharsOf messages totalCharsOverride in
  match instructionPart messages totalTokens instructionIndices
          hasUserMessages totalChars with
  | None => None
  | Some (instructionPenalty, instructionReasons) =>
      let '(lengthPenalty, lengthReasons) :=
        lengthPart totalTokens totalChars messageCount in
      let noisePenalty := detectNoise messages totalTokens in
      let noiseReasons :=
        if noisePenalty >? 0 then [LongAssistantResponses] else [] in
      let health := clampedHealth instructionPenalty lengthPenalty noisePenalty in
      Some {| health := nround health;
              tier := tierOf health;
              reasons := (instructionReasons ++ lengthReasons ++ noiseReasons)%list;
              hasUserMessages := hasUserMessages;
              debugStats :=
                {| ds_totalChars := totalChars;
                   ds_totalTokens :=
                     Z.max totalTokens (ceilDiv totalChars CHARS_PER_TOKEN);
                   ds_messageCount := messageCount |} |}
  end.

(* ===================================================================== *)
(** ** Handoff packet *)
(* ===================================================================== *)

(** [Array.prototype.slice(start, stop)]: negative positions count from the
    end, and every position is clamped to the array. *)
Definition relIndex (len k : Z) : Z :=
  if k <? 0 then Z.max (len + k) 0 else Z.min k len.

Definition slice {A : Type} (l : list A) (start stop : Z) : list A :=
  let len := Z.of_nat (length l) in
  let from := relIndex len start in
  let to := relIndex len stop in
  firstn (Z.to_nat (to - from)) (skipn (Z.to_nat from) l).

(** [l.slice(start)] *)
Definition sliceFrom {A : Type} (l : list A) (start : Z) : list A :=
  slice l start (Z.of_nat (length l)).

Definition normalizeText (text : string) : string :=
  trim (collapseSpaces false text).

Definition clipText (text : string) (maxChars : Z) : string :=
  let normalized := normalizeText text in
  if strlen normalized <=? maxChars then normalized
  else sliceTo normalized (maxChars - 3) ++ "...".

Record Limits : Type := mkLimits {
  maxChars : Z;
  maxPinned : Z;
  maxRecent : Z;
  maxSalience : Z
}.

(** [settings?.handoffRichness || 'rich'] *)
Definition richnessOf (settings : option Settings) : string :=
  match settings with
  | Some s => if String.eqb (handoffRichness s) "" then "rich"
              else handoffRichness s
  | None => "rich"
  end.

Definition getHandoffLimits (settings : option Settings) : Limits :=
  let richness := richnessOf settings in
  if String.eqb richness "compact" then
    {| maxChars := 400; maxPinned := 5; maxRecent := 6; maxSalience := 3 |}
  else if String.eqb richness "standard" then
    {| maxChars := 700; maxPinned := 6; maxRecent := 8; maxSalience := 4 |}
  else
    {| maxChars := HANDOFF_MAX_MESSAGE_CHARS;
       maxPinned := HANDOFF_MAX_PINNED;
       maxRecent := HANDOFF_MAX_RECENT;
       maxSalience := HANDOFF_MAX_SALIENCE |}.

(** [/\\bimportant\\b|\\bmust\\b|\\bshould\\b|\\bremember\\b/i.test(text)] *)
Definition importanceTest (text : string) : bool :=
  wordMatch "important" false text || wordMatch "must" false text
  || wordMatch "should" false text || wordMatch "remember" false text.

Definition scoreSalience (msg : Message) : Z :=
  let score := 0 in
  let score := if Role_eqb (role msg) user then score + 1 else score in
  let score := if hasBulletList (text msg) then score + 3 else score in
  let score :=
    if (MIN_IMPERATIVES <=? countImperativePhrases (text msg))%nat
    then score + 2 else score in
  let score := if charCount msg >? 1200 then score + 2 else score in
  let score := if includes (text msg) "```" then score + 2 else score in
  let score := if importanceTest (text msg) then score + 2 else score in
  score.

(** An entry [{ msg, score, index }] of [scored]. *)
Record Scored : Type := mkScored {
  s_msg : Message;
  s_score : Z;
  s_index : nat
}.

(** The [forEach] of [getSalientMessages]. *)
Fixpoint scoreLoop (excludeIds : gset string) (index : nat)
  (rest : list Message) (scored : list Scored) : list Scored :=
  match rest with
  | [] => scored
  | msg :: rest' =>
      scoreLoop excludeIds (S index) rest'
        (if bool_decide (msgId msg ∈ excludeIds) then scored
         else
           let score := scoreSalience msg in
           if score <=? 0 then scored
           else (scored ++ [mkScored msg score index])%list)
  end.

(** The comparator handed to [sort]. *)
Definition compareScored (a b : Scored) : Z :=
  if negb (s_score b =? s_score a) then s_score b - s_score a
  else Z.of_nat (s_index a) - Z.of_nat (s_index b).

(** [Array.prototype.sort(cmp)] is a stable sort; for a comparator that is
    a consistent ordering its result is fixed by the language, whatever the
    engine's algorithm.  The model is the stable insertion sort: [x] goes
    in front of the first element it is strictly smaller than. *)
Fixpoint insertBy {A : Type} (cmp : A -> A -> Z) (x : A) (l : list A)
  : list A :=
  match l with
  | [] => [x]
  | y :: l' => if cmp x y <? 0 then x :: l else y :: insertBy cmp x l'
  end.

Definition sortBy {A : Type} (cmp : A -> A -> Z) (l : list A) : list A :=
  fold_left (fun acc x => insertBy cmp x acc) l [].

(** [scored] after the [sort] and the [slice(0, maxCount)]. *)
Definition selectSalient (messages : list Message) (excludeIds : gset string)
  (maxCount : Z) : list Scored :=
  let scored := scoreLoop excludeIds 0 messages [] in
  slice (sortBy compareScored scored) 0 maxCount.

Definition getSalientMessages (messages : list Message)
  (excludeIds : gset string) (maxCount : Z) : list Message :=
  map s_msg (selectSalient messages excludeIds maxCount).

Definition newline : string := String (ascii_of_nat 10) EmptyString.

(** [lines.join(sep)] *)
Fixpoint join (sep : string) (lines : list string) : string :=
  match lines with
  | [] => ""
  | [l] => l
  | l :: rest => l ++ sep ++ join sep rest
  end.

Definition roleLabel (msg : Message) : string :=
  match role msg with
  | user => "User"
  | assistant => "Assistant"
  end.

(** The local values that [buildHandoffPacket] derives before it writes
    any line. *)
Definition fullMessagesOf (messages : list Message) : list Message :=
  List.filter (fun msg => negb (isDraft msg)) messages.

Definition recentMessagesOf (st : State) (messages : list Message)
  : list Message :=
  sliceFrom (fullMessagesOf messages)
            (- maxRecent (getHandoffLimits (settings st))).

Definition recentIdsOf (st : State) (messages : list Message) : gset string :=
  list_to_set (map msgId (recentMessagesOf st messages)).

(** The selection behind the "Key highlights" section, with the score and
    the transcript index of every entry. *)
Definition handoffSalient (st : State) (messages : list Message)
  : list Scored :=
  selectSalient (fullMessagesOf messages) (recentIdsOf st messages)
                (maxSalience (getHandoffLimits (settings st))).

Definition buildHandoffPacket (st : State) (messages : list Message)
  : string :=
  let fullMessages := fullMessagesOf messages in
  let userMessages :=
    List.filter (fun msg => Role_eqb (role msg) user) fullMessages in
  let pinnedMessages :=
    List.filter (fun msg => bool_decide (msgId msg ∈ pinnedMessageIds st))
                fullMessages in
  let limits := getHandoffLimits (settings st) in
  let recentMessages := sliceFrom fullMessages (- maxRecent limits) in
  let recentIds : gset string := list_to_set (map msgId recentMessages) in
  let lines := ["# Context handoff from previous chat"; ""] in
  let lines :=
    match head userMessages with
    | Some firstUser =>
        (lines ++ ["## Original request:";
                   clipText (text firstUser) (maxChars limits)])%list
    | None => lines
    end in
  let lines :=
    if (0 <? length pinnedMessages)%nat then
      (lines ++ [""; "### Pinned instructions:"]
       ++ map (fun msg =>
                 ("- **User:** " ++ clipText (text msg) (maxChars limits))%string)
              (slice pinnedMessages 0 (maxPinned limits)))%list
    else lines in
  let salientMessages :=
    getSalientMessages fullMessages recentIds (maxSalience limits) in
  let lines :=
    if (0 <? length salientMessages)%nat then
      (lines ++ [""; "### Key highlights:"]
       ++ map (fun msg =>
                 ("- **" ++ roleLabel msg ++ ":** "
                  ++ clipText (text msg) (maxChars limits))%string)
              salientMessages)%list
    else lines in
  let lines :=
    match last userMessages with
    | Some lastUser =>
        (lines ++ [""; "### Current focus:";
                   clipText (text lastUser) (maxChars limits)])%list
    | None => lines
    end in
  let lines :=
    if (0 <? length recentMessages)%nat then
      (lines ++ [""; "### Recent exchange:"]
       ++ map (fun msg =>
                 ("- **" ++ roleLabel msg ++ ":** "
                  ++ clipText (text msg) (maxChars limits))%string)
              recentMessages)%list
    else lines in
  let lines := (lines ++ [""; "Please continue from this context."])%list in
  join newline lines.

(* ===================================================================== *)
(** ** Conversation parser *)
(* ===================================================================== *)

(** What the parser reads of one matched DOM element: its [data-testid]
    and the text that [extractTextContent] returns for it. *)
Record RawElement : Type := mkRawElement {
  testId : string;
  textContent : string
}.

(** [x | 0] *)
Definition toInt32 (z : Z) : Z := (z + 2 ^ 31) mod 2 ^ 32 - 2 ^ 31.

Definition digitChar (d : Z) : ascii :=
  match String.get (Z.to_nat d) "0123456789abcdefghijklmnopqrstuvwxyz" with
  | Some c => c
  | None => "0"%char
  end.

Fixpoint toRadixLoop (fuel : nat) (radix n : Z) (acc : string) : string :=
  match fuel with
  | O => acc
  | S fuel' =>
      let acc' := String (digitChar (n mod radix)) acc in
      if n / radix =? 0 then acc' else toRadixLoop fuel' radix (n / radix) acc'
  end.

(** [n.toString(radix)] for an integer [n >= 0]; a number of [k] bits has
    at most [k] digits. *)
Definition toStringRadix (radix n : Z) : string :=
  toRadixLoop (S (Z.to_nat (Z.log2 n))) radix n "".

Definition hashText (text : string) : string :=
  let fix loop (hash : Z) (s : string) : Z :=
    match s with
    | EmptyString => hash
    | String c r => loop (toInt32 (toInt32 (hash * 32) + hash + code c)) r
    end in
  toStringRadix 36 (loop 5381 text mod 2 ^ 32).

Definition roleName (r : Role) : string :=
  match r with
  | user => "user"
  | assistant => "assistant"
  end.

(** The variables that the [forEach] of [parseConversation] updates. *)
Record ParseAcc : Type := mkParseAcc {
  pa_messages : list Message;
  pa_cumulativeTokens : Z;
  pa_messageCounts : gmap string Z;
  pa_pins : gset string;
  pa_migratedLegacyPins : bool;
  pa_totalCharsFromMessages : Z
}.

Definition parseElement (acc : ParseAcc) (index : nat) (element : RawElement)
  : ParseAcc :=
  let role := if includes (testId element) "user" then user else assistant in
  let textContent := textContent element in
  if strlen (trim textContent) =? 0 then acc
  else
    let charCount := strlen textContent in
    let tokens := ceilDiv charCount CHARS_PER_TOKEN in
    let textHash := hashText textContent in
    let key := roleName role ++ ":" ++ textHash in
    let occurrence := default 0 (pa_messageCounts acc !! key) + 1 in
    let messageId :=
      "msg_" ++ roleName role ++ "_" ++ textHash ++ "_"
      ++ toStringRadix 10 occurrence in
    let legacyId := "msg_" ++ toStringRadix 10 (Z.of_nat index) in
    let migrate := bool_decide (legacyId ∈ pa_pins acc) in
    let cumulativeTokens := pa_cumulativeTokens acc in
    {| pa_messages :=
         (pa_messages acc
          ++ [ {| msgId := messageId; role := role; text := textContent;
                  charCount := charCount; tokens := tokens;
                  tokenStart := cumulativeTokens;
                  tokenEnd := cumulativeTokens + tokens;
                  isDraft := false |} ])%list;
       pa_cumulativeTokens := cumulativeTokens + tokens;
       pa_messageCounts := <[key := occurrence]> (pa_messageCounts acc);
       pa_pins :=
         if migrate then {[messageId]} ∪ (pa_pins acc ∖ {[legacyId]})
         else pa_pins acc;
       pa_migratedLegacyPins := migrate || pa_migratedLegacyPins acc;
       pa_totalCharsFromMessages := pa_totalCharsFromMessages acc + charCount
    |}.

Fixpoint parseLoop (index : nat) (elements : list RawElement) (acc : ParseAcc)
  : ParseAcc :=
  match elements with
  | [] => acc
  | element :: rest => parseLoop (S index) rest (parseElement acc index element)
  end.

Record Parsed : Type := mkParsed {
  p_messages : list Message;
  p_totalTokens : Z;
  p_totalCharsFromMessages : Z;
  p_visibleChars : Z
}.

(** [parseConversation]: the matched elements, the text of the draft input
    and the character count of the visible conversation come from the DOM.
    The second component is [state] after the migration of legacy pins, the
    third says whether [savePinsToStorage] was called. *)
Definition parseConversation (st : State) (elements : list RawElement)
  (draftInput : string) (visibleChars : Z) : Parsed * State * bool :=
  let acc :=
    parseLoop 0 elements
      {| pa_messages := []; pa_cumulativeTokens := 0;
         pa_messageCounts := ∅; pa_pins := pinnedMessageIds st;
         pa_migratedLegacyPins := false; pa_totalCharsFromMessages := 0 |} in
  let cumulativeTokens := pa_cumulativeTokens acc in
  let '(messages, cumulativeTokens) :=
    if negb (String.eqb draftInput "") && (strlen (trim draftInput) >? 0) then
      let tokens := ceilDiv (strlen draftInput) CHARS_PER_TOKEN in
      ((pa_messages acc
        ++ [ {| msgId := "draft"; role := user; text := draftInput;
                charCount := strlen draftInput; tokens := tokens;
                tokenStart := cumulativeTokens;
                tokenEnd := cumulativeTokens + tokens;
                isDraft := true |} ])%list,
       cumulativeTokens + tokens)
    else (pa_messages acc, cumulativeTokens) in
  ({| p_messages := messages; p_totalTokens := cumulativeTokens;
      p_totalCharsFromMessages := pa_totalCharsFromMessages acc;
      p_visibleChars := visibleChars |},
   withPins st (pa_pins acc),
   pa_migratedLegacyPins acc).

(* ===================================================================== *)
(** ** Main update *)
(* ===================================================================== *)

(** The writes of [renderHUD] and [updateHUD] to [state]. *)
Definition renderHUD (st : State) (healthData : HealthReport) : State :=
  {| conversationId := conversationId st; messages := messages st;
     pinnedMessageIds := pinnedMessageIds st;
     currentHealth := health healthData;
     lastTier := tier healthData;
     handoffApplied := handoffApplied st; settings := settings st |}.

(** The report of the empty conversation. *)
Definition emptyReport (totalTokens totalCharsForPenalty : Z) : HealthReport :=
  {| health := Fin 100;
     tier := stable;
     reasons := [];
     hasUserMessages := false;
     debugStats :=
       {| ds_totalChars := totalCharsForPenalty;
          ds_totalTokens :=
            Z.max totalTokens (ceilDiv totalCharsForPenalty CHARS_PER_TOKEN);
          ds_messageCount := 0 |} |}.

(** [updateHealthBar]: the [healthData] handed to [renderHUD] ([None] when
    an exception ends the update before it) and [state] afterwards. *)
Definition updateHealthBar (st : State) (elements : list RawElement)
  (draftInput : string) (visibleChars : Z) : option HealthReport * State :=
  let '(parsed, st, _) := parseConversation st elements draftInput visibleChars in
  let totalCharsForPenalty :=
    Z.max (p_totalCharsFromMessages parsed) (p_visibleChars parsed) in
  if (length (p_messages parsed) =? 0)%nat then
    let healthData := emptyReport (p_totalTokens parsed) totalCharsForPenalty in
    (Some healthData, renderHUD st healthData)
  else
    let st := withMessages st (p_messages parsed) in
    let instructionIndices := detectInstructions st (p_messages parsed) in
    match calculateHealth (p_messages parsed) (p_totalTokens parsed)
            instructionIndices (Some totalCharsForPenalty) with
    | Some healthData => (Some healthData, renderHUD st healthData)
    | None => (None, st)
    end.

(* ===================================================================== *)
(** ** The variant of the detector without the short-and-dense rule *)
(* ===================================================================== *)

(** [autoDetect] with rule 3 ("High imperative density in short messages")
    removed; rules 1 and 2 are unchanged. *)
Definition autoDetect_noShortDense (messages : list Message) (index : nat)
  (msg : Message) : bool :=
  let isInstruction := false in
  let imperativeCount := countImperativePhrases (text msg) in
  let isInstruction :=
    if (MIN_IMPERATIVES <=? imperativeCount)%nat then true
    else isInstruction in
  let isInstruction :=
    if (userMessageIndex messages index <=? EARLY_MESSAGE_COUNT)%nat then
      if hasBulletList (text msg) then true else isInstruction
    else isInstruction in
  isInstruction.

Definition pushesIndex_noShortDense (pins : gset string)
  (messages : list Message) (index : nat) (msg : Message) : bool :=
  if negb (Role_eqb (role msg) user) then false
  else if isDraft msg then false
  else if bool_decide (msgId msg ∈ pins) then true
  else autoDetect_noShortDense messages index msg.

Fixpoint detectLoop_noShortDense (pins : gset string)
  (messages : list Message) (index : nat) (rest : list Message)
  (instructions : list nat) : list nat :=
  match rest with
  | [] => instructions
  | msg :: rest' =>
      detectLoop_noShortDense pins messages (S index) rest'
        (if pushesIndex_noShortDense pins messages index msg
         then (instructions ++ [index])%list else instructions)
  end.

Definition detectInstructions_noShortDense (st : State)
  (messages : list Message) : list nat :=
  detectLoop_noShortDense (pinnedMessageIds st) messages 0 messages [].

(* ===================================================================== *)
(** ** Sample transcripts *)
(* ===================================================================== *)

Module Samples.

Definition initialState : State :=
  {| conversationId := Some "default"; messages := [];
     pinnedMessageIds := ∅; currentHealth := Fin 100; lastTier := stable;
     handoffApplied := false; settings := None |}.

(** A message with [tokens = ceil(charCount / 4)] ending at [tokenEnd]. *)
Definition plain (id : string) (r : Role) (t : string) (stop : Z) : Message :=
  {| msgId := id; role := r; text := t; charCount := strlen t;
     tokens := ceilDiv (strlen t) CHARS_PER_TOKEN;
     tokenStart := stop - ceilDiv (strlen t) CHARS_PER_TOKEN;
     tokenEnd := stop; isDraft := false |}.

(** A user instruction answered once, on a page whose visible text has
    97500 characters. *)
Definition shortPage : list RawElement :=
  [ mkRawElement "user-message" "You must always be nice";
    mkRawElement "assistant-message" "ok" ].

Definition shortPageMessages : list Message :=
  [ plain "msg_user_z0fldu_1" user "You must always be nice" 6;
    plain "msg_assistant_3hofz_1" assistant "ok" 7 ].

(** A single instruction whose token range ends at [stop]; the total of
    the conversation is given to the scorer separately. *)
Definition loneInstruction (stop : Z) : list Message :=
  [ {| msgId := "msg_user_a_1"; role := user; text := "You must always be nice";
       charCount := 23; tokens := 6; tokenStart := stop - 6;
       tokenEnd := stop; isDraft := false |} ].

(** Seventy one-character assistant messages. *)
Definition seventy : list Message :=
  repeat {| msgId := "msg_assistant_3t_1"; role := assistant; text := "x";
            charCount := 1; tokens := 1; tokenStart := 0; tokenEnd := 1;
            isDraft := false |} 70.

(** An instruction and its answer, neither carrying a token: a transcript
    whose token counts sum to 0 although it is not empty. *)
Definition tokenless : list Message :=
  [ {| msgId := "msg_user_a_1"; role := user; text := "You must always be nice";
       charCount := 23; tokens := 0; tokenStart := 0; tokenEnd := 0;
       isDraft := false |};
    {| msgId := "msg_assistant_3hofz_1"; role := assistant; text := "ok";
       charCount := 2; tokens := 0; tokenStart := 0; tokenEnd := 0;
       isDraft := false |} ].

(** Five user messages; only the last is pinned, and it has no imperative
    phrase and no list. *)
Definition fiveUsers : list Message :=
  [ plain "u1" user "hello" 2; plain "u2" user "how are you" 5;
    plain "u3" user "fine" 6; plain "u4" user "good" 7;
    plain "u5" user "thanks" 9 ].

Definition pinnedLast : State := withPins initialState {[ "u5" ]}.

(** Eight messages; under the compact limits the last six form the recent
    window, and the first two score the same. *)
Definition eight : list Message :=
  [ plain "a1" assistant "this is important" 5;
    plain "a2" assistant "you should know" 9;
    plain "u3" user "c" 10; plain "a4" assistant "d" 11;
    plain "u5" user "e" 12; plain "a6" assistant "f" 13;
    plain "u7" user "g" 14; plain "a8" assistant "h" 15 ].

Definition compactState : State :=
  {| conversationId := Some "default"; messages := [];
     pinnedMessageIds := ∅; currentHealth := Fin 100; lastTier := stable;
     handoffApplied := false;
     settings := Some {| autoLoadHistory := true;
                         handoffRichness := "compact" |} |}.

(** The same pins and richness as [compactState]; every other field
    differs. *)
Definition compactStateLater : State :=
  {| conversationId := Some "abc-123"; messages := eight;
     pinnedMessageIds := ∅; currentHealth := Fin 42; lastTier := unreliable;
     handoffApplied := true;
     settings := Some {| autoLoadHistory := false;
                         handoffRichness := "compact" |} |}.

(** A page on which the same text occurs three times, twice from the
    user. *)
Definition repeatedPage : list RawElement :=
  [ mkRawElement "user-message" "ok";
    mkRawElement "assistant-message" "ok";
    mkRawElement "user-message" "ok" ].

End Samples.

(* ===================================================================== *)
(** ** Vocabulary of the statements *)
(* ===================================================================== *)

(** A penalty that is a rational or [+Infinity]. *)
Definition finite_or_pinf (p : num) : Prop :=
  match p with
  | Fin _ | PInf => True
  | NInf | NaN => False
  end.

(** The sum of the messages' token counts, which is what
    [parseConversation] returns as [totalTokens]. *)
Definition sumTokens (messages : list Message) : Z :=
  fold_left (fun sum msg => sum + tokens msg) messages 0.

(** The part of [detectNoise] that does not depend on [totalTokens]. *)
Definition monologuePenalty (messages : list Message) : Z :=
  if snd (noiseScan messages) >? 0 then 10 else 0.

(** The reasons that step 2 of [calculateHealth] pushes. *)
Definition isLengthReason (r : Reason) : bool :=
  match r with
  | LengthTokens _ | LengthChars _ | LengthMessages _ => true
  | _ => false
  end.

(** [a] does not come after [b] in the order that [compareScored]
    describes. *)
Definition ranksNotAfter (a b : Scored) : Prop :=
  s_score b < s_score a \/
  (s_score a = s_score b /\ (s_index a <= s_index b)%nat).

(** [a] comes before [b] in the order that [compareScored] describes. *)
Definition ranksBefore (a b : Scored) : Prop :=
  s_score b < s_score a \/
  (s_score a = s_score b /\ (s_index a < s_index b)%nat).

(** The character penalty of [CONFIG.CHAR_PENALTY_POINTS] as a fraction
    over 33600: the table's first two segments share the slope 1/4800, the
    third has the slope 1/11200. *)
Definition charPenaltyNumerator (value : Z) : Z :=
  if value <=? 0 then 0
  else if value <=? 240000 then 7 * value
  else if value <=? 800000 then 3 * value + 960000
  else 3360000.

(** The token ranges of [msgs] follow one another, the first starting at
    [start]. *)
Fixpoint contiguousFrom (start : Z) (msgs : list Message) : Prop :=
  match msgs with
  | [] => True
  | m :: rest =>
      tokenStart m = start /\ tokenEnd m = start + tokens m
      /\ contiguousFrom (tokenEnd m) rest
  end.

(** The counts of [m] are those of its text, and it has at least one
    token. *)
Definition countedFromText (m : Message) : Prop :=
  charCount m = strlen (text m)
  /\ tokens m = ceilDiv (charCount m) CHARS_PER_TOKEN
  /\ 1 <= tokens m.

(** The sum of the messages' character counts. *)
Definition sumChars (msgs : list Message) : Z :=
  fold_left (fun sum msg => sum + charCount msg) msgs 0.

(** The element is not skipped by the parser. *)
Definition nonBlank (e : RawElement) : bool :=
  negb (strlen (trim (textContent e)) =? 0).

(** The role that the parser reads off [data-testid]. *)
Definition roleOfElement (e : RawElement) : Role :=
  if includes (testId e) "user" then user else assistant.

(** The parser appends the draft. *)
Definition hasDraft (draftInput : string) : bool :=
  negb (String.eqb draftInput "") && (strlen (trim draftInput) >? 0).

(** What the loop of the parser keeps true of its variables. *)
Definition ParseInv (acc : ParseAcc) : Prop :=
  contiguousFrom 0 (pa_messages acc)
  /\ pa_cumulativeTokens acc = sumTokens (pa_messages acc)
  /\ Forall countedFromText (pa_messages acc)
  /\ Forall (fun m => isDraft m = false) (pa_messages acc)
  /\ pa_totalCharsFromMessages acc = sumChars (pa_messages acc).

(** The value of a digit character, as [parseInt] reads it. *)
Definition digitVal (c : ascii) : Z :=
  let n := code c in
  if (48 <=? n) && (n <=? 57) then n - 48
  else if (97 <=? n) && (n <=? 122) then n - 87
  else 0.

(** The number that a string of digits denotes in base [radix], continuing
    from the value [v] of the digits already read. *)
Fixpoint valueFrom (radix v : Z) (s : string) : Z :=
  match s with
  | EmptyString => v
  | String c r => valueFrom radix (v * radix + digitVal c) r
  end.

(** Every character of [s] passes the test [p]. *)
Fixpoint allChars (p : ascii -> bool) (s : string) : bool :=
  match s with
  | EmptyString => true
  | String c r => p c && allChars p r
  end.

Definition notUnderscore (c : ascii) : bool := negb (Ascii.eqb c "_").

(** [`msg_${role}_${textHash}_${occurrence}`] *)
Definition messageIdOf (r : Role) (textHash : string) (occurrence : Z)
  : string :=
  "msg_" ++ roleName r ++ "_" ++ textHash ++ "_"
  ++ toStringRadix 10 occurrence.

(** [`msg_${index}`] *)
Definition legacyIdOf (index : nat) : string :=
  "msg_" ++ toStringRadix 10 (Z.of_nat index).

(** [`${role}:${textHash}`] *)
Definition keyOf (r : Role) (textHash : string) : string :=
  roleName r ++ ":" ++ textHash.

(** The key under which the parser counts the message [m]. *)
Definition msgKey (m : Message) : string :=
  keyOf (role m) (hashText (text m)).

(** The number of messages of [msgs] that are counted under the key [k]. *)
Definition countKey (k : string) (msgs : list Message) : Z :=
  Z.of_nat (length (List.filter (fun x => String.eqb (msgKey x) k) msgs)).

(** What the loop of the parser keeps true of the ids it hands out: the
    id of a message is made of its role, the hash of its text and its rank
    among the messages so far that share both, and [messageCounts] holds
    the number of messages under every key. *)
Definition IdInv (acc : ParseAcc) : Prop :=
  (forall (i : nat) (m : Message),
      pa_messages acc !! i = Some m ->
      msgId m = messageIdOf (role m) (hashText (text m))
                  (countKey (msgKey m) (firstn (S i) (pa_messages acc))))
  /\ (forall k, default 0 (pa_messageCounts acc !! k)
                = countKey k (pa_messages acc)).

(** The first character of [s] is a decimal digit. *)
Definition headDigit (s : string) : bool :=
  match s with
  | String c _ => isDigit c
  | EmptyString => false
  end.

(* ===================================================================== *)
(** ** Pin management *)
(* ===================================================================== *)

(** [togglePin]: the pin set is changed, then [updateHealthBar] runs at
    once on the page as it is.  The result is what that update renders and
    [state] afterwards. *)
Definition togglePin (st : State) (messageId : string)
  (elements : list RawElement) (draftInput : string) (visibleChars : Z)
  : option HealthReport * State :=
  let pins := pinnedMessageIds st in
  let st :=
    if bool_decide (messageId ∈ pins)
    then withPins st (pins ∖ {[messageId]})
    else withPins st (pins ∪ {[messageId]}) in
  updateHealthBar st elements draftInput visibleChars.

(** No character of [s] is a line terminator. *)
Definition oneLine (s : string) : bool :=
  allChars (fun c => negb (isLineTerminator c)) s.

(** [p1] is at most [p2], for penalties that are rationals or
    [+Infinity]. *)
Definition penalty_le (p1 p2 : num) : Prop :=
  match p1, p2 with
  | Fin a, Fin b => (a <= b)%Q
  | Fin _, PInf | PInf, PInf => True
  | _, _ => False
  end.

(** Every white-space character of [s] is a space that is followed by a
    character that is not white space. *)
Fixpoint tight (s : string) : bool :=
  match s with
  | EmptyString => true
  | String c r =>
      if isSpace c then
        Ascii.eqb c " "
        && match r with
           | EmptyString => false
           | String d _ => negb (isSpace d)
           end
        && tight r
      else tight r
  end.

(** Every white-space character of [s] is a space that is followed by
    nothing or by a character that is not white space. *)
Fixpoint loose (s : string) : bool :=
  match s with
  | EmptyString => true
  | String c r =>
      if isSpace c then
        Ascii.eqb c " "
        && match r with
           | EmptyString => true
           | String d _ => negb (isSpace d)
           end
        && loose r
      else loose r
  end.

(** [s] does not begin with white space. *)
Definition headNonSpace (s : string) : bool :=
  match s with
  | EmptyString => true
  | String c _ => negb (isSpace c)
  end.

(** The control points come in strictly increasing order of [chars]. *)
Definition increasingTable (points : list Point) : Prop :=
  StronglySorted (fun a b => CONFIG.chars a < CONFIG.chars b) points.

(** [Number.MAX_SAFE_INTEGER]. *)
Definition MAX_SAFE_INTEGER : Z := 2 ^ 53 - 1.

(** Every control point has a safe integer for [chars] and a non-negative
    safe integer for [penalty].  On such a table the source's floating
    point computes the interpolation at a control point without rounding:
    the ratio is a number divided by itself, and the difference and the sum
    of the two penalties are integers of at most [2 ^ 53]. *)
Definition integerTable (points : list Point) : Prop :=
  Forall (fun p =>
            Z.abs (CONFIG.chars p) <= MAX_SAFE_INTEGER
            /\ exists k : Z,
                0 <= k <= MAX_SAFE_INTEGER /\ (penalty p == inject_Z k)%Q)
         points.

(* ===================================================================== *)
(** * Properties *)
(* ===================================================================== *)

(** ** Numbers *)

Lemma Qle_bool_inject (a b : Z) :
  Qle_bool (inject_Z a) (inject_Z b) = (a <=? b).
Proof. unfold Qle_bool, inject_Z. simpl. now rewrite !Z.mul_1_r. Qed.

Lemma Qfloor_half_bounds (q : Q) :
  (0 <= q)%Q -> (q <= 100)%Q -> 0 <= Qfloor (q + (1 # 2)) <= 100.
Proof.
  intros Hlo Hhi. split.
  - change 0 with (Qfloor 0). apply Qfloor_resp_le.
    apply Qle_trans with q; [exact Hlo|].
    rewrite <- (Qplus_0_r q) at 1. apply Qplus_le_r. discriminate.
  - change 100 with (Qfloor (100 + (1 # 2))). apply Qfloor_resp_le.
    apply Qplus_le_l. exact Hhi.
Qed.

(** A value that is not [NaN] is clamped to a rational of [0, 100]. *)
Lemma clamp_range (h : num) :
  h <> NaN ->
  exists q, nmax (Fin 0) (nmin (Fin 100) h) = Fin q /\ (0 <= q)%Q /\ (q <= 100)%Q.
Proof.
  intros Hnan. destruct h as [q| | |]; try congruence.
  - unfold nmin, ngeb. destruct (Qle_bool 100 q) eqn:H1.
    + exists 100%Q. split; [reflexivity|]. split; discriminate.
    + unfold nmax, ngeb. destruct (Qle_bool q 0) eqn:H2.
      * exists 0%Q. split; [reflexivity|]. split; [apply Qle_refl|discriminate].
      * exists q. split; [reflexivity|]. split.
        -- apply Qnot_lt_le. intros Hlt. apply Qlt_le_weak in Hlt.
           apply Qle_bool_iff in Hlt. congruence.
        -- apply Qnot_lt_le. intros Hlt. apply Qlt_le_weak in Hlt.
           apply Qle_bool_iff in Hlt. congruence.
  - exists 100%Q. split; [reflexivity|]. split; discriminate.
  - exists 0%Q. split; [reflexivity|]. split; [apply Qle_refl|discriminate].
Qed.

(** ** The piecewise-linear penalty *)

Lemma interpolate_saturates (value : Z) :
  800000 < value -> interpolatePenalty CHAR_PENALTY_POINTS value = 100%Q.
Proof.
  intros H. unfold interpolatePenalty, CHAR_PENALTY_POINTS. simpl.
  repeat match goal with
         | |- context [value <=? ?c] =>
             destruct (Z.leb_spec value c); [lia|]
         end.
  reflexivity.
Qed.

(** C4: on the table [(0,0), (120000,25), (240000,50), (800000,100)] the
    character penalty is exactly 25 at 120000 characters, exactly 37.5 at
    180000 characters, and exactly 100 for every count above 800000. *)
Theorem C4_char_penalty_control_points :
  (interpolatePenalty CHAR_PENALTY_POINTS 120000 == 25)%Q /\
  (interpolatePenalty CHAR_PENALTY_POINTS 180000 == 75 # 2)%Q /\
  (forall value : Z,
      800000 < value ->
      interpolatePenalty CHAR_PENALTY_POINTS value = 100%Q).
Proof.
  split; [reflexivity|]. split; [reflexivity|]. exact interpolate_saturates.
Qed.

Lemma C4_char_penalty_witness :
  800000 < 800001 /\
  interpolatePenalty CHAR_PENALTY_POINTS 800001 = 100%Q.
Proof.
  split; [lia|].
  apply (proj2 (proj2 C4_char_penalty_control_points) 800001). lia.
Defined.

(** ** The health score *)

Lemma distance_penalty_shape (ratio : num) :
  finite_or_pinf
    (if ngtb ratio (Fin (1 # 2))
     then nmul (nsub ratio (Fin (1 # 2))) (Fin 80) else Fin 0).
Proof. destruct ratio as [q| | |]; simpl; [destruct (Qltb _ _)|..]; exact I. Qed.

Lemma instructionPart_shape messages totalTokens indices hasUser totalChars p rs :
  instructionPart messages totalTokens indices hasUser totalChars = Some (p, rs) ->
  finite_or_pinf p.
Proof.
  unfold instructionPart.
  destruct (0 <? length indices)%nat.
  - destruct (messages !! maxIndex indices) as [m|]; [|discriminate].
    intros [= <- _]. apply distance_penalty_shape.
  - destruct hasUser; intros [= <- _]; [|exact I].
    unfold ndiv, ofZ. change (Qeq_bool 120000 0) with false. cbv iota.
    unfold nmul, nmin, ngeb. destruct (Qle_bool _ _); exact I.
Qed.

Lemma clampedHealth_range (p : num) (lengthPenalty : Q) (noisePenalty : Z) :
  finite_or_pinf p ->
  exists q, clampedHealth p lengthPenalty noisePenalty = Fin q
            /\ (0 <= q)%Q /\ (q <= 100)%Q.
Proof.
  intros Hp. unfold clampedHealth. apply clamp_range.
  destruct p; simpl in *; try contradiction; discriminate.
Qed.

(** Whatever the input, a report that [calculateHealth] returns carries an
    integer health between 0 and 100, and its tier is the band of the score
    as it was before [Math.round]. *)
Lemma calculateHealth_range messages totalTokens indices override r :
  calculateHealth messages totalTokens indices override = Some r ->
  exists q : Q,
    (0 <= q)%Q /\ (q <= 100)%Q /\
    health r = ofZ (Qfloor (q + (1 # 2))) /\
    0 <= Qfloor (q + (1 # 2)) <= 100 /\
    tier r = tierOf (Fin q).
Proof.
  unfold calculateHealth.
  destruct (instructionPart _ _ _ _ _) as [[p rs]|] eqn:Hip; [|discriminate].
  destruct (lengthPart _ _ _) as [lp lrs].
  intros [= <-]. simpl.
  destruct (clampedHealth_range p lp (detectNoise messages totalTokens)
              (instructionPart_shape _ _ _ _ _ _ _ Hip)) as (q & Hq & Hlo & Hhi).
  exists q. rewrite Hq. simpl.
  repeat split; auto; apply Qfloor_half_bounds; assumption.
Qed.

Lemma instructionPart_returns messages totalTokens indices hasUser totalChars :
  (indices = [] \/ (maxIndex indices < length messages)%nat) ->
  is_Some (instructionPart messages totalTokens indices hasUser totalChars).
Proof.
  intros H. unfold instructionPart.
  destruct indices as [|i indices'].
  - change (0 <? length [])%nat with false. cbv iota.
    destruct hasUser; eexists; reflexivity.
  - destruct H as [H|H]; [discriminate|].
    change (0 <? length (i :: indices'))%nat with true. cbv iota.
    destruct (lookup_lt_is_Some_2 messages _ H) as [m ->].
    eexists; reflexivity.
Qed.

(** [calculateHealth] returns a report whenever the largest instruction
    index lies inside [messages]. *)
Lemma calculateHealth_returns messages totalTokens indices override :
  (indices = [] \/ (maxIndex indices < length messages)%nat) ->
  is_Some (calculateHealth messages totalTokens indices override).
Proof.
  intros H. unfold calculateHealth.
  destruct (instructionPart_returns messages totalTokens indices
              (existsb isRealUser messages)
              (totalCharsOf messages override) H) as [[p rs] ->].
  destruct (lengthPart totalTokens (totalCharsOf messages override)
              (messageCountOf messages)) as [lp lrs].
  eexists; reflexivity.
Qed.

(** C1, evaluated where the code departs from it: on a page with one user
    instruction, one reply and 97500 visible characters the score before
    rounding is 79.6875, so the report carries health 80 with tier
    [degrading].  The same report comes out of [calculateHealth] called
    directly on the parsed messages. *)
Theorem C1_reported_80_is_degrading :
  (exists r,
      fst (updateHealthBar Samples.initialState Samples.shortPage "" 97500)
      = Some r
      /\ health r = Fin 80 /\ tier r = degrading) /\
  (exists r,
      calculateHealth Samples.shortPageMessages 7 [0%nat] (Some 97500) = Some r
      /\ health r = Fin 80 /\ tier r = degrading) /\
  num_eq (clampedHealth (Fin 0)
            (fst (lengthPart 7 97500 2))
            (detectNoise Samples.shortPageMessages 7))
         (Fin (1275 # 16)).
Proof.
  split; [|split].
  - eexists. split; [vm_compute; reflexivity|]. split; reflexivity.
  - eexists. split; [vm_compute; reflexivity|]. split; reflexivity.
  - vm_compute. reflexivity.
Qed.

(** ** The instruction-distance penalty *)

Lemma ndiv_nonzero (d T : Z) :
  T <> 0 -> ndiv (ofZ d) (ofZ T) = Fin (inject_Z d / inject_Z T).
Proof.
  intros HT. unfold ndiv, ofZ.
  destruct (Qeq_bool (inject_Z T) 0) eqn:E; [|reflexivity].
  apply Qeq_bool_iff in E. unfold Qeq in E. simpl in E. lia.
Qed.

Lemma ratio_gt_half (d T : Z) :
  0 < T -> Qltb (1 # 2) (inject_Z d / inject_Z T) = (T <? 2 * d).
Proof.
  intros HT. destruct T as [|p|p]; try lia.
  unfold Qltb, Qle_bool, Qdiv, Qmult, Qinv, inject_Z. simpl.
  rewrite Pos.mul_1_l.
  destruct (Z.leb_spec (d * 1 * 2) (1 * Z.pos p)),
           (Z.ltb_spec (Z.pos p) (2 * d));
    simpl; try reflexivity; lia.
Qed.

Lemma scaled_ratio (d T k : Z) :
  0 < T -> 80 * (2 * d - T) = 2 * k * T ->
  (((inject_Z d / inject_Z T) - (1 # 2)) * 80 == inject_Z k)%Q.
Proof.
  intros HT H. destruct T as [|p|p]; try lia.
  unfold Qeq, Qdiv, Qmult, Qminus, Qplus, Qopp, Qinv, inject_Z. simpl.
  rewrite Pos.mul_1_l, !Pos2Z.inj_mul. lia.
Qed.

(** With a positive total, step 1 is the grace period up to half of the
    conversation and the ramp [(ratio - 0.5) * 80] beyond it. *)
Lemma instructionPart_positive_total messages T indices hasUser totalChars m :
  0 < T -> (0 < length indices)%nat ->
  messages !! maxIndex indices = Some m ->
  exists rs,
    instructionPart messages T indices hasUser totalChars
    = Some (if T <? 2 * (T - tokenEnd m)
            then Fin ((inject_Z (T - tokenEnd m) / inject_Z T - (1 # 2)) * 80)
            else Fin 0, rs).
Proof.
  intros HT Hlen Hm. unfold instructionPart. eexists.
  apply Nat.ltb_lt in Hlen. rewrite Hlen, Hm.
  rewrite ndiv_nonzero by lia.
  unfold ngtb. rewrite ratio_gt_half by lia.
  destruct (T <? 2 * (T - tokenEnd m)); reflexivity.
Qed.

(** C2 as amended: with a positive total [T], the penalty is 0 when the
    last instruction ends at [0.5 * T], and also when it ends at [0.75 * T]
    or at [T]; it is 20 when the instruction ends at [0.25 * T], and 40 when
    it ends at token 0. *)
Theorem C2_distance_penalty_instances
  messages T indices hasUser totalChars m :
  0 < T -> (0 < length indices)%nat ->
  messages !! maxIndex indices = Some m ->
  exists p rs,
    instructionPart messages T indices hasUser totalChars = Some (p, rs) /\
    (2 * tokenEnd m = T -> p = Fin 0) /\
    (4 * tokenEnd m = 3 * T -> p = Fin 0) /\
    (tokenEnd m = T -> p = Fin 0) /\
    (4 * tokenEnd m = T -> num_eq p (Fin 20)) /\
    (tokenEnd m = 0 -> num_eq p (Fin 40)).
Proof.
  intros HT Hlen Hm.
  destruct (instructionPart_positive_total messages T indices hasUser
              totalChars m HT Hlen Hm) as [rs Hrs].
  eexists _, rs. split; [exact Hrs|].
  repeat split; intros He.
  - destruct (Z.ltb_spec T (2 * (T - tokenEnd m))); [lia|reflexivity].
  - destruct (Z.ltb_spec T (2 * (T - tokenEnd m))); [lia|reflexivity].
  - destruct (Z.ltb_spec T (2 * (T - tokenEnd m))); [lia|reflexivity].
  - destruct (Z.ltb_spec T (2 * (T - tokenEnd m))); [|lia].
    simpl. apply (scaled_ratio _ _ 20); lia.
  - destruct (Z.ltb_spec T (2 * (T - tokenEnd m))); [|lia].
    simpl. apply (scaled_ratio _ _ 40); lia.
Qed.

Lemma C2_distance_penalty_witness :
  exists p rs,
    instructionPart (Samples.loneInstruction 25) 100 [0%nat] true 23
    = Some (p, rs) /\ num_eq p (Fin 20).
Proof.
  destruct (C2_distance_penalty_instances (Samples.loneInstruction 25) 100
              [0%nat] true 23 _ ltac:(lia) ltac:(simpl; lia) eq_refl)
    as (p & rs & H & _ & _ & _ & H20 & _).
  exists p, rs. split; [exact H|]. apply H20. reflexivity.
Defined.

(** C2 as stated fails: with total 100, an instruction ending at token 75
    ([0.75 * T]) has penalty 0, not 20, and one ending at token 100 ([T])
    has penalty 0, not 40. *)
Lemma C2_counterexample :
  instructionPart (Samples.loneInstruction 75) 100 [0%nat] true 23
  = Some (Fin 0, []) /\
  ~ num_eq (Fin 0) (Fin 20) /\
  instructionPart (Samples.loneInstruction 100) 100 [0%nat] true 23
  = Some (Fin 0, []) /\
  ~ num_eq (Fin 0) (Fin 40).
Proof.
  repeat split; try (vm_compute; reflexivity); vm_compute; discriminate.
Qed.

(** ** The length penalty *)

Lemma Qle_bool_false (a b : Q) : Qle_bool a b = false -> (b < a)%Q.
Proof.
  intros H. apply Qnot_le_lt. intros Hle.
  apply Qle_bool_iff in Hle. congruence.
Qed.

Lemma Qltb_lt (a b : Q) : Qltb a b = true <-> (a < b)%Q.
Proof.
  unfold Qltb. split.
  - intros H. apply Qle_bool_false. now apply negb_true_iff.
  - intros H. apply negb_true_iff. destruct (Qle_bool b a) eqn:E; [|reflexivity].
    apply Qle_bool_iff in E. exfalso. exact (Qlt_not_le _ _ H E).
Qed.

Lemma Qmax3_spec (a b c : Q) :
  (a <= Qmax3 a b c)%Q /\ (b <= Qmax3 a b c)%Q /\ (c <= Qmax3 a b c)%Q /\
  (Qmax3 a b c = a \/ Qmax3 a b c = b \/ Qmax3 a b c = c).
Proof.
  unfold Qmax3.
  destruct (Qle_bool a b) eqn:Hab.
  - apply Qle_bool_iff in Hab.
    destruct (Qle_bool b c) eqn:Hbc.
    + apply Qle_bool_iff in Hbc.
      repeat split; eauto using Qle_refl, Qle_trans.
    + apply Qle_bool_false, Qlt_le_weak in Hbc.
      repeat split; eauto using Qle_refl, Qle_trans.
  - apply Qle_bool_false, Qlt_le_weak in Hab.
    destruct (Qle_bool a c) eqn:Hac.
    + apply Qle_bool_iff in Hac.
      repeat split; eauto using Qle_refl, Qle_trans.
    + apply Qle_bool_false, Qlt_le_weak in Hac.
      repeat split; eauto using Qle_refl, Qle_trans.
Qed.

Lemma reason_test_iff (lengthPenalty sub : Q) :
  Qeq_bool lengthPenalty sub && Qltb 0 sub = true
  <-> (lengthPenalty == sub)%Q /\ (0 < sub)%Q.
Proof. rewrite andb_true_iff, Qeq_bool_iff, Qltb_lt. reflexivity. Qed.

Lemma lengthPart_reasons (T C M : Z) :
  let tp := tokenPenaltyOf T in
  let cp := interpolatePenalty CHAR_PENALTY_POINTS C in
  let mp := messagePenaltyOf M in
  let lp := fst (lengthPart T C M) in
  let rs := snd (lengthPart T C M) in
  (LengthTokens T ∈ rs <-> (lp == tp)%Q /\ (0 < tp)%Q) /\
  (LengthChars C ∈ rs <-> (lp == cp)%Q /\ (0 < cp)%Q) /\
  (LengthMessages M ∈ rs <-> (lp == mp)%Q /\ (0 < mp)%Q) /\
  rs `sublist_of` [LengthTokens T; LengthChars C; LengthMessages M].
Proof.
  intros tp cp mp lp rs.
  rewrite <- !reason_test_iff.
  subst rs lp. unfold lengthPart. cbn [fst snd]. fold tp cp mp.
  destruct (Qeq_bool (Qmax3 tp cp mp) tp && Qltb 0 tp),
           (Qeq_bool (Qmax3 tp cp mp) cp && Qltb 0 cp),
           (Qeq_bool (Qmax3 tp cp mp) mp && Qltb 0 mp);
    cbn [app];
    (split; [|split; [|split]]);
    try (repeat constructor; fail);
    rewrite ?elem_of_cons, ?elem_of_nil; intuition congruence.
Qed.

Lemma instructionPart_reasons messages totalTokens indices hasUser totalChars
  p rs :
  instructionPart messages totalTokens indices hasUser totalChars = Some (p, rs) ->
  List.filter isLengthReason rs = [].
Proof.
  unfold instructionPart.
  destruct (0 <? length indices)%nat.
  - destruct (messages !! maxIndex indices) as [m|]; [|discriminate].
    intros [= _ <-]. destruct (_ >? 5000); reflexivity.
  - destruct hasUser; intros [= _ <-]; reflexivity.
Qed.

Lemma lengthPart_reasons_kind (T C M : Z) :
  List.filter isLengthReason (snd (lengthPart T C M)) = snd (lengthPart T C M).
Proof.
  unfold lengthPart. cbn [snd].
  destruct (Qeq_bool _ (tokenPenaltyOf T) && _),
           (Qeq_bool _ (interpolatePenalty CHAR_PENALTY_POINTS C) && _),
           (Qeq_bool _ (messagePenaltyOf M) && _); reflexivity.
Qed.

(** What [calculateHealth] does with step 2: the score subtracts the length
    penalty of [lengthPart], and the length reasons of the report are those
    of [lengthPart], in the same order. *)
Lemma calculateHealth_length messages totalTokens indices override r :
  calculateHealth messages totalTokens indices override = Some r ->
  let totalChars := totalCharsOf messages override in
  let messageCount := messageCountOf messages in
  (exists p rs,
      instructionPart messages totalTokens indices
        (existsb isRealUser messages) totalChars = Some (p, rs)
      /\ health r
         = nround (clampedHealth p
                     (fst (lengthPart totalTokens totalChars messageCount))
                     (detectNoise messages totalTokens)))
  /\ List.filter isLengthReason (reasons r)
     = snd (lengthPart totalTokens totalChars messageCount).
Proof.
  intros H. cbv zeta.
  set (totalChars := totalCharsOf messages override) in *.
  set (messageCount := messageCountOf messages) in *.
  unfold calculateHealth in H. fold totalChars messageCount in H.
  destruct (instructionPart _ _ _ _ _) as [[p rs]|] eqn:Hip; [|discriminate].
  pose proof (lengthPart_reasons_kind totalTokens totalChars messageCount)
    as Hkind.
  destruct (lengthPart totalTokens totalChars messageCount) as [lp lrs].
  injection H as <-. cbn [health reasons fst snd] in *. split.
  - exists p, rs. split; reflexivity.
  - rewrite !List.filter_app, Hkind.
    rewrite (instructionPart_reasons _ _ _ _ _ _ _ Hip).
    destruct (_ >? 0); simpl; now rewrite app_nil_r.
Qed.

(** C3 as amended: the length penalty that [calculateHealth] subtracts is
    the maximum of the token, character and message penalties, never their
    sum; a sub-penalty pushes its reason exactly when it is nonzero and
    equal to that maximum, and the reasons keep the order token, character,
    message.  For a transcript with 16000 tokens, 250000 effective
    characters and 70 non-draft messages the length penalty is 1425/28
    (about 50.9) and the only length reason of the report is the character
    one. *)
Theorem C3_length_penalty_is_max :
  (forall T C M : Z,
      let tp := tokenPenaltyOf T in
      let cp := interpolatePenalty CHAR_PENALTY_POINTS C in
      let mp := messagePenaltyOf M in
      let lp := fst (lengthPart T C M) in
      let rs := snd (lengthPart T C M) in
      ((tp <= lp)%Q /\ (cp <= lp)%Q /\ (mp <= lp)%Q /\
       (lp = tp \/ lp = cp \/ lp = mp)) /\
      (LengthTokens T ∈ rs <-> (lp == tp)%Q /\ (0 < tp)%Q) /\
      (LengthChars C ∈ rs <-> (lp == cp)%Q /\ (0 < cp)%Q) /\
      (LengthMessages M ∈ rs <-> (lp == mp)%Q /\ (0 < mp)%Q) /\
      rs `sublist_of` [LengthTokens T; LengthChars C; LengthMessages M]) /\
  (forall messages totalTokens indices override r,
      calculateHealth messages totalTokens indices override = Some r ->
      let totalChars := totalCharsOf messages override in
      let messageCount := messageCountOf messages in
      (exists p rs,
          instructionPart messages totalTokens indices
            (existsb isRealUser messages) totalChars = Some (p, rs)
          /\ health r
             = nround (clampedHealth p
                         (fst (lengthPart totalTokens totalChars messageCount))
                         (detectNoise messages totalTokens)))
      /\ List.filter isLengthReason (reasons r)
         = snd (lengthPart totalTokens totalChars messageCount)) /\
  (tokenPenaltyOf 16000 == 10)%Q /\
  (messagePenaltyOf 70 == 10)%Q /\
  (fst (lengthPart 16000 250000 70) == 1425 # 28)%Q /\
  snd (lengthPart 16000 250000 70) = [LengthChars 250000] /\
  (forall messages indices override r,
      calculateHealth messages 16000 indices override = Some r ->
      totalCharsOf messages override = 250000 ->
      messageCountOf messages = 70 ->
      List.filter isLengthReason (reasons r) = [LengthChars 250000]).
Proof.
  split; [|split].
  - intros T C M tp cp mp lp rs. split.
    + apply Qmax3_spec.
    + apply lengthPart_reasons.
  - exact calculateHealth_length.
  - repeat split; try reflexivity.
    intros messages indices override r Hr Hchars Hcount.
    destruct (calculateHealth_length _ _ _ _ _ Hr) as [_ Hrs].
    rewrite Hrs, Hchars, Hcount. reflexivity.
Qed.

Lemma C3_length_penalty_witness :
  exists r,
    calculateHealth Samples.seventy 16000 [] (Some 250000) = Some r
    /\ reasons r = [LengthChars 250000]
    /\ List.filter isLengthReason (reasons r) = [LengthChars 250000].
Proof.
  eexists. split; [vm_compute; reflexivity|]. split; [reflexivity|].
  apply (proj2 (proj2 (proj2 (proj2 (proj2 (proj2
           C3_length_penalty_is_max)))))
           Samples.seventy [] (Some 250000)); vm_compute; reflexivity.
Defined.

(** C3 as stated fails in its example: with 16000 tokens, 250000 effective
    characters and 70 messages the length penalty is below 51, more than one
    point away from 52, and the reported health is 49 where a penalty of 52
    would give 48. *)
Lemma C3_counterexample :
  (fst (lengthPart 16000 250000 70) < 51)%Q /\
  (exists r,
      calculateHealth Samples.seventy 16000 [] (Some 250000) = Some r
      /\ health r = Fin 49).
Proof.
  split; [reflexivity|].
  eexists. split; [vm_compute; reflexivity|reflexivity].
Qed.

(** ** Zero total tokens *)

Lemma ndiv_zero (a : Z) : ndiv (ofZ a) (ofZ 0) = inf_of_sign (Z.sgn a).
Proof. reflexivity. Qed.

Lemma noiseScan_bounds (messages : list Message) (a l sum : Z) :
  (forall m, m ∈ messages -> 0 <= tokens m) ->
  0 <= a <= sum ->
  0 <= fst (fold_left noiseStep messages (a, l))
    <= fold_left (fun sum msg => sum + tokens msg) messages sum.
Proof.
  revert a l sum. induction messages as [|msg rest IH]; intros a l sum Hpos Hle.
  - simpl. exact Hle.
  - assert (0 <= tokens msg) by (apply Hpos; left).
    assert (forall m, m ∈ rest -> 0 <= tokens m)
      by (intros m Hm; apply Hpos; right; exact Hm).
    simpl. unfold noiseStep at 2. destruct (role msg); apply IH; auto; lia.
Qed.

Lemma assistantTokens_zero (messages : list Message) :
  (forall m, m ∈ messages -> 0 <= tokens m) ->
  sumTokens messages = 0 -> fst (noiseScan messages) = 0.
Proof.
  intros Hpos Hsum.
  pose proof (noiseScan_bounds messages 0 0 0 Hpos ltac:(lia)) as H.
  unfold sumTokens in Hsum. unfold noiseScan. lia.
Qed.

Lemma detectNoise_zero_total (messages : list Message) :
  fst (noiseScan messages) <= 0 ->
  detectNoise messages 0 = monologuePenalty messages.
Proof.
  intros H. unfold detectNoise, monologuePenalty.
  destruct (noiseScan messages) as [a l]. cbn [fst snd] in *.
  cbv beta iota zeta. rewrite ndiv_zero.
  assert (ngtb (inf_of_sign (Z.sgn a)) (Fin ASSISTANT_DOMINANCE_RATIO) = false)
    as ->.
  { destruct a; try lia; reflexivity. }
  destruct (l >? 0); reflexivity.
Qed.

(** C9: ratios over a zero total are harmless.  Let [totalTokens] be the
    sum of the messages' token counts, none of them negative and no token
    range ending before 0 - as in every transcript that
    [parseConversation] hands over - and let it be 0.  Then no division
    faults: each one yields [NaN] or an infinity.  The test on the
    instruction-distance ratio comes out as it does for ratio 0 and the
    instruction-distance penalty is 0, with no reason pushed; the test on
    the assistant-dominance ratio comes out as it does for ratio 0 and the
    dominance penalty of 15 is not added. *)
Theorem C9_zero_total_tokens
  (messages : list Message) (totalTokens : Z) (indices : list nat)
  (hasUser : bool) (totalChars : Z) :
  (forall m, m ∈ messages -> 0 <= tokens m /\ 0 <= tokenEnd m) ->
  totalTokens = sumTokens messages ->
  totalTokens = 0 ->
  (forall a : Z, ndiv (ofZ a) (ofZ totalTokens) = inf_of_sign (Z.sgn a)) /\
  (forall m,
      (0 < length indices)%nat ->
      messages !! maxIndex indices = Some m ->
      ngtb (ndiv (ofZ (totalTokens - tokenEnd m)) (ofZ totalTokens))
           (Fin (1 # 2))
      = ngtb (Fin 0) (Fin (1 # 2))
      /\ instructionPart messages totalTokens indices hasUser totalChars
         = Some (Fin 0, [])) /\
  ngtb (ndiv (ofZ (fst (noiseScan messages))) (ofZ totalTokens))
       (Fin ASSISTANT_DOMINANCE_RATIO)
  = ngtb (Fin 0) (Fin ASSISTANT_DOMINANCE_RATIO) /\
  detectNoise messages totalTokens = monologuePenalty messages.
Proof.
  intros Hmsg Hsum ->. symmetry in Hsum.
  assert (fst (noiseScan messages) = 0) as Hassistant.
  { apply assistantTokens_zero; [|exact Hsum].
    intros m Hm. apply (Hmsg m Hm). }
  split; [exact ndiv_zero|]. split; [|split].
  - intros m Hlen Hm.
    assert (0 <= tokenEnd m) as He
      by (apply Hmsg; eapply list_elem_of_lookup_2; exact Hm).
    assert (ngtb (ndiv (ofZ (0 - tokenEnd m)) (ofZ 0)) (Fin (1 # 2)) = false)
      as Htest.
    { rewrite ndiv_zero.
      destruct (0 - tokenEnd m) eqn:E; try lia; reflexivity. }
    split; [exact Htest|].
    unfold instructionPart.
    apply Nat.ltb_lt in Hlen. rewrite Hlen, Hm. cbv beta iota zeta.
    rewrite Htest.
    destruct (Z.gtb_spec (0 - tokenEnd m) 5000); [lia|reflexivity].
  - rewrite Hassistant. reflexivity.
  - apply detectNoise_zero_total. lia.
Qed.

Lemma C9_zero_total_tokens_witness :
  instructionPart Samples.tokenless 0 [0%nat] true 25 = Some (Fin 0, []) /\
  detectNoise Samples.tokenless 0 = monologuePenalty Samples.tokenless.
Proof.
  assert (forall m, m ∈ Samples.tokenless -> 0 <= tokens m /\ 0 <= tokenEnd m)
    as Hmsg.
  { intros m Hm. unfold Samples.tokenless in Hm.
    apply elem_of_cons in Hm. destruct Hm as [->|Hm]; [simpl; lia|].
    apply elem_of_cons in Hm. destruct Hm as [->|Hm]; [simpl; lia|].
    inversion Hm. }
  destruct (C9_zero_total_tokens Samples.tokenless 0 [0%nat] true 25
              Hmsg eq_refl eq_refl) as (_ & Hinstr & _ & Hnoise).
  split; [|exact Hnoise].
  apply (Hinstr _ ltac:(simpl; lia) eq_refl).
Defined.

(** ** Instruction detection *)

Lemma detectLoop_acc pins all index rest acc :
  detectLoop pins all index rest acc
  = (acc ++ detectLoop pins all index rest [])%list.
Proof.
  revert index acc. induction rest as [|msg rest IH]; intros index acc.
  - simpl. now rewrite app_nil_r.
  - simpl. rewrite IH.
    rewrite (IH _ (if pushesIndex pins all index msg then _ else _)).
    destruct (pushesIndex pins all index msg); simpl.
    + now rewrite <- app_assoc.
    + reflexivity.
Qed.

Lemma detectLoop_cons pins all index msg rest :
  detectLoop pins all index (msg :: rest) []
  = ((if pushesIndex pins all index msg then [index] else [])
     ++ detectLoop pins all (S index) rest [])%list.
Proof.
  simpl. rewrite detectLoop_acc.
  destruct (pushesIndex pins all index msg); reflexivity.
Qed.

(** The indices pushed by the loop are those of the remaining messages for
    which the callback pushes. *)
Lemma detectLoop_elem pins all index rest k :
  k ∈ detectLoop pins all index rest []
  <-> exists m, (index <= k)%nat /\ rest !! (k - index)%nat = Some m
                /\ pushesIndex pins all k m = true.
Proof.
  revert index. induction rest as [|msg rest IH]; intros index.
  - simpl. split.
    + intros H. inversion H.
    + intros (m & _ & H & _). discriminate.
  - rewrite detectLoop_cons, elem_of_app, IH. split.
    + intros [H|(m & Hle & Hm & Hp)].
      * destruct (pushesIndex pins all index msg) eqn:E.
        -- apply list_elem_of_singleton in H. subst k.
           exists msg. rewrite Nat.sub_diag. auto.
        -- inversion H.
      * exists m. split; [lia|]. split; [|exact Hp].
        replace (k - index)%nat with (S (k - S index)) by lia. exact Hm.
    + intros (m & Hle & Hm & Hp).
      destruct (decide (k = index)) as [->|Hne].
      * left. rewrite Nat.sub_diag in Hm. injection Hm as ->.
        rewrite Hp. now left.
      * right. exists m. split; [lia|]. split; [|exact Hp].
        replace (k - index)%nat with (S (k - S index)) in Hm by lia. exact Hm.
Qed.

Lemma detectLoop_sorted pins all index rest :
  StronglySorted lt (detectLoop pins all index rest []).
Proof.
  revert index. induction rest as [|msg rest IH]; intros index.
  - constructor.
  - rewrite detectLoop_cons.
    destruct (pushesIndex pins all index msg); simpl; [|apply IH].
    constructor; [apply IH|].
    apply Forall_forall. intros k Hk.
    apply detectLoop_elem in Hk.
    destruct Hk as (_ & Hle & _). lia.
Qed.

Lemma detectInstructions_elem st messages k :
  k ∈ detectInstructions st messages
  <-> exists m, messages !! k = Some m
                /\ pushesIndex (pinnedMessageIds st) messages k m = true.
Proof.
  unfold detectInstructions. rewrite detectLoop_elem. split.
  - intros (m & _ & Hm & Hp). rewrite Nat.sub_0_r in Hm. eauto.
  - intros (m & Hm & Hp). exists m. rewrite Nat.sub_0_r.
    split; [lia|]. auto.
Qed.

Lemma pushesIndex_true pins messages k m :
  pushesIndex pins messages k m = true -> role m = user /\ isDraft m = false.
Proof.
  unfold pushesIndex. destruct (role m), (isDraft m); simpl; auto; discriminate.
Qed.

(** C6: a non-draft user message whose id is pinned has its index in the
    result of [detectInstructions], whatever its text and position; every
    index of the result is that of a non-draft user message; and the result
    is in transcript order. *)
Theorem C6_pinned_messages_are_instructions
  (st : State) (messages : list Message) :
  (forall (i : nat) (m : Message),
      messages !! i = Some m ->
      role m = user -> isDraft m = false ->
      msgId m ∈ pinnedMessageIds st ->
      i ∈ detectInstructions st messages) /\
  (forall i : nat,
      i ∈ detectInstructions st messages ->
      exists m, messages !! i = Some m /\ role m = user /\ isDraft m = false) /\
  StronglySorted lt (detectInstructions st messages).
Proof.
  split; [|split].
  - intros i m Hm Hrole Hdraft Hpin.
    apply detectInstructions_elem. exists m. split; [exact Hm|].
    unfold pushesIndex. rewrite Hrole, Hdraft. simpl.
    now rewrite bool_decide_eq_true_2.
  - intros i Hi. apply detectInstructions_elem in Hi.
    destruct Hi as (m & Hm & Hp). exists m. split; [exact Hm|].
    exact (pushesIndex_true _ _ _ _ Hp).
  - apply detectLoop_sorted.
Qed.

Lemma C6_pinned_messages_witness :
  countImperativePhrases "thanks" = 0%nat /\
  hasBulletList "thanks" = false /\
  userMessageIndex Samples.fiveUsers 4 = 5%nat /\
  detectInstructions Samples.initialState Samples.fiveUsers = [] /\
  4%nat ∈ detectInstructions Samples.pinnedLast Samples.fiveUsers.
Proof.
  repeat split; try (vm_compute; reflexivity).
  apply (proj1 (C6_pinned_messages_are_instructions
                  Samples.pinnedLast Samples.fiveUsers)
           4%nat (Samples.plain "u5" user "thanks" 9));
    reflexivity.
Defined.

Lemma autoDetect_noShortDense_eq messages index msg :
  autoDetect messages index msg = autoDetect_noShortDense messages index msg.
Proof.
  unfold autoDetect, autoDetect_noShortDense.
  destruct (MIN_IMPERATIVES <=? countImperativePhrases (text msg))%nat,
           (userMessageIndex messages index <=? EARLY_MESSAGE_COUNT)%nat,
           (hasBulletList (text msg)), (charCount msg <? 800); reflexivity.
Qed.

Lemma detectLoop_noShortDense_eq pins all index rest acc :
  detectLoop pins all index rest acc
  = detectLoop_noShortDense pins all index rest acc.
Proof.
  revert index acc. induction rest as [|msg rest IH]; intros index acc.
  - reflexivity.
  - simpl. rewrite IH. unfold pushesIndex, pushesIndex_noShortDense.
    now rewrite autoDetect_noShortDense_eq.
Qed.

(** C10: the short-and-dense rule never changes the outcome; the detector
    and its variant without that rule return the same list of indices for
    every message list and pin set. *)
Theorem C10_short_dense_rule_is_subsumed
  (st : State) (messages : list Message) :
  detectInstructions st messages = detectInstructions_noShortDense st messages.
Proof. apply detectLoop_noShortDense_eq. Qed.

(** ** The empty transcript *)

Lemma parseLoop_blank index elements acc :
  (forall e, e ∈ elements -> strlen (trim (textContent e)) = 0) ->
  parseLoop index elements acc = acc.
Proof.
  revert index. induction elements as [|e rest IH]; intros index Hblank.
  - reflexivity.
  - simpl. unfold parseElement at 1.
    rewrite (Hblank e) by left. simpl.
    apply IH. intros e' He'. apply Hblank. now right.
Qed.

Lemma parseConversation_blank st elements draftInput visibleChars :
  (forall e, e ∈ elements -> strlen (trim (textContent e)) = 0) ->
  strlen (trim draftInput) = 0 ->
  parseConversation st elements draftInput visibleChars
  = ({| p_messages := []; p_totalTokens := 0;
        p_totalCharsFromMessages := 0; p_visibleChars := visibleChars |},
     withPins st (pinnedMessageIds st), false).
Proof.
  intros Hblank Hdraft. unfold parseConversation.
  rewrite parseLoop_blank by exact Hblank.
  rewrite Hdraft. rewrite andb_false_r. reflexivity.
Qed.

(** Whenever the parser finds no message, the update renders the fixed
    report and never reaches [calculateHealth]. *)
Lemma updateHealthBar_no_messages st elements draftInput visibleChars :
  p_messages (fst (fst (parseConversation st elements draftInput visibleChars)))
  = [] ->
  exists r,
    fst (updateHealthBar st elements draftInput visibleChars) = Some r
    /\ health r = Fin 100 /\ tier r = stable
    /\ hasUserMessages r = false /\ reasons r = [].
Proof.
  intros H. unfold updateHealthBar.
  destruct (parseConversation st elements draftInput visibleChars)
    as [[parsed st'] saved].
  simpl in H. rewrite H. simpl.
  eexists. split; [reflexivity|]. repeat split.
Qed.

(** C5: when every matched element has blank text and the draft is blank,
    the parser yields no message and the update does not fail: it renders
    the report with health 100, tier [stable], [hasUserMessages] false and
    no reasons, whatever the page's visible character count. *)
Theorem C5_empty_transcript_is_stable
  (st : State) (elements : list RawElement) (draftInput : string)
  (visibleChars : Z) :
  (forall e, e ∈ elements -> strlen (trim (textContent e)) = 0) ->
  strlen (trim draftInput) = 0 ->
  p_messages (fst (fst (parseConversation st elements draftInput visibleChars)))
  = [] /\
  exists r,
    fst (updateHealthBar st elements draftInput visibleChars) = Some r
    /\ health r = Fin 100 /\ tier r = stable
    /\ hasUserMessages r = false /\ reasons r = [].
Proof.
  intros Hblank Hdraft.
  assert (p_messages
            (fst (fst (parseConversation st elements draftInput visibleChars)))
          = []) as Hnil
    by (rewrite parseConversation_blank by assumption; reflexivity).
  split; [exact Hnil|].
  apply updateHealthBar_no_messages. exact Hnil.
Qed.

Lemma C5_empty_transcript_witness :
  exists r,
    fst (updateHealthBar Samples.initialState
           [mkRawElement "user-message" "  "] " " 500000) = Some r
    /\ health r = Fin 100 /\ tier r = stable
    /\ hasUserMessages r = false /\ reasons r = [].
Proof.
  apply (C5_empty_transcript_is_stable Samples.initialState
           [mkRawElement "user-message" "  "] " " 500000).
  - intros e He. apply list_elem_of_singleton in He. subst e. reflexivity.
  - reflexivity.
Defined.

(** ** The handoff packet *)

(** C7: the packet is a function of the message list, the pin set and the
    limits of the richness setting alone; two invocations that agree on
    these return the same string, whatever else differs in [state]. *)
Theorem C7_handoff_packet_is_deterministic
  (st1 st2 : State) (messages : list Message) :
  pinnedMessageIds st1 = pinnedMessageIds st2 ->
  getHandoffLimits (settings st1) = getHandoffLimits (settings st2) ->
  buildHandoffPacket st1 messages = buildHandoffPacket st2 messages.
Proof.
  intros Hpins Hlimits. unfold buildHandoffPacket.
  rewrite Hpins, Hlimits. reflexivity.
Qed.

Lemma C7_handoff_packet_witness :
  Samples.compactState <> Samples.compactStateLater /\
  buildHandoffPacket Samples.compactState Samples.eight
  = buildHandoffPacket Samples.compactStateLater Samples.eight.
Proof.
  split; [discriminate|].
  apply C7_handoff_packet_is_deterministic; reflexivity.
Defined.

(** ** The stable insertion sort *)

Section Sorting.

Context {A : Type} (cmp : A -> A -> Z) (le : A -> A -> Prop).
Hypothesis cmp_neg_le : forall x y, cmp x y < 0 -> le x y.
Hypothesis cmp_nonneg_le : forall x y, ~ cmp x y < 0 -> le y x.
Hypothesis le_trans : forall x y z, le x y -> le y z -> le x z.

Lemma insertBy_perm (x : A) (l : list A) : insertBy cmp x l ≡ₚ x :: l.
Proof.
  induction l as [|y l IH]; simpl.
  - reflexivity.
  - destruct (cmp x y <? 0).
    + reflexivity.
    + rewrite IH. apply perm_swap.
Qed.

Lemma insertBy_sorted (x : A) (l : list A) :
  StronglySorted le l -> StronglySorted le (insertBy cmp x l).
Proof.
  induction 1 as [|y l Hsorted IH Hall]; simpl.
  - repeat constructor.
  - destruct (Z.ltb_spec (cmp x y) 0) as [Hlt|Hge].
    + constructor; [constructor; assumption|].
      constructor; [auto|].
      eapply Forall_impl; [exact Hall|]. intros z Hz. eauto.
    + constructor; [exact IH|].
      rewrite insertBy_perm. constructor; [|exact Hall].
      apply cmp_nonneg_le. lia.
Qed.

Lemma sortBy_acc_perm (l acc : list A) :
  fold_left (fun acc x => insertBy cmp x acc) l acc ≡ₚ (acc ++ l)%list.
Proof.
  revert acc. induction l as [|x l IH]; intros acc; simpl.
  - now rewrite app_nil_r.
  - rewrite IH, insertBy_perm. simpl. apply Permutation_middle.
Qed.

Lemma sortBy_acc_sorted (l acc : list A) :
  StronglySorted le acc ->
  StronglySorted le (fold_left (fun acc x => insertBy cmp x acc) l acc).
Proof.
  revert acc. induction l as [|x l IH]; intros acc Hacc; simpl.
  - exact Hacc.
  - apply IH, insertBy_sorted, Hacc.
Qed.

Lemma sortBy_perm (l : list A) : sortBy cmp l ≡ₚ l.
Proof. unfold sortBy. now rewrite sortBy_acc_perm. Qed.

Lemma sortBy_sorted (l : list A) : StronglySorted le (sortBy cmp l).
Proof. apply sortBy_acc_sorted. constructor. Qed.

End Sorting.

Lemma relIndex_zero (len : Z) : 0 <= len -> relIndex len 0 = 0.
Proof. intros H. unfold relIndex. simpl. lia. Qed.

(** [l.slice(0, maxCount)] is a prefix of [l]. *)
Lemma slice_prefix {A : Type} (l : list A) (maxCount : Z) :
  exists n, slice l 0 maxCount = firstn n l
            /\ (0 <= maxCount -> Z.of_nat n <= maxCount).
Proof.
  unfold slice. rewrite relIndex_zero by lia.
  exists (Z.to_nat (relIndex (Z.of_nat (length l)) maxCount - 0)).
  split; [reflexivity|].
  intros Hpos. unfold relIndex. destruct (Z.ltb_spec maxCount 0); lia.
Qed.

(** ** The salience selection *)

Lemma compareScored_neg (x y : Scored) :
  compareScored x y < 0 -> ranksNotAfter x y.
Proof.
  unfold compareScored, ranksNotAfter.
  destruct (Z.eqb_spec (s_score y) (s_score x)); simpl; lia.
Qed.

Lemma compareScored_nonneg (x y : Scored) :
  ~ compareScored x y < 0 -> ranksNotAfter y x.
Proof.
  unfold compareScored, ranksNotAfter.
  destruct (Z.eqb_spec (s_score y) (s_score x)); simpl; lia.
Qed.

Lemma ranksNotAfter_trans (x y z : Scored) :
  ranksNotAfter x y -> ranksNotAfter y z -> ranksNotAfter x z.
Proof. unfold ranksNotAfter. lia. Qed.

Lemma ranksBefore_strict (l : list Scored) :
  StronglySorted ranksNotAfter l -> NoDup (map s_index l) ->
  StronglySorted ranksBefore l.
Proof.
  induction 1 as [|a l Hsorted IH Hall]; intros Hnd; [constructor|].
  simpl in Hnd. apply NoDup_cons in Hnd. destruct Hnd as [Hnotin Hnd].
  constructor; [auto|].
  apply Forall_forall. intros z Hz.
  rewrite Forall_forall in Hall. specialize (Hall z Hz).
  assert (s_index a <> s_index z) as Hne.
  { intros Heq. apply Hnotin. apply list_elem_of_In, in_map_iff. exists z.
    split; [auto|]. now apply list_elem_of_In. }
  unfold ranksNotAfter in Hall. unfold ranksBefore. lia.
Qed.

Lemma scoreLoop_acc ex index rest acc :
  scoreLoop ex index rest acc = (acc ++ scoreLoop ex index rest [])%list.
Proof.
  revert index acc. induction rest as [|msg rest IH]; intros index acc.
  - simpl. now rewrite app_nil_r.
  - simpl. rewrite IH.
    rewrite (IH _ (if bool_decide _ then _ else _)).
    destruct (bool_decide (msgId msg ∈ ex)); simpl; [reflexivity|].
    destruct (scoreSalience msg <=? 0); simpl; [reflexivity|].
    now rewrite <- app_assoc.
Qed.

Lemma scoreLoop_cons ex index msg rest :
  scoreLoop ex index (msg :: rest) []
  = ((if bool_decide (msgId msg ∈ ex) then []
      else if scoreSalience msg <=? 0 then []
           else [mkScored msg (scoreSalience msg) index])
     ++ scoreLoop ex (S index) rest [])%list.
Proof.
  simpl. rewrite scoreLoop_acc.
  destruct (bool_decide (msgId msg ∈ ex)); [reflexivity|].
  destruct (scoreSalience msg <=? 0); reflexivity.
Qed.

(** The candidates are the messages whose id is not excluded and whose
    score is positive, each with its score and its position. *)
Lemma scoreLoop_elem ex index rest s :
  s ∈ scoreLoop ex index rest []
  <-> (index <= s_index s)%nat
      /\ rest !! (s_index s - index)%nat = Some (s_msg s)
      /\ s_score s = scoreSalience (s_msg s)
      /\ 0 < s_score s
      /\ msgId (s_msg s) ∉ ex.
Proof.
  revert index. induction rest as [|msg rest IH]; intros index.
  - simpl. split.
    + intros H. inversion H.
    + intros (_ & H & _). discriminate.
  - rewrite scoreLoop_cons, elem_of_app, IH. split.
    + intros [H|(Hle & Hm & Hs & Hpos & Hex)].
      * destruct (bool_decide_reflect (msgId msg ∈ ex)) as [|Hnot];
          [inversion H|].
        destruct (Z.leb_spec (scoreSalience msg) 0); [inversion H|].
        apply list_elem_of_singleton in H. subst s. simpl.
        rewrite Nat.sub_diag. auto.
      * split; [lia|]. split; [|auto].
        replace (s_index s - index)%nat with (S (s_index s - S index)) by lia.
        exact Hm.
    + intros (Hle & Hm & Hs & Hpos & Hex).
      destruct (decide (s_index s = index)) as [Heq|Hne].
      * left. rewrite Heq, Nat.sub_diag in Hm. simpl in Hm.
        injection Hm as Hm. subst msg.
        rewrite bool_decide_eq_false_2 by exact Hex.
        destruct (Z.leb_spec (scoreSalience (s_msg s)) 0); [lia|].
        destruct s as [m sc ix]. simpl in *. subst. now left.
      * right. split; [lia|]. split; [|auto].
        replace (s_index s - index)%nat with (S (s_index s - S index))
          in Hm by lia.
        exact Hm.
Qed.

Lemma scoreLoop_NoDup ex index rest :
  NoDup (map s_index (scoreLoop ex index rest [])).
Proof.
  revert index. induction rest as [|msg rest IH]; intros index.
  - constructor.
  - rewrite scoreLoop_cons, map_app.
    assert (index ∉ map s_index (scoreLoop ex (S index) rest [])) as Hnotin.
    { intros Hin. apply list_elem_of_In, in_map_iff in Hin.
      destruct Hin as (s & Hs & Hin).
      apply list_elem_of_In, scoreLoop_elem in Hin. lia. }
    destruct (bool_decide (msgId msg ∈ ex)); [apply IH|].
    destruct (scoreSalience msg <=? 0); [apply IH|].
    simpl. constructor; [exact Hnotin|apply IH].
Qed.

(** The selection is a prefix of the candidates put in rank order: what is
    selected and what is left out make up the candidates, every entry
    ranks before all that follow it, and a non-negative [maxCount] bounds
    the number selected. *)
Lemma selectSalient_spec (messages : list Message) (ex : gset string)
  (maxCount : Z) :
  exists rest,
    (selectSalient messages ex maxCount ++ rest)%list
      ≡ₚ scoreLoop ex 0 messages [] /\
    StronglySorted ranksBefore
      (selectSalient messages ex maxCount ++ rest)%list /\
    (0 <= maxCount ->
     Z.of_nat (length (selectSalient messages ex maxCount)) <= maxCount).
Proof.
  unfold selectSalient.
  destruct (slice_prefix (sortBy compareScored (scoreLoop ex 0 messages []))
              maxCount) as (n & -> & Hn).
  exists (skipn n (sortBy compareScored (scoreLoop ex 0 messages []))).
  rewrite firstn_skipn. split; [|split].
  - apply sortBy_perm.
  - apply ranksBefore_strict.
    + apply sortBy_sorted;
        eauto using compareScored_neg, compareScored_nonneg,
                    ranksNotAfter_trans.
    + rewrite (Permutation_map s_index (sortBy_perm compareScored _)).
      apply scoreLoop_NoDup.
  - intros Hpos. specialize (Hn Hpos).
    pose proof (firstn_le_length n
                  (sortBy compareScored (scoreLoop ex 0 messages []))).
    lia.
Qed.

Lemma StronglySorted_lookup_lt {A : Type} (R : A -> A -> Prop) (l : list A)
  (i j : nat) (a b : A) :
  StronglySorted R l -> l !! i = Some a -> l !! j = Some b -> (i < j)%nat ->
  R a b.
Proof.
  intros Hsorted. revert i j.
  induction Hsorted as [|x l Hsorted IH Hall]; intros i j Hi Hj Hlt.
  - discriminate.
  - destruct j as [|j]; [lia|]. simpl in Hj.
    destruct i as [|i].
    + simpl in Hi. injection Hi as ->.
      rewrite Forall_forall in Hall. apply Hall.
      eapply list_elem_of_lookup_2. exact Hj.
    + simpl in Hi. apply (IH i j); auto; lia.
Qed.

Lemma maxSalience_nonneg (settings : option Settings) :
  0 <= maxSalience (getHandoffLimits settings).
Proof.
  unfold getHandoffLimits.
  destruct (String.eqb _ "compact"); [simpl; lia|].
  destruct (String.eqb _ "standard"); simpl; [lia|].
  unfold HANDOFF_MAX_SALIENCE. lia.
Qed.

(** C8: the "Key highlights" of the handoff are the messages of
    [handoffSalient].  Each of them is a non-draft message that lies outside
    the recent window and has a positive salience score; they are in
    descending order of score, and entries of equal score are in ascending
    transcript position; together with the candidates left out they are the
    candidates in rank order, so nothing left out ranks before a selected
    entry; and at most [maxSalience] are selected. *)
Theorem C8_salience_selection (st : State) (messages : list Message) :
  let full := fullMessagesOf messages in
  let limits := getHandoffLimits (settings st) in
  let sel := handoffSalient st messages in
  getSalientMessages full (recentIdsOf st messages) (maxSalience limits)
  = map s_msg sel /\
  (forall s, s ∈ sel ->
             full !! s_index s = Some (s_msg s)
             /\ s_score s = scoreSalience (s_msg s)
             /\ 0 < s_score s
             /\ s_msg s ∉ recentMessagesOf st messages) /\
  (forall (i j : nat) (a b : Scored),
      sel !! i = Some a -> sel !! j = Some b -> (i < j)%nat ->
      s_score b <= s_score a
      /\ (s_score a = s_score b -> (s_index a < s_index b)%nat)) /\
  (exists rest,
      (sel ++ rest)%list ≡ₚ scoreLoop (recentIdsOf st messages) 0 full [] /\
      StronglySorted ranksBefore (sel ++ rest)%list) /\
  Z.of_nat (length sel) <= maxSalience limits.
Proof.
  intros full limits sel.
  destruct (selectSalient_spec full (recentIdsOf st messages)
              (maxSalience limits)) as (rest & Hperm & Hsorted & Hlen).
  fold (handoffSalient st messages) in Hperm, Hsorted, Hlen.
  fold sel in Hperm, Hsorted, Hlen.
  split; [reflexivity|]. split; [|split; [|split]].
  - intros s Hs.
    assert (s ∈ scoreLoop (recentIdsOf st messages) 0 full []) as Hcand.
    { rewrite <- Hperm. apply elem_of_app. now left. }
    apply scoreLoop_elem in Hcand.
    destruct Hcand as (_ & Hm & Hscore & Hpos & Hex).
    rewrite Nat.sub_0_r in Hm. repeat split; auto.
    intros Hin. apply Hex. unfold recentIdsOf.
    apply elem_of_list_to_set, list_elem_of_In, in_map.
    now apply list_elem_of_In.
  - intros i j a b Hi Hj Hlt.
    assert (ranksBefore a b) as Hab.
    { apply (StronglySorted_lookup_lt ranksBefore sel i j); auto.
      eapply StronglySorted_app_1_l. exact Hsorted. }
    unfold ranksBefore in Hab. lia.
  - exists rest. split; assumption.
  - apply Hlen, maxSalience_nonneg.
Qed.

Lemma C8_salience_selection_witness :
  let a := mkScored (Samples.plain "a1" assistant "this is important" 5) 2 0 in
  let b := mkScored (Samples.plain "a2" assistant "you should know" 9) 2 1 in
  handoffSalient Samples.compactState Samples.eight = [a; b] /\
  s_score b <= s_score a /\
  (s_score a = s_score b -> (s_index a < s_index b)%nat).
Proof.
  intros a b. split; [vm_compute; reflexivity|].
  destruct (C8_salience_selection Samples.compactState Samples.eight)
    as (_ & _ & Horder & _).
  apply (Horder 0%nat 1%nat a b);
    [vm_compute; reflexivity|vm_compute; reflexivity|lia].
Defined.

(* ===================================================================== *)
(** * Further properties of the code *)
(* ===================================================================== *)

(** ** Ranges of the penalties and of the score *)

Lemma calculateHealth_range_witness :
  exists q : Q,
    (0 <= q)%Q /\ (q <= 100)%Q /\
    Fin 80 = ofZ (Qfloor (q + (1 # 2))) /\
    0 <= Qfloor (q + (1 # 2)) <= 100 /\
    degrading = tierOf (Fin q).
Proof.
  exact (calculateHealth_range Samples.shortPageMessages 7 [0%nat]
           (Some 97500) _ eq_refl).
Defined.

Lemma noiseScan_users_only (messages : list Message) (acc : Z * Z) :
  (forall m, m ∈ messages -> role m = user) ->
  fold_left noiseStep messages acc = acc.
Proof.
  revert acc. induction messages as [|m rest IH]; intros acc H.
  - reflexivity.
  - simpl. unfold noiseStep at 2. destruct acc as [a l].
    rewrite (H m) by left. apply IH. intros m' Hm'. apply H. now right.
Qed.

(** [detectNoise] returns 0, 10, 15 or 25: the monologue penalty is a flag,
    not a count, and the two penalties add up.  When no message is from the
    assistant it returns 0, whatever [totalTokens] is. *)
Theorem detectNoise_values (messages : list Message) (totalTokens : Z) :
  (detectNoise messages totalTokens = 0 \/
   detectNoise messages totalTokens = 10 \/
   detectNoise messages totalTokens = 15 \/
   detectNoise messages totalTokens = 25) /\
  ((forall m, m ∈ messages -> role m = user) ->
   detectNoise messages totalTokens = 0).
Proof.
  split.
  - unfold detectNoise. destruct (noiseScan messages) as [a l].
    cbv beta iota zeta.
    destruct (l >? 0), (ngtb _ _); simpl; auto.
  - intros H. unfold detectNoise, noiseScan.
    rewrite noiseScan_users_only by exact H.
    cbv beta iota zeta. simpl (0 >? 0).
    assert (ngtb (ndiv (ofZ 0) (ofZ totalTokens))
                 (Fin ASSISTANT_DOMINANCE_RATIO) = false) as ->.
    { unfold ndiv, ofZ. destruct (Qeq_bool (inject_Z totalTokens) 0) eqn:E.
      - reflexivity.
      - unfold ngtb, Qltb. apply negb_false_iff, Qle_bool_iff.
        destruct totalTokens; vm_compute; congruence. }
    reflexivity.
Qed.

Lemma detectNoise_values_witness :
  detectNoise Samples.fiveUsers 9 = 0.
Proof.
  apply (proj2 (detectNoise_values Samples.fiveUsers 9)).
  intros m Hm. unfold Samples.fiveUsers in Hm.
  repeat (apply elem_of_cons in Hm; destruct Hm as [->|Hm]; [reflexivity|]).
  inversion Hm.
Defined.

Lemma interpolate_char_closed (value : Z) :
  (interpolatePenalty CHAR_PENALTY_POINTS value
   == charPenaltyNumerator value # 33600)%Q.
Proof.
  unfold interpolatePenalty, CHAR_PENALTY_POINTS, charPenaltyNumerator.
  cbn [chars penalty interpolateFrom].
  destruct (Z.leb_spec value 0); [reflexivity|].
  destruct (Z.leb_spec value 120000).
  - destruct (Z.leb_spec value 240000); [|lia].
    unfold Qeq, Qdiv, Qmult, Qminus, Qplus, Qopp, Qinv, inject_Z. simpl. lia.
  - destruct (Z.leb_spec value 240000).
    + unfold Qeq, Qdiv, Qmult, Qminus, Qplus, Qopp, Qinv, inject_Z. simpl. lia.
    + destruct (Z.leb_spec value 800000); [|reflexivity].
      unfold Qeq, Qdiv, Qmult, Qminus, Qplus, Qopp, Qinv, inject_Z. simpl. lia.
Qed.

Lemma charPenaltyNumerator_mono (v1 v2 : Z) :
  v1 <= v2 -> charPenaltyNumerator v1 <= charPenaltyNumerator v2.
Proof.
  intros H. unfold charPenaltyNumerator.
  destruct (Z.leb_spec v1 0), (Z.leb_spec v1 240000), (Z.leb_spec v1 800000),
           (Z.leb_spec v2 0), (Z.leb_spec v2 240000), (Z.leb_spec v2 800000);
    lia.
Qed.

Lemma charPenaltyNumerator_range (v : Z) :
  0 <= charPenaltyNumerator v <= 3360000.
Proof.
  unfold charPenaltyNumerator.
  destruct (Z.leb_spec v 0), (Z.leb_spec v 240000), (Z.leb_spec v 800000);
    lia.
Qed.

(** The character penalty never decreases when the character count grows,
    and it stays between 0 and 100 for every count, negative ones
    included. *)
Theorem char_penalty_monotone_and_bounded :
  (forall v1 v2 : Z,
      v1 <= v2 ->
      (interpolatePenalty CHAR_PENALTY_POINTS v1
       <= interpolatePenalty CHAR_PENALTY_POINTS v2)%Q) /\
  (forall v : Z,
      (0 <= interpolatePenalty CHAR_PENALTY_POINTS v)%Q /\
      (interpolatePenalty CHAR_PENALTY_POINTS v <= 100)%Q).
Proof.
  split.
  - intros v1 v2 H. rewrite !interpolate_char_closed.
    pose proof (charPenaltyNumerator_mono v1 v2 H).
    unfold Qle. simpl. lia.
  - intros v. rewrite !interpolate_char_closed.
    pose proof (charPenaltyNumerator_range v).
    unfold Qle. simpl. lia.
Qed.

Lemma char_penalty_monotone_witness :
  (interpolatePenalty CHAR_PENALTY_POINTS 97500
   <= interpolatePenalty CHAR_PENALTY_POINTS 250000)%Q.
Proof.
  apply (proj1 char_penalty_monotone_and_bounded). lia.
Defined.

Lemma penalty_ramp_range (d T : Z) :
  0 < T -> 0 <= d <= T -> T < 2 * d ->
  (0 <= (inject_Z d / inject_Z T - (1 # 2)) * 80)%Q /\
  ((inject_Z d / inject_Z T - (1 # 2)) * 80 <= 40)%Q.
Proof.
  intros HT Hd Hhalf. destruct T as [|p|p]; try lia.
  unfold Qle, Qdiv, Qmult, Qminus, Qplus, Qopp, Qinv, inject_Z. simpl.
  rewrite Pos.mul_1_l, !Pos2Z.inj_mul. lia.
Qed.

Lemma no_instruction_ramp_range (totalChars : Z) :
  0 <= totalChars ->
  exists q,
    nmin (Fin 30) (nmul (ndiv (ofZ totalChars) (Fin 120000)) (Fin 30)) = Fin q
    /\ (0 <= q)%Q /\ (q <= 30)%Q.
Proof.
  intros H. unfold ndiv, ofZ. change (Qeq_bool 120000 0) with false.
  cbv iota. unfold nmul, nmin, ngeb.
  destruct (Qle_bool 30 (inject_Z totalChars / 120000 * 30)) eqn:E.
  - exists 30%Q. repeat split; discriminate.
  - eexists. split; [reflexivity|]. split.
    + unfold Qle, Qdiv, Qmult, Qinv, inject_Z. simpl. lia.
    + apply Qlt_le_weak, Qle_bool_false. exact E.
Qed.

Lemma instructionPart_bounded
  (messages : list Message) (T : Z) (indices : list nat) (hasUser : bool)
  (totalChars : Z) :
  0 < T -> 0 <= totalChars ->
  ((0 < length indices)%nat ->
   exists m, messages !! maxIndex indices = Some m /\ 0 <= tokenEnd m <= T) ->
  exists q rs,
    instructionPart messages T indices hasUser totalChars = Some (Fin q, rs)
    /\ (0 <= q)%Q /\ (q <= 40)%Q
    /\ (indices = [] -> (q <= 30)%Q).
Proof.
  intros HT Hchars Hlast.
  destruct indices as [|i indices'].
  - unfold instructionPart. change (0 <? length [])%nat with false. cbv iota.
    destruct hasUser.
    + destruct (no_instruction_ramp_range totalChars Hchars)
        as (q & -> & Hlo & Hhi).
      exists q, [NoCoreInstructions]. repeat split; auto.
      apply Qle_trans with 30%Q; [exact Hhi|discriminate].
    + exists 0%Q, []. repeat split; discriminate.
  - destruct (Hlast ltac:(simpl; lia)) as (m & Hm & He).
    destruct (instructionPart_positive_total messages T (i :: indices')
                hasUser totalChars m HT ltac:(simpl; lia) Hm) as [rs ->].
    destruct (Z.ltb_spec T (2 * (T - tokenEnd m))) as [Hhalf|Hhalf].
    + destruct (penalty_ramp_range (T - tokenEnd m) T HT ltac:(lia) Hhalf).
      eexists _, rs. repeat split; auto. discriminate.
    + exists 0%Q, rs. repeat split; discriminate.
Qed.

(** On a conversation with a positive total in which the last instruction
    ends inside it ([0 <= tokenEnd <= totalTokens]), and with a
    non-negative character count, the instruction penalty is a rational
    between 0 and 40: the "0-40 points" of the source comment for the
    distance ramp, and at most 30 when no instruction was detected. *)
Theorem instruction_penalty_range
  (messages : list Message) (T : Z) (indices : list nat) (hasUser : bool)
  (totalChars : Z) :
  0 < T -> 0 <= totalChars ->
  ((0 < length indices)%nat ->
   exists m, messages !! maxIndex indices = Some m /\ 0 <= tokenEnd m <= T) ->
  exists q rs,
    instructionPart messages T indices hasUser totalChars = Some (Fin q, rs)
    /\ (0 <= q)%Q /\ (q <= 40)%Q
    /\ (indices = [] -> (q <= 30)%Q).
Proof. apply instructionPart_bounded. Qed.

Lemma instruction_penalty_range_witness :
  exists q rs,
    instructionPart (Samples.loneInstruction 25) 100 [0%nat] true 23
    = Some (Fin q, rs)
    /\ (0 <= q)%Q /\ (q <= 40)%Q.
Proof.
  destruct (instruction_penalty_range (Samples.loneInstruction 25) 100
              [0%nat] true 23 ltac:(lia) ltac:(lia))
    as (q & rs & H & Hlo & Hhi & _).
  - intros _. eexists. split; [reflexivity|]. simpl. lia.
  - exists q, rs. auto.
Defined.

(** ** Instruction detection and the update *)

(** Pinning can only add instructions: with a larger pin set every index
    that was detected is still detected. *)
Theorem detectInstructions_monotone_in_pins
  (st1 st2 : State) (messages : list Message) (k : nat) :
  pinnedMessageIds st1 ⊆ pinnedMessageIds st2 ->
  k ∈ detectInstructions st1 messages ->
  k ∈ detectInstructions st2 messages.
Proof.
  intros Hsub Hk. apply detectInstructions_elem in Hk.
  destruct Hk as (m & Hm & Hp).
  apply detectInstructions_elem. exists m. split; [exact Hm|].
  unfold pushesIndex in *.
  destruct (negb (Role_eqb (role m) user)); [discriminate|].
  destruct (isDraft m); [discriminate|].
  destruct (bool_decide_reflect (msgId m ∈ pinnedMessageIds st1)) as [Hin|_].
  - rewrite bool_decide_eq_true_2; [reflexivity|]. apply Hsub, Hin.
  - rewrite Hp. destruct (bool_decide _); reflexivity.
Qed.

Lemma detectInstructions_monotone_witness :
  4%nat ∈ detectInstructions
            (withPins Samples.initialState {[ "u5"; "u1" ]}) Samples.fiveUsers.
Proof.
  apply (detectInstructions_monotone_in_pins Samples.pinnedLast).
  - unfold Samples.pinnedLast, withPins. simpl. set_solver.
  - apply detectInstructions_elem.
    exists (Samples.plain "u5" user "thanks" 9).
    split; [reflexivity|vm_compute; reflexivity].
Defined.

Lemma maxIndex_lt (indices : list nat) (n : nat) :
  indices <> [] -> (forall k, k ∈ indices -> (k < n)%nat) ->
  (maxIndex indices < n)%nat.
Proof.
  induction indices as [|i rest IH]; intros Hne Hall; [congruence|].
  assert (i < n)%nat by (apply Hall; left).
  destruct rest as [|j rest'].
  - simpl. lia.
  - assert (maxIndex (j :: rest') < n)%nat.
    { apply IH; [discriminate|]. intros k Hk. apply Hall. now right. }
    change (maxIndex (i :: j :: rest'))
      with (Nat.max i (maxIndex (j :: rest'))). lia.
Qed.

(** The instruction indices that [detectInstructions] returns always fit
    [calculateHealth]: on them it returns a report and never raises the
    [TypeError] of a missing message. *)
Lemma calculateHealth_on_detected st messages totalTokens override :
  is_Some (calculateHealth messages totalTokens
             (detectInstructions st messages) override).
Proof.
  apply calculateHealth_returns.
  destruct (detectInstructions st messages) as [|i rest] eqn:E; [now left|].
  right. rewrite <- E. apply maxIndex_lt; [rewrite E; discriminate|].
  intros k Hk. apply detectInstructions_elem in Hk.
  destruct Hk as (m & Hm & _). eapply lookup_lt_Some. exact Hm.
Qed.

(** [updateHealthBar] renders a report on every page: on no input does the
    scoring raise an exception. *)
Theorem updateHealthBar_always_renders
  (st : State) (elements : list RawElement) (draftInput : string)
  (visibleChars : Z) :
  is_Some (fst (updateHealthBar st elements draftInput visibleChars)).
Proof.
  unfold updateHealthBar.
  destruct (parseConversation st elements draftInput visibleChars)
    as [[parsed st'] saved].
  destruct (length (p_messages parsed) =? 0)%nat; [eexists; reflexivity|].
  destruct (calculateHealth_on_detected
              (withMessages st' (p_messages parsed)) (p_messages parsed)
              (p_totalTokens parsed)
              (Some (Z.max (p_totalCharsFromMessages parsed)
                           (p_visibleChars parsed)))) as [r ->].
  eexists; reflexivity.
Qed.

(** ** The parser *)

Lemma fold_sum_init {A : Type} (f : A -> Z) (l : list A) (a : Z) :
  fold_left (fun sum x => sum + f x) l a
  = a + fold_left (fun sum x => sum + f x) l 0.
Proof.
  revert a. induction l as [|x l IH]; intros a; simpl; [lia|].
  rewrite IH, (IH (0 + f x)). lia.
Qed.

Lemma sumTokens_cons m l : sumTokens (m :: l) = tokens m + sumTokens l.
Proof. unfold sumTokens. simpl. rewrite fold_sum_init. lia. Qed.

Lemma sumTokens_snoc l m : sumTokens (l ++ [m]) = sumTokens l + tokens m.
Proof. unfold sumTokens. now rewrite fold_left_app. Qed.

Lemma sumChars_snoc l m : sumChars (l ++ [m]) = sumChars l + charCount m.
Proof. unfold sumChars. now rewrite fold_left_app. Qed.

Lemma contiguousFrom_snoc start l m :
  contiguousFrom start l ->
  tokenStart m = start + sumTokens l ->
  tokenEnd m = tokenStart m + tokens m ->
  contiguousFrom start (l ++ [m]).
Proof.
  revert start. induction l as [|x l IH]; intros start Hl Hs He.
  - simpl in *. unfold sumTokens in Hs. simpl in Hs. repeat split; lia.
  - destruct Hl as (Hx1 & Hx2 & Hl). simpl. repeat split; auto.
    apply IH; auto. rewrite sumTokens_cons in Hs. lia.
Qed.

(** Every range of a contiguous sequence ends inside the sequence. *)
Lemma contiguousFrom_bounds start l m :
  contiguousFrom start l -> Forall countedFromText l -> m ∈ l ->
  start + 1 <= tokenEnd m <= start + sumTokens l.
Proof.
  revert start. induction l as [|x l IH]; intros start Hl Hc Hm.
  - inversion Hm.
  - destruct Hl as (Hx1 & Hx2 & Hl).
    apply Forall_cons in Hc. destruct Hc as [(_ & _ & Hx) Hc].
    rewrite sumTokens_cons.
    assert (0 <= sumTokens l) as Hpos.
    { clear -Hc. induction Hc as [|y l (_ & _ & Hy) _ IH'].
      - unfold sumTokens. simpl. lia.
      - rewrite sumTokens_cons. lia. }
    apply elem_of_cons in Hm. destruct Hm as [->|Hm].
    + lia.
    + specialize (IH _ Hl Hc Hm). lia.
Qed.

Lemma nonempty_text_length (s : string) :
  strlen (trim s) <> 0 -> 1 <= strlen s.
Proof.
  destruct s as [|c r]; [intros H; exfalso; apply H; reflexivity|].
  intros _. unfold strlen. simpl. lia.
Qed.

Lemma ceilDiv_pos (a : Z) : 1 <= a -> 1 <= ceilDiv a CHARS_PER_TOKEN.
Proof.
  intros H. unfold ceilDiv, CHARS_PER_TOKEN.
  pose proof (Z.div_mod (- a) 4 ltac:(lia)).
  pose proof (Z.mod_pos_bound (- a) 4 ltac:(lia)). lia.
Qed.

Lemma parseElement_inv acc index element :
  ParseInv acc -> ParseInv (parseElement acc index element).
Proof.
  intros (Hcont & Hcum & Hcount & Hdraft & Hchars). unfold parseElement.
  destruct (Z.eqb_spec (strlen (trim (textContent element))) 0) as [|Hne].
  - repeat split; assumption.
  - pose proof (nonempty_text_length _ Hne) as Hlen.
    pose proof (ceilDiv_pos _ Hlen) as Htok.
    unfold ParseInv. cbn [pa_messages pa_cumulativeTokens
                          pa_totalCharsFromMessages].
    rewrite sumTokens_snoc, sumChars_snoc. cbn [tokens charCount].
    split; [|split; [|split; [|split]]].
    + apply contiguousFrom_snoc; auto.
    + lia.
    + apply Forall_app. split; [exact Hcount|].
      constructor; [|constructor]. repeat split; auto.
    + apply Forall_app. split; [exact Hdraft|].
      constructor; [reflexivity|constructor].
    + lia.
Qed.

Lemma parseLoop_inv index elements acc :
  ParseInv acc -> ParseInv (parseLoop index elements acc).
Proof.
  revert index acc. induction elements as [|e rest IH]; intros index acc H.
  - exact H.
  - simpl. apply IH, parseElement_inv, H.
Qed.

Lemma sumTokens_nonneg l : Forall countedFromText l -> 0 <= sumTokens l.
Proof.
  induction 1 as [|y l (_ & _ & Hy) _ IH].
  - unfold sumTokens. simpl. lia.
  - rewrite sumTokens_cons. lia.
Qed.

Lemma fullMessagesOf_snoc_draft l m :
  Forall (fun m => isDraft m = false) l -> isDraft m = true ->
  fullMessagesOf (l ++ [m]) = l.
Proof.
  intros Hl Hm. unfold fullMessagesOf.
  rewrite List.filter_app. simpl. rewrite Hm. simpl. rewrite app_nil_r.
  induction Hl as [|x l Hx _ IH]; [reflexivity|].
  simpl. rewrite Hx. simpl. now rewrite IH.
Qed.

Lemma fullMessagesOf_no_draft l :
  Forall (fun m => isDraft m = false) l -> fullMessagesOf l = l.
Proof.
  intros Hl. unfold fullMessagesOf.
  induction Hl as [|x l Hx _ IH]; [reflexivity|].
  simpl. rewrite Hx. simpl. now rewrite IH.
Qed.

Lemma parseConversation_inv
  (st : State) (elements : list RawElement) (draftInput : string)
  (visibleChars : Z) :
  let parsed :=
    fst (fst (parseConversation st elements draftInput visibleChars)) in
  let msgs := p_messages parsed in
  contiguousFrom 0 msgs /\
  p_totalTokens parsed = sumTokens msgs /\
  Forall countedFromText msgs /\
  (forall m, m ∈ msgs -> 1 <= tokenEnd m <= p_totalTokens parsed) /\
  (msgs <> [] -> 1 <= p_totalTokens parsed) /\
  (forall (i : nat) (m : Message),
      msgs !! i = Some m -> isDraft m = true -> S i = length msgs) /\
  p_totalCharsFromMessages parsed = sumChars (fullMessagesOf msgs).
Proof.
  cbv zeta. unfold parseConversation.
  pose proof (parseLoop_inv 0 elements
                {| pa_messages := []; pa_cumulativeTokens := 0;
                   pa_messageCounts := ∅; pa_pins := pinnedMessageIds st;
                   pa_migratedLegacyPins := false;
                   pa_totalCharsFromMessages := 0 |}) as Hinv.
  destruct Hinv as (Hcont & Hcum & Hcount & Hdraft & Hchars).
  { repeat split; try constructor. }
  set (acc := parseLoop 0 elements _) in *.
  assert (forall msgs total,
             contiguousFrom 0 msgs -> total = sumTokens msgs ->
             Forall countedFromText msgs ->
             (forall m, m ∈ msgs -> 1 <= tokenEnd m <= total)
             /\ (msgs <> [] -> 1 <= total)) as Hbounds.
  { intros msgs total Hc -> Hf. split.
    - intros m Hm.
      pose proof (contiguousFrom_bounds 0 msgs m Hc Hf Hm). lia.
    - intros Hne. destruct msgs as [|m rest]; [congruence|].
      pose proof (contiguousFrom_bounds 0 (m :: rest) m Hc Hf
                    ltac:(left)). lia. }
  destruct (negb (String.eqb draftInput "")
            && (strlen (trim draftInput) >? 0)) eqn:Hd.
  - cbn [fst p_messages p_totalTokens p_totalCharsFromMessages].
    apply andb_true_iff in Hd. destruct Hd as [_ Hd].
    assert (1 <= strlen draftInput) as Hlen
      by (apply nonempty_text_length; lia).
    pose proof (ceilDiv_pos _ Hlen) as Htok.
    assert (contiguousFrom 0
              (pa_messages acc ++
               [{| msgId := "draft"; role := user; text := draftInput;
                   charCount := strlen draftInput;
                   tokens := ceilDiv (strlen draftInput) CHARS_PER_TOKEN;
                   tokenStart := pa_cumulativeTokens acc;
                   tokenEnd := pa_cumulativeTokens acc
                               + ceilDiv (strlen draftInput) CHARS_PER_TOKEN;
                   isDraft := true |}])%list) as Hcont'.
    { apply contiguousFrom_snoc; auto. }
    assert (Forall countedFromText
              (pa_messages acc ++
               [{| msgId := "draft"; role := user; text := draftInput;
                   charCount := strlen draftInput;
                   tokens := ceilDiv (strlen draftInput) CHARS_PER_TOKEN;
                   tokenStart := pa_cumulativeTokens acc;
                   tokenEnd := pa_cumulativeTokens acc
                               + ceilDiv (strlen draftInput) CHARS_PER_TOKEN;
                   isDraft := true |}])%list) as Hcount'.
    { apply Forall_app. split; [exact Hcount|].
      constructor; [|constructor]. repeat split; auto. }
    split; [exact Hcont'|].
    split; [rewrite sumTokens_snoc; cbn [tokens]; lia|].
    split; [exact Hcount'|].
    split; [|split; [|split]].
    + apply Hbounds; auto. rewrite sumTokens_snoc. cbn [tokens]. lia.
    + apply Hbounds; auto. rewrite sumTokens_snoc. cbn [tokens]. lia.
    + intros i m Hm Hdm. rewrite length_app. simpl.
      destruct (decide (i < length (pa_messages acc))%nat) as [Hlt|Hge].
      * rewrite lookup_app_l in Hm by exact Hlt.
        rewrite Forall_forall in Hdraft.
        rewrite (Hdraft m) in Hdm by (eapply list_elem_of_lookup_2; eauto).
        discriminate.
      * apply lookup_lt_Some in Hm. rewrite length_app in Hm. simpl in Hm.
        lia.
    + rewrite fullMessagesOf_snoc_draft by auto. exact Hchars.
  - cbn [fst p_messages p_totalTokens p_totalCharsFromMessages].
    split; [exact Hcont|]. split; [exact Hcum|]. split; [exact Hcount|].
    split; [|split; [|split]].
    + apply Hbounds; auto.
    + apply Hbounds; auto.
    + intros i m Hm Hdm. rewrite Forall_forall in Hdraft.
      rewrite (Hdraft m) in Hdm by (eapply list_elem_of_lookup_2; eauto).
      discriminate.
    + rewrite fullMessagesOf_no_draft by auto. exact Hchars.
Qed.

(** What [parseConversation] returns, whatever the page: the token ranges
    tile [0, totalTokens) in transcript order, [totalTokens] is the sum of
    the token counts, every message has the counts of its own text and at
    least one token, every range ends in [1, totalTokens], only the last
    message can be the draft, and [totalCharsFromMessages] is the character
    sum of the non-draft messages, the one that [calculateHealth] computes
    again. *)
Theorem parseConversation_invariants
  (st : State) (elements : list RawElement) (draftInput : string)
  (visibleChars : Z) :
  let parsed :=
    fst (fst (parseConversation st elements draftInput visibleChars)) in
  let msgs := p_messages parsed in
  contiguousFrom 0 msgs /\
  p_totalTokens parsed = sumTokens msgs /\
  Forall countedFromText msgs /\
  (forall m, m ∈ msgs -> 1 <= tokenEnd m <= p_totalTokens parsed) /\
  (msgs <> [] -> 1 <= p_totalTokens parsed) /\
  (forall (i : nat) (m : Message),
      msgs !! i = Some m -> isDraft m = true -> S i = length msgs) /\
  p_totalCharsFromMessages parsed = sumChars (fullMessagesOf msgs).
Proof. apply parseConversation_inv. Qed.


Lemma sumChars_nonneg l : Forall countedFromText l -> 0 <= sumChars l.
Proof.
  intros H. unfold sumChars.
  assert (forall a, 0 <= a ->
                    0 <= fold_left (fun sum msg => sum + charCount msg) l a)
    as Hgen.
  { induction H as [|y l (Hy & _ & _) _ IH]; intros a Ha; simpl; [exact Ha|].
    apply IH. rewrite Hy. unfold strlen. lia. }
  apply Hgen. lia.
Qed.

Lemma Forall_fullMessagesOf (P : Message -> Prop) l :
  Forall P l -> Forall P (fullMessagesOf l).
Proof.
  intros H. unfold fullMessagesOf. apply Forall_forall. intros m Hm.
  apply list_elem_of_In, filter_In in Hm. destruct Hm as [Hm _].
  rewrite Forall_forall in H. apply H. now apply list_elem_of_In.
Qed.

(** Whenever the parser finds a message, [updateHealthBar] hands
    [calculateHealth] a total of at least one token, so no ratio is taken
    over zero, and a last instruction that ends inside the conversation:
    the instruction penalty of the update is a rational between 0 and
    40. *)
Theorem update_scores_with_positive_total
  (st : State) (elements : list RawElement) (draftInput : string)
  (visibleChars : Z) :
  let parsed :=
    fst (fst (parseConversation st elements draftInput visibleChars)) in
  let st' := snd (fst (parseConversation st elements draftInput visibleChars)) in
  let msgs := p_messages parsed in
  msgs <> [] ->
  1 <= p_totalTokens parsed /\
  exists q rs,
    instructionPart msgs (p_totalTokens parsed)
      (detectInstructions (withMessages st' msgs) msgs)
      (existsb isRealUser msgs)
      (totalCharsOf msgs
         (Some (Z.max (p_totalCharsFromMessages parsed)
                      (p_visibleChars parsed))))
    = Some (Fin q, rs)
    /\ (0 <= q)%Q /\ (q <= 40)%Q.
Proof.
  intros parsed st' msgs Hne.
  destruct (parseConversation_inv st elements draftInput visibleChars)
    as (_ & _ & Hcount & Hends & Htotal & _ & _).
  fold parsed in Hcount, Hends, Htotal. fold msgs in Hcount, Hends, Htotal.
  specialize (Htotal Hne). split; [exact Htotal|].
  destruct (instructionPart_bounded msgs (p_totalTokens parsed)
              (detectInstructions (withMessages st' msgs) msgs)
              (existsb isRealUser msgs)
              (totalCharsOf msgs
                 (Some (Z.max (p_totalCharsFromMessages parsed)
                              (p_visibleChars parsed)))))
    as (q & rs & H & Hlo & Hhi & _).
  - lia.
  - unfold totalCharsOf.
    pose proof (sumChars_nonneg _ (Forall_fullMessagesOf _ _ Hcount)) as Hs.
    unfold sumChars, fullMessagesOf in Hs. lia.
  - intros Hlen.
    destruct (detectInstructions (withMessages st' msgs) msgs)
      as [|i rest] eqn:E; [simpl in Hlen; lia|].
    assert (maxIndex (i :: rest) < length msgs)%nat as Hlt.
    { apply maxIndex_lt; [discriminate|]. intros k Hk. rewrite <- E in Hk.
      apply detectInstructions_elem in Hk. destruct Hk as (m & Hm & _).
      eapply lookup_lt_Some. exact Hm. }
    destruct (lookup_lt_is_Some_2 msgs _ Hlt) as [m Hm].
    exists m. split; [exact Hm|].
    pose proof (Hends m (list_elem_of_lookup_2 _ _ _ Hm)). lia.
  - exists q, rs. auto.
Qed.

Lemma update_scores_witness :
  1 <= 7 /\
  exists q rs,
    instructionPart Samples.shortPageMessages 7 [0%nat] true 97500
    = Some (Fin q, rs)
    /\ (0 <= q)%Q /\ (q <= 40)%Q.
Proof.
  exact (update_scores_with_positive_total Samples.initialState
           Samples.shortPage "" 97500 ltac:(discriminate)).
Defined.

Lemma parseLoop_texts index elements acc :
  map (fun m => (role m, text m, isDraft m))
      (pa_messages (parseLoop index elements acc))
  = (map (fun m => (role m, text m, isDraft m)) (pa_messages acc)
     ++ map (fun e => (roleOfElement e, textContent e, false))
            (List.filter nonBlank elements))%list.
Proof.
  revert index acc. induction elements as [|e rest IH]; intros index acc.
  - simpl. now rewrite app_nil_r.
  - simpl. rewrite IH. unfold parseElement at 1, nonBlank at 2.
    destruct (strlen (trim (textContent e)) =? 0); simpl; [reflexivity|].
    rewrite map_app, <- app_assoc. reflexivity.
Qed.

(** The parser keeps every element whose text is not blank, in page order,
    with the role of its [data-testid] and its text unchanged, and appends
    the draft as a user message when the draft is not blank; nothing else
    becomes a message. *)
Theorem parseConversation_messages
  (st : State) (elements : list RawElement) (draftInput : string)
  (visibleChars : Z) :
  map (fun m => (role m, text m, isDraft m))
      (p_messages
         (fst (fst (parseConversation st elements draftInput visibleChars))))
  = (map (fun e => (roleOfElement e, textContent e, false))
         (List.filter nonBlank elements)
     ++ (if hasDraft draftInput then [(user, draftInput, true)] else []))%list.
Proof.
  unfold parseConversation, hasDraft.
  destruct (negb (String.eqb draftInput "")
            && (strlen (trim draftInput) >? 0));
    cbn [fst p_messages].
  - rewrite map_app, parseLoop_texts. reflexivity.
  - rewrite parseLoop_texts, app_nil_r. reflexivity.
Qed.

(** ** Message ids *)

Lemma digitVal_digitChar (d : Z) :
  0 <= d < 36 -> digitVal (digitChar d) = d.
Proof.
  intros H. rewrite <- (Z2Nat.id d) at 2 by lia.
  assert (Z.to_nat d < 36)%nat as Hn by lia.
  unfold digitChar. generalize dependent (Z.to_nat d). clear.
  intros n Hn.
  do 36 (destruct n as [|n]; [reflexivity|]). lia.
Qed.

Lemma digitChar_notUnderscore (d : Z) : notUnderscore (digitChar d) = true.
Proof.
  unfold digitChar. generalize (Z.to_nat d). intros n.
  do 36 (destruct n as [|n]; [reflexivity|]). reflexivity.
Qed.

Lemma digitChar_decimal (d : Z) : 0 <= d < 10 -> isDigit (digitChar d) = true.
Proof.
  intros H. assert (Z.to_nat d < 10)%nat as Hn by lia.
  unfold digitChar. generalize dependent (Z.to_nat d). clear.
  intros n Hn.
  do 10 (destruct n as [|n]; [reflexivity|]). lia.
Qed.

Lemma valueFrom_init (radix v : Z) (s : string) :
  valueFrom radix v s = v * radix ^ strlen s + valueFrom radix 0 s.
Proof.
  revert v. induction s as [|c r IH]; intros v.
  - simpl. unfold strlen. simpl. lia.
  - simpl. rewrite IH, (IH (0 * radix + digitVal c)).
    replace (strlen (String c r)) with (Z.succ (strlen r))
      by (unfold strlen; simpl; lia).
    rewrite Z.pow_succ_r by (unfold strlen; lia). ring.
Qed.

Lemma toRadixLoop_value (radix : Z) (fuel : nat) (n : Z) (acc : string) :
  2 <= radix <= 36 -> 0 <= n < 2 ^ Z.of_nat fuel ->
  valueFrom radix 0 (toRadixLoop fuel radix n acc)
  = n * radix ^ strlen acc + valueFrom radix 0 acc.
Proof.
  intros Hr. revert n acc. induction fuel as [|fuel IH]; intros n acc Hn.
  - simpl in *. assert (n = 0) as -> by lia. lia.
  - set (q := n / radix). set (m := n mod radix).
    assert (0 <= m < radix) as Hm by (apply Z.mod_pos_bound; lia).
    assert (n = radix * q + m) as Hdm by (apply Z.div_mod; lia).
    assert (0 <= q) as Hq by (apply Z.div_pos; lia).
    assert (q < 2 ^ Z.of_nat fuel) as Hqlt.
    { apply Z.div_lt_upper_bound; [lia|].
      rewrite Nat2Z.inj_succ, Z.pow_succ_r in Hn by lia. nia. }
    assert (valueFrom radix 0 (String (digitChar m) acc)
            = m * radix ^ strlen acc + valueFrom radix 0 acc) as Hhead.
    { simpl. rewrite valueFrom_init, digitVal_digitChar by lia. ring. }
    change (toRadixLoop (S fuel) radix n acc)
      with (if q =? 0 then String (digitChar m) acc
            else toRadixLoop fuel radix q (String (digitChar m) acc)).
    destruct (Z.eqb_spec q 0) as [Hz|Hnz].
    + rewrite Hhead. clearbody q m. subst n q. ring.
    + rewrite IH by lia. rewrite Hhead.
      replace (strlen (String (digitChar m) acc))
        with (Z.succ (strlen acc)) by (unfold strlen; simpl; lia).
      rewrite Z.pow_succ_r by (unfold strlen; lia).
      clearbody q m. subst n. ring.
Qed.

(** Printing a non-negative integer in a base from 2 to 36 and reading the
    digits back gives the integer. *)
Lemma toStringRadix_value (radix n : Z) :
  2 <= radix <= 36 -> 0 <= n ->
  valueFrom radix 0 (toStringRadix radix n) = n.
Proof.
  intros Hr Hn. unfold toStringRadix.
  rewrite toRadixLoop_value; [simpl; unfold strlen; simpl; lia|exact Hr|].
  split; [exact Hn|].
  destruct (Z.eq_dec n 0) as [->|Hne]; [simpl; lia|].
  rewrite Nat2Z.inj_succ, Z2Nat.id by apply Z.log2_nonneg.
  apply Z.log2_spec. lia.
Qed.

Lemma toStringRadix_inj (radix a b : Z) :
  2 <= radix <= 36 -> 0 <= a -> 0 <= b ->
  toStringRadix radix a = toStringRadix radix b -> a = b.
Proof.
  intros Hr Ha Hb H.
  rewrite <- (toStringRadix_value radix a Hr Ha),
          <- (toStringRadix_value radix b Hr Hb).
  now rewrite H.
Qed.

Lemma toRadixLoop_chars (p : ascii -> bool) radix fuel n acc :
  (forall d, p (digitChar d) = true) -> allChars p acc = true ->
  allChars p (toRadixLoop fuel radix n acc) = true.
Proof.
  intros Hp. revert n acc. induction fuel as [|fuel IH]; intros n acc Hacc.
  - exact Hacc.
  - simpl. destruct (n / radix =? 0).
    + simpl. now rewrite Hp, Hacc.
    + apply IH. simpl. now rewrite Hp, Hacc.
Qed.

Lemma hashText_notUnderscore (t : string) :
  allChars notUnderscore (hashText t) = true.
Proof.
  unfold hashText, toStringRadix.
  apply toRadixLoop_chars; [exact digitChar_notUnderscore|reflexivity].
Qed.

Lemma append_inj_prefix (p a b : string) : p ++ a = p ++ b -> a = b.
Proof.
  induction p as [|c p IH]; simpl; [auto|].
  intros H. injection H as H. auto.
Qed.

Lemma split_at_underscore (h h' o o' : string) :
  allChars notUnderscore h = true -> allChars notUnderscore h' = true ->
  h ++ String "_" o = h' ++ String "_" o' -> h = h' /\ o = o'.
Proof.
  revert h'. induction h as [|c h IH]; intros [|c' h'] Hh Hh' H; simpl in *.
  - injection H as ->. auto.
  - injection H as <- _. discriminate.
  - injection H as -> _. discriminate.
  - injection H as -> H.
    apply andb_true_iff in Hh, Hh'. destruct Hh as [_ Hh], Hh' as [_ Hh'].
    destruct (IH h' Hh Hh' H) as [-> ->]. auto.
Qed.

Lemma messageIdOf_inj r h o r' h' o' :
  allChars notUnderscore h = true -> allChars notUnderscore h' = true ->
  messageIdOf r h o = messageIdOf r' h' o' ->
  r = r' /\ h = h' /\ toStringRadix 10 o = toStringRadix 10 o'.
Proof.
  intros Hh Hh' H. unfold messageIdOf in H.
  destruct r, r'; simpl in H; try discriminate;
    injection H as H;
    destruct (split_at_underscore _ _ _ _ Hh Hh' H) as [-> ->]; auto.
Qed.

Lemma messageIdOf_not_draft r h o : messageIdOf r h o <> "draft".
Proof. unfold messageIdOf. simpl. discriminate. Qed.

Lemma toRadixLoop_head fuel n acc :
  headDigit acc = true -> headDigit (toRadixLoop fuel 10 n acc) = true.
Proof.
  revert n acc. induction fuel as [|fuel IH]; intros n acc Hacc.
  - exact Hacc.
  - simpl. destruct (n / 10 =? 0).
    + simpl. apply digitChar_decimal, Z.mod_pos_bound. lia.
    + apply IH. simpl. apply digitChar_decimal, Z.mod_pos_bound. lia.
Qed.

Lemma toStringRadix_head (n : Z) : headDigit (toStringRadix 10 n) = true.
Proof.
  unfold toStringRadix. simpl. destruct (n / 10 =? 0).
  - simpl. apply digitChar_decimal, Z.mod_pos_bound. lia.
  - apply toRadixLoop_head. simpl.
    apply digitChar_decimal, Z.mod_pos_bound. lia.
Qed.

(** An id that the parser hands out is never of the legacy form. *)
Lemma messageIdOf_not_legacy r h o index :
  messageIdOf r h o <> legacyIdOf index.
Proof.
  unfold messageIdOf, legacyIdOf. intros H.
  apply (append_inj_prefix "msg_") in H.
  pose proof (toStringRadix_head (Z.of_nat index)) as Hd.
  rewrite <- H in Hd. destruct r; discriminate.
Qed.

Lemma legacyIdOf_inj (i j : nat) : legacyIdOf i = legacyIdOf j -> i = j.
Proof.
  unfold legacyIdOf. intros H. apply append_inj_prefix in H.
  apply toStringRadix_inj in H; lia.
Qed.

Lemma countKey_snoc k l m :
  countKey k (l ++ [m])
  = countKey k l + (if String.eqb (msgKey m) k then 1 else 0).
Proof.
  unfold countKey. rewrite List.filter_app, length_app. simpl.
  destruct (String.eqb (msgKey m) k); simpl; lia.
Qed.

Lemma countKey_nonneg k l : 0 <= countKey k l.
Proof. unfold countKey. lia. Qed.

Lemma countKey_firstn_le k n l : countKey k (firstn n l) <= countKey k l.
Proof.
  rewrite <- (firstn_skipn n l) at 2.
  unfold countKey. rewrite List.filter_app, length_app. lia.
Qed.

Lemma parseElement_idinv acc index element :
  IdInv acc -> IdInv (parseElement acc index element).
Proof.
  intros [HA HD]. unfold parseElement.
  destruct (strlen (trim (textContent element)) =? 0); [split; assumption|].
  set (r := if includes (testId element) "user" then user else assistant).
  set (h := hashText (textContent element)).
  change (roleName r ++ ":" ++ h) with (keyOf r h).
  set (occ := default 0 (pa_messageCounts acc !! keyOf r h) + 1).
  change ("msg_" ++ roleName r ++ "_" ++ h ++ "_" ++ toStringRadix 10 occ)
    with (messageIdOf r h occ).
  unfold IdInv. cbn [pa_messages pa_messageCounts].
  match goal with
  | |- context [(pa_messages acc ++ [?x])%list] => set (m' := x)
  end.
  assert (msgKey m' = keyOf r h) as Hkey by reflexivity.
  assert (countKey (keyOf r h) (pa_messages acc ++ [m']) = occ) as Hocc.
  { rewrite countKey_snoc, Hkey, String.eqb_refl. unfold occ.
    now rewrite HD. }
  split.
  - intros i m Hm.
    destruct (decide (i < length (pa_messages acc))%nat) as [Hlt|Hge].
    + rewrite lookup_app_l in Hm by exact Hlt.
      rewrite firstn_app.
      replace (S i - length (pa_messages acc))%nat with 0%nat by lia.
      simpl firstn at 2. rewrite app_nil_r. apply HA, Hm.
    + assert (i = length (pa_messages acc)) as ->.
      { apply lookup_lt_Some in Hm. rewrite length_app in Hm. simpl in Hm.
        lia. }
      rewrite list_lookup_middle in Hm by reflexivity. injection Hm as <-.
      rewrite firstn_all2 by (rewrite length_app; simpl; lia).
      rewrite Hkey, Hocc. reflexivity.
  - intros k. rewrite countKey_snoc, Hkey.
    destruct (String.eqb_spec (keyOf r h) k) as [<-|Hne].
    + rewrite lookup_insert_eq. simpl. unfold occ. now rewrite HD.
    + rewrite lookup_insert_ne by exact Hne. rewrite HD. lia.
Qed.

Lemma parseLoop_idinv index elements acc :
  IdInv acc -> IdInv (parseLoop index elements acc).
Proof.
  revert index acc. induction elements as [|e rest IH]; intros index acc H.
  - exact H.
  - simpl. apply IH, parseElement_idinv, H.
Qed.

Lemma messageIdOf_rank_distinct (msgs : list Message) (i j : nat)
  (mi mj : Message) :
  (i < j)%nat -> msgs !! i = Some mi -> msgs !! j = Some mj ->
  messageIdOf (role mi) (hashText (text mi))
    (countKey (msgKey mi) (firstn (S i) msgs))
  <> messageIdOf (role mj) (hashText (text mj))
       (countKey (msgKey mj) (firstn (S j) msgs)).
Proof.
  intros Hlt Hi Hj H.
  apply messageIdOf_inj in H; try apply hashText_notUnderscore.
  destruct H as (Hr & Hh & Ho).
  assert (msgKey mi = msgKey mj) as Hk by (unfold msgKey; now rewrite Hr, Hh).
  apply toStringRadix_inj in Ho; try lia; try apply countKey_nonneg.
  rewrite Hk in Ho.
  rewrite (take_S_r msgs j mj Hj) in Ho.
  rewrite countKey_snoc, String.eqb_refl in Ho.
  assert (firstn (S i) msgs = firstn (S i) (firstn j msgs)) as Hpre.
  { rewrite firstn_firstn. f_equal. lia. }
  pose proof (countKey_firstn_le (msgKey mj) (S i) (firstn j msgs)) as Hle.
  rewrite <- Hpre in Hle. lia.
Qed.

Lemma IdInv_initial (pins : gset string) :
  IdInv {| pa_messages := []; pa_cumulativeTokens := 0;
           pa_messageCounts := ∅; pa_pins := pins;
           pa_migratedLegacyPins := false; pa_totalCharsFromMessages := 0 |}.
Proof.
  split.
  - intros i m H. discriminate.
  - intros k. cbn [pa_messageCounts pa_messages].
    rewrite lookup_empty. reflexivity.
Qed.

Lemma ParseInv_initial (pins : gset string) :
  ParseInv {| pa_messages := []; pa_cumulativeTokens := 0;
              pa_messageCounts := ∅; pa_pins := pins;
              pa_migratedLegacyPins := false;
              pa_totalCharsFromMessages := 0 |}.
Proof. repeat split; constructor. Qed.

Lemma firstn_app_short {A : Type} (n : nat) (l k : list A) :
  (n <= length l)%nat -> firstn n (l ++ k) = firstn n l.
Proof.
  intros H. rewrite firstn_app.
  replace (n - length l)%nat with 0%nat by lia.
  simpl. apply app_nil_r.
Qed.

(** The ids of one parse: the id of a message that is not the draft is made
    of its role, the hash of its text and its rank among the messages up to
    it with that role and that hash; the draft has the id ["draft"]; and no
    two messages of the parse share an id. *)
Theorem parseConversation_ids
  (st : State) (elements : list RawElement) (draftInput : string)
  (visibleChars : Z) :
  let msgs :=
    p_messages
      (fst (fst (parseConversation st elements draftInput visibleChars))) in
  (forall (i : nat) (m : Message),
      msgs !! i = Some m -> isDraft m = false ->
      msgId m = messageIdOf (role m) (hashText (text m))
                  (countKey (msgKey m) (firstn (S i) msgs))) /\
  (forall m, m ∈ msgs -> isDraft m = true -> msgId m = "draft") /\
  (forall (i j : nat) (mi mj : Message),
      msgs !! i = Some mi -> msgs !! j = Some mj ->
      msgId mi = msgId mj -> i = j).
Proof.
  cbv zeta. unfold parseConversation.
  pose proof (parseLoop_idinv 0 elements _
                (IdInv_initial (pinnedMessageIds st))) as [HA _].
  pose proof (parseLoop_inv 0 elements _
                (ParseInv_initial (pinnedMessageIds st)))
    as (_ & _ & _ & Hnd & _).
  set (acc := parseLoop 0 elements _) in *.
  rewrite Forall_forall in Hnd.
  assert (forall i j mi mj,
             (i < j)%nat -> pa_messages acc !! i = Some mi ->
             pa_messages acc !! j = Some mj -> msgId mi <> msgId mj) as Hlt.
  { intros i j mi mj Hij Hi Hj. rewrite (HA i mi Hi), (HA j mj Hj).
    now apply messageIdOf_rank_distinct. }
  destruct (negb (String.eqb draftInput "")
            && (strlen (trim draftInput) >? 0));
    cbn [fst p_messages].
  - match goal with
    | |- context [(pa_messages acc ++ [?x])%list] => set (d := x)
    end.
    assert (forall i m, (pa_messages acc ++ [d])%list !! i = Some m ->
                        (i < length (pa_messages acc))%nat
                        /\ pa_messages acc !! i = Some m
                        \/ i = length (pa_messages acc) /\ m = d) as Hcase.
    { intros i m Hm.
      destruct (decide (i < length (pa_messages acc))%nat) as [Hl|Hg].
      - left. rewrite lookup_app_l in Hm by exact Hl. auto.
      - right. pose proof (lookup_lt_Some _ _ _ Hm) as Hb.
        rewrite length_app in Hb. simpl in Hb.
        assert (i = length (pa_messages acc)) as -> by lia.
        rewrite list_lookup_middle in Hm by reflexivity.
        injection Hm as <-. auto. }
    split; [|split].
    + intros i m Hm Hdraft.
      destruct (Hcase i m Hm) as [[Hl Hi]|[_ ->]]; [|discriminate].
      rewrite firstn_app_short by lia. apply HA, Hi.
    + intros m Hm Hdraft. apply elem_of_app in Hm. destruct Hm as [Hm|Hm].
      * rewrite (Hnd m Hm) in Hdraft. discriminate.
      * apply list_elem_of_singleton in Hm. subst m. reflexivity.
    + intros i j mi mj Hi Hj Heq.
      destruct (Hcase i mi Hi) as [[Hli Hi']|[-> ->]],
               (Hcase j mj Hj) as [[Hlj Hj']|[-> ->]].
      * destruct (Nat.lt_trichotomy i j) as [H|[H|H]]; [|exact H|].
        -- exfalso. exact (Hlt i j mi mj H Hi' Hj' Heq).
        -- exfalso. exact (Hlt j i mj mi H Hj' Hi' (eq_sym Heq)).
      * exfalso. rewrite (HA i mi Hi') in Heq.
        exact (messageIdOf_not_draft _ _ _ Heq).
      * exfalso. rewrite (HA j mj Hj') in Heq.
        exact (messageIdOf_not_draft _ _ _ (eq_sym Heq)).
      * reflexivity.
  - split; [|split].
    + intros i m Hm _. apply HA, Hm.
    + intros m Hm Hdraft. rewrite (Hnd m Hm) in Hdraft. discriminate.
    + intros i j mi mj Hi Hj Heq.
      destruct (Nat.lt_trichotomy i j) as [H|[H|H]]; [|exact H|].
      * exfalso. exact (Hlt i j mi mj H Hi Hj Heq).
      * exfalso. exact (Hlt j i mj mi H Hj Hi (eq_sym Heq)).
Qed.

Lemma parseConversation_ids_witness :
  let msgs :=
    p_messages
      (fst (fst (parseConversation Samples.initialState Samples.repeatedPage
                   "ok" 0))) in
  map msgId msgs
  = ["msg_user_3hofz_1"; "msg_assistant_3hofz_1"; "msg_user_3hofz_2";
     "draft"]
  /\ exists m,
       msgs !! 2%nat = Some m
       /\ msgId m = messageIdOf (role m) (hashText (text m))
                      (countKey (msgKey m) (firstn 3 msgs)).
Proof.
  intros msgs. split; [vm_compute; reflexivity|].
  eexists. split; [vm_compute; reflexivity|].
  apply (proj1 (parseConversation_ids Samples.initialState
                  Samples.repeatedPage "ok" 0) 2%nat);
    vm_compute; reflexivity.
Defined.

Lemma countKey_ext k l1 l2 :
  map (fun m => (role m, text m)) l1 = map (fun m => (role m, text m)) l2 ->
  countKey k l1 = countKey k l2.
Proof.
  revert l2. induction l1 as [|a l1 IH]; intros [|b l2] H;
    try discriminate; [reflexivity|].
  simpl in H. injection H as Hr Ht H.
  specialize (IH l2 H).
  assert (msgKey a = msgKey b) as Hk by (unfold msgKey; now rewrite Hr, Ht).
  unfold countKey in *. cbn [List.filter]. rewrite Hk.
  destruct (String.eqb (msgKey b) k); cbn [length]; lia.
Qed.

Lemma ids_determined (l1 l2 : list Message) :
  (forall i m, l1 !! i = Some m ->
               msgId m = messageIdOf (role m) (hashText (text m))
                           (countKey (msgKey m) (firstn (S i) l1))) ->
  (forall i m, l2 !! i = Some m ->
               msgId m = messageIdOf (role m) (hashText (text m))
                           (countKey (msgKey m) (firstn (S i) l2))) ->
  map (fun m => (role m, text m)) l1 = map (fun m => (role m, text m)) l2 ->
  map msgId l1 = map msgId l2.
Proof.
  intros H1 H2 Hrt.
  change (msgId <$> l1 = msgId <$> l2). apply list_eq. intros i.
  rewrite !list_lookup_fmap.
  assert (((fun m => (role m, text m)) <$> l1) !! i
          = ((fun m => (role m, text m)) <$> l2) !! i) as Hi
    by (change (map (fun m => (role m, text m)) l1 !! i
                = map (fun m => (role m, text m)) l2 !! i); now rewrite Hrt).
  rewrite !list_lookup_fmap in Hi.
  destruct (l1 !! i) as [m1|] eqn:E1, (l2 !! i) as [m2|] eqn:E2;
    simpl in *; try discriminate; [|reflexivity].
  injection Hi as Hr Ht. f_equal.
  rewrite (H1 i m1 E1), (H2 i m2 E2). unfold msgKey. rewrite Hr, Ht.
  f_equal. apply countKey_ext. rewrite <- !firstn_map. now rewrite Hrt.
Qed.

Lemma parseLoop_roles_texts elements pins :
  map (fun m => (role m, text m))
      (pa_messages
         (parseLoop 0 elements
            {| pa_messages := []; pa_cumulativeTokens := 0;
               pa_messageCounts := ∅; pa_pins := pins;
               pa_migratedLegacyPins := false;
               pa_totalCharsFromMessages := 0 |}))
  = map (fun e => (roleOfElement e, textContent e))
        (List.filter nonBlank elements).
Proof.
  pose proof (parseLoop_texts 0 elements
                {| pa_messages := []; pa_cumulativeTokens := 0;
                   pa_messageCounts := ∅; pa_pins := pins;
                   pa_migratedLegacyPins := false;
                   pa_totalCharsFromMessages := 0 |}) as H.
  apply (f_equal (map fst)) in H. simpl in H.
  rewrite !map_map in H. exact H.
Qed.

(** Ids are stable across parses: two pages whose non-blank elements have
    the same roles and texts in the same order, and which both have or both
    lack a draft, get the same ids in the same order, whatever the pin
    sets, the blank elements in between and the text of the draft. *)
Theorem parseConversation_ids_stable
  (st1 st2 : State) (elements1 elements2 : list RawElement)
  (draft1 draft2 : string) (visible1 visible2 : Z) :
  map (fun e => (roleOfElement e, textContent e))
      (List.filter nonBlank elements1)
  = map (fun e => (roleOfElement e, textContent e))
        (List.filter nonBlank elements2) ->
  hasDraft draft1 = hasDraft draft2 ->
  map msgId
      (p_messages (fst (fst (parseConversation st1 elements1 draft1 visible1))))
  = map msgId
        (p_messages
           (fst (fst (parseConversation st2 elements2 draft2 visible2)))).
Proof.
  intros Hels Hdraft. unfold parseConversation.
  change (negb (String.eqb draft1 "") && (strlen (trim draft1) >? 0))
    with (hasDraft draft1).
  change (negb (String.eqb draft2 "") && (strlen (trim draft2) >? 0))
    with (hasDraft draft2).
  rewrite Hdraft.
  assert (map msgId
            (pa_messages
               (parseLoop 0 elements1
                  {| pa_messages := []; pa_cumulativeTokens := 0;
                     pa_messageCounts := ∅;
                     pa_pins := pinnedMessageIds st1;
                     pa_migratedLegacyPins := false;
                     pa_totalCharsFromMessages := 0 |}))
          = map msgId
              (pa_messages
                 (parseLoop 0 elements2
                    {| pa_messages := []; pa_cumulativeTokens := 0;
                       pa_messageCounts := ∅;
                       pa_pins := pinnedMessageIds st2;
                       pa_migratedLegacyPins := false;
                       pa_totalCharsFromMessages := 0 |}))) as Hloop.
  { apply ids_determined.
    - apply parseLoop_idinv, IdInv_initial.
    - apply parseLoop_idinv, IdInv_initial.
    - rewrite !parseLoop_roles_texts. exact Hels. }
  destruct (hasDraft draft2); cbn [fst p_messages].
  - rewrite !map_app, Hloop. reflexivity.
  - exact Hloop.
Qed.

Lemma parseConversation_ids_stable_witness :
  map msgId
      (p_messages
         (fst (fst (parseConversation Samples.initialState
                      Samples.shortPage "" 0))))
  = map msgId
        (p_messages
           (fst (fst (parseConversation Samples.pinnedLast
                        (mkRawElement "assistant-message" "  "
                           :: Samples.shortPage) " " 9)))).
Proof.
  apply parseConversation_ids_stable; reflexivity.
Defined.

(** ** Migration of legacy pins *)

Lemma parseElement_blank acc index element :
  nonBlank element = false -> parseElement acc index element = acc.
Proof.
  unfold nonBlank, parseElement. intros H.
  apply negb_false_iff in H. now rewrite H.
Qed.

Lemma parseElement_nonblank acc index element :
  nonBlank element = true ->
  exists m,
    pa_messages (parseElement acc index element)
    = (pa_messages acc ++ [m])%list
    /\ role m = roleOfElement element
    /\ text m = textContent element
    /\ (exists o, msgId m = messageIdOf (role m) (hashText (text m)) o)
    /\ pa_pins (parseElement acc index element)
       = (if bool_decide (legacyIdOf index ∈ pa_pins acc)
          then {[msgId m]} ∪ (pa_pins acc ∖ {[legacyIdOf index]})
          else pa_pins acc)
    /\ pa_migratedLegacyPins (parseElement acc index element)
       = bool_decide (legacyIdOf index ∈ pa_pins acc)
         || pa_migratedLegacyPins acc.
Proof.
  unfold nonBlank, parseElement. intros H.
  apply negb_true_iff in H. rewrite H.
  eexists. cbn [pa_messages pa_pins pa_migratedLegacyPins].
  split; [reflexivity|]. cbn [role text msgId].
  split; [reflexivity|]. split; [reflexivity|].
  split; [eexists; reflexivity|]. split; reflexivity.
Qed.

Lemma parseLoop_app index l1 l2 acc :
  parseLoop index (l1 ++ l2) acc
  = parseLoop (index + length l1) l2 (parseLoop index l1 acc).
Proof.
  revert index acc. induction l1 as [|e l1 IH]; intros index acc; simpl.
  - now rewrite Nat.add_0_r.
  - rewrite IH. f_equal. lia.
Qed.

(** An id that is not the legacy id of a later kept element stays
    pinned. *)
Lemma parseLoop_keeps_pin index elements acc (id : string) :
  id ∈ pa_pins acc ->
  (forall i e, elements !! i = Some e -> nonBlank e = true ->
               id <> legacyIdOf (index + i)) ->
  id ∈ pa_pins (parseLoop index elements acc).
Proof.
  revert index acc. induction elements as [|e rest IH]; intros index acc Hin Hne.
  - exact Hin.
  - simpl. apply IH.
    + destruct (nonBlank e) eqn:Hb.
      * destruct (parseElement_nonblank acc index e Hb)
          as (m & _ & _ & _ & _ & -> & _).
        specialize (Hne 0%nat e eq_refl Hb). rewrite Nat.add_0_r in Hne.
        destruct (bool_decide _); set_solver.
      * now rewrite parseElement_blank.
    + intros i e' He' Hb. replace (S index + i)%nat with (index + S i)%nat by lia.
      apply (Hne (S i) e' He' Hb).
Qed.

(** A legacy id that is not pinned is never pinned by the parser. *)
Lemma parseLoop_never_pins_legacy index elements acc (n : nat) :
  legacyIdOf n ∉ pa_pins acc ->
  legacyIdOf n ∉ pa_pins (parseLoop index elements acc).
Proof.
  revert index acc. induction elements as [|e rest IH]; intros index acc Hout.
  - exact Hout.
  - simpl. apply IH.
    destruct (nonBlank e) eqn:Hb.
    + destruct (parseElement_nonblank acc index e Hb)
        as (m & _ & _ & _ & (o & Hid) & -> & _).
      destruct (bool_decide _); [|exact Hout].
      pose proof (messageIdOf_not_legacy (role m) (hashText (text m)) o n)
        as Hne.
      rewrite <- Hid in Hne.
      rewrite elem_of_union, elem_of_singleton, elem_of_difference.
      intros [Heq|[Hin _]]; [apply Hne; now symmetry|exact (Hout Hin)].
    + now rewrite parseElement_blank.
Qed.

Lemma parseLoop_migrated_stays index elements acc :
  pa_migratedLegacyPins acc = true ->
  pa_migratedLegacyPins (parseLoop index elements acc) = true.
Proof.
  revert index acc. induction elements as [|e rest IH]; intros index acc H.
  - exact H.
  - simpl. apply IH.
    destruct (nonBlank e) eqn:Hb.
    + destruct (parseElement_nonblank acc index e Hb)
        as (m & _ & _ & _ & _ & _ & ->).
      rewrite H. apply orb_true_r.
    + now rewrite parseElement_blank.
Qed.

(** Without a pinned legacy id of a kept element, the parser leaves the
    pins alone and does not save them. *)
Lemma parseLoop_no_migration index elements acc :
  (forall i e, elements !! i = Some e -> nonBlank e = true ->
               legacyIdOf (index + i) ∉ pa_pins acc) ->
  pa_pins (parseLoop index elements acc) = pa_pins acc
  /\ pa_migratedLegacyPins (parseLoop index elements acc)
     = pa_migratedLegacyPins acc.
Proof.
  revert index acc. induction elements as [|e rest IH]; intros index acc Hno.
  - auto.
  - simpl.
    assert (pa_pins (parseElement acc index e) = pa_pins acc
            /\ pa_migratedLegacyPins (parseElement acc index e)
               = pa_migratedLegacyPins acc) as [Hp Hm].
    { destruct (nonBlank e) eqn:Hb.
      - destruct (parseElement_nonblank acc index e Hb)
          as (m & _ & _ & _ & _ & -> & ->).
        specialize (Hno 0%nat e eq_refl Hb). rewrite Nat.add_0_r in Hno.
        rewrite bool_decide_eq_false_2 by exact Hno. auto.
      - rewrite parseElement_blank by exact Hb. auto. }
    destruct (IH (S index) (parseElement acc index e)) as [Hp' Hm'].
    + intros i e' He' Hb. rewrite Hp.
      replace (S index + i)%nat with (index + S i)%nat by lia.
      apply (Hno (S i) e' He' Hb).
    + rewrite Hp', Hm'. auto.
Qed.

Lemma parseLoop_messages_prefix index elements acc :
  exists l, pa_messages (parseLoop index elements acc)
            = (pa_messages acc ++ l)%list.
Proof.
  revert index acc. induction elements as [|e rest IH]; intros index acc.
  - exists []. simpl. now rewrite app_nil_r.
  - simpl. destruct (IH (S index) (parseElement acc index e)) as [l ->].
    destruct (nonBlank e) eqn:Hb.
    + destruct (parseElement_nonblank acc index e Hb) as (m & -> & _).
      exists (m :: l). now rewrite <- app_assoc.
    + rewrite parseElement_blank by exact Hb. eauto.
Qed.

Lemma parseLoop_length index elements acc :
  length (pa_messages (parseLoop index elements acc))
  = (length (pa_messages acc) + length (List.filter nonBlank elements))%nat.
Proof.
  pose proof (f_equal (@length _) (parseLoop_texts index elements acc)) as H.
  rewrite length_app, !length_map in H. exact H.
Qed.

Lemma parseLoop_migrates pre e post acc0 :
  nonBlank e = true ->
  legacyIdOf (length pre) ∈ pa_pins acc0 ->
  let acc := parseLoop 0 (pre ++ e :: post) acc0 in
  pa_migratedLegacyPins acc = true
  /\ (legacyIdOf (length pre) ∉ pa_pins acc)
  /\ exists m,
       pa_messages acc
         !! (length (pa_messages acc0) + length (List.filter nonBlank pre))%nat
       = Some m
       /\ text m = textContent e /\ role m = roleOfElement e
       /\ msgId m ∈ pa_pins acc.
Proof.
  intros Hb Hin. cbv zeta. rewrite parseLoop_app. simpl parseLoop.
  set (acc1 := parseLoop 0 pre acc0).
  assert (legacyIdOf (length pre) ∈ pa_pins acc1) as Hin1.
  { apply parseLoop_keeps_pin; [exact Hin|].
    intros i e' He' _ Heq. apply legacyIdOf_inj in Heq.
    apply lookup_lt_Some in He'. lia. }
  destruct (parseElement_nonblank acc1 (0 + length pre) e Hb)
    as (m & Hmsgs & Hrole & Htext & (o & Hid) & Hpins & Hmig).
  simpl (0 + length pre)%nat in *.
  rewrite bool_decide_eq_true_2 in Hpins, Hmig by exact Hin1.
  set (acc2 := parseElement acc1 (length pre) e) in *.
  assert (msgId m <> legacyIdOf (length pre)) as Hne.
  { rewrite Hid. apply messageIdOf_not_legacy. }
  split; [|split].
  - apply parseLoop_migrated_stays. rewrite Hmig. reflexivity.
  - apply parseLoop_never_pins_legacy. rewrite Hpins.
    rewrite elem_of_union, elem_of_singleton, elem_of_difference,
            elem_of_singleton.
    intros [Heq|[_ Hx]]; [apply Hne; now symmetry|apply Hx; reflexivity].
  - exists m. split; [|split; [exact Htext|split; [exact Hrole|]]].
    + destruct (parseLoop_messages_prefix (S (length pre)) post acc2)
        as [l ->].
      rewrite Hmsgs, <- app_assoc.
      replace (length (pa_messages acc0) + length (List.filter nonBlank pre))%nat
        with (length (pa_messages acc1))
        by (unfold acc1; apply parseLoop_length).
      apply list_lookup_middle. reflexivity.
    + apply parseLoop_keeps_pin.
      * rewrite Hpins. apply elem_of_union. left.
        now apply elem_of_singleton.
      * intros i e' _ _. rewrite Hid. apply messageIdOf_not_legacy.
Qed.

(** Migration of a legacy pin: when the id [msg_<index>] is pinned and the
    element at that index of the page is kept, after the parse the legacy
    id is no longer pinned, the id that the parse gives to the message of
    that element is pinned instead, and the pins are saved. *)
Theorem legacy_pin_is_migrated
  (st : State) (elements : list RawElement) (draftInput : string)
  (visibleChars : Z) (index : nat) (e : RawElement) :
  elements !! index = Some e -> nonBlank e = true ->
  legacyIdOf index ∈ pinnedMessageIds st ->
  let result := parseConversation st elements draftInput visibleChars in
  let msgs := p_messages (fst (fst result)) in
  let pins := pinnedMessageIds (snd (fst result)) in
  snd result = true
  /\ (legacyIdOf index ∉ pins)
  /\ exists m,
       msgs !! length (List.filter nonBlank (firstn index elements)) = Some m
       /\ text m = textContent e /\ role m = roleOfElement e
       /\ msgId m ∈ pins.
Proof.
  intros He Hb Hin. cbv zeta.
  pose proof (take_drop_middle elements index e He) as Hsplit.
  assert (length (firstn index elements) = index) as Hlen.
  { rewrite length_take. apply lookup_lt_Some in He. lia. }
  pose proof (parseLoop_migrates (firstn index elements) e
                (skipn (S index) elements)
                {| pa_messages := []; pa_cumulativeTokens := 0;
                   pa_messageCounts := ∅; pa_pins := pinnedMessageIds st;
                   pa_migratedLegacyPins := false;
                   pa_totalCharsFromMessages := 0 |} Hb) as H.
  rewrite Hlen, Hsplit in H. specialize (H Hin).
  cbv zeta in H. cbn [pa_messages length Nat.add] in H.
  destruct H as (Hmig & Hout & m & Hm & Htext & Hrole & Hpin).
  unfold parseConversation.
  set (acc := parseLoop 0 elements _) in *.
  destruct (negb (String.eqb draftInput "")
            && (strlen (trim draftInput) >? 0));
    cbn [fst snd p_messages pinnedMessageIds withPins];
    (split; [exact Hmig|]); (split; [exact Hout|]);
    exists m; repeat split; auto.
  apply lookup_app_l_Some. exact Hm.
Qed.

Lemma legacy_pin_is_migrated_witness :
  let result :=
    parseConversation (withPins Samples.initialState {[ "msg_1" ]})
      (mkRawElement "assistant-message" " " :: Samples.shortPage) "" 0 in
  snd result = true
  /\ ("msg_1" ∉ pinnedMessageIds (snd (fst result)))
  /\ ("msg_user_z0fldu_1" ∈ pinnedMessageIds (snd (fst result))).
Proof.
  intros result.
  destruct (legacy_pin_is_migrated
              (withPins Samples.initialState {[ "msg_1" ]})
              (mkRawElement "assistant-message" " " :: Samples.shortPage)
              "" 0 1%nat (mkRawElement "user-message" "You must always be nice")
              eq_refl eq_refl)
    as (Hsaved & Hout & m & Hm & _ & _ & Hpin).
  - vm_compute. reflexivity.
  - split; [exact Hsaved|]. split; [exact Hout|].
    vm_compute in Hm. injection Hm as <-. exact Hpin.
Defined.

(** What the parse does not do to the pins: a pinned id that is not the
    legacy id of a kept element stays pinned; a legacy id that was not
    pinned is not pinned afterwards; and when no legacy id of a kept
    element is pinned, the pin set is unchanged and nothing is saved. *)
Theorem parse_keeps_other_pins
  (st : State) (elements : list RawElement) (draftInput : string)
  (visibleChars : Z) :
  let result := parseConversation st elements draftInput visibleChars in
  let pins := pinnedMessageIds (snd (fst result)) in
  (forall id,
      id ∈ pinnedMessageIds st ->
      (forall i e, elements !! i = Some e -> nonBlank e = true ->
                   id <> legacyIdOf i) ->
      id ∈ pins) /\
  (forall n, legacyIdOf n ∉ pinnedMessageIds st -> legacyIdOf n ∉ pins) /\
  ((forall i e, elements !! i = Some e -> nonBlank e = true ->
                legacyIdOf i ∉ pinnedMessageIds st) ->
   pins = pinnedMessageIds st /\ snd result = false).
Proof.
  cbv zeta. unfold parseConversation.
  set (acc0 := {| pa_messages := []; pa_cumulativeTokens := 0;
                  pa_messageCounts := ∅; pa_pins := pinnedMessageIds st;
                  pa_migratedLegacyPins := false;
                  pa_totalCharsFromMessages := 0 |}).
  destruct (negb (String.eqb draftInput "")
            && (strlen (trim draftInput) >? 0));
    cbn [fst snd pinnedMessageIds withPins].
  all: split; [|split].
  all: try (intros id Hin Hne;
            apply (parseLoop_keeps_pin 0 elements acc0 id Hin Hne)).
  all: try (intros n Hout;
            apply (parseLoop_never_pins_legacy 0 elements acc0 n Hout)).
  all: intros Hno;
    apply (parseLoop_no_migration 0 elements acc0 Hno).
Qed.

Lemma parse_keeps_other_pins_witness :
  pinnedMessageIds
    (snd (fst (parseConversation Samples.pinnedLast Samples.shortPage "" 0)))
  = {[ "u5" ]}.
Proof.
  apply (proj2 (proj2 (parse_keeps_other_pins Samples.pinnedLast
                         Samples.shortPage "" 0))).
  intros i e He _.
  destruct i as [|[|i]]; [| |discriminate];
    vm_compute; intros H; discriminate.
Defined.

(** ** Pinning *)

Lemma updateHealthBar_pins st elements draftInput visibleChars :
  pinnedMessageIds (snd (updateHealthBar st elements draftInput visibleChars))
  = pinnedMessageIds
      (snd (fst (parseConversation st elements draftInput visibleChars))).
Proof.
  unfold updateHealthBar.
  destruct (parseConversation st elements draftInput visibleChars)
    as [[parsed st'] saved].
  destruct (length (p_messages parsed) =? 0)%nat; [reflexivity|].
  destruct (calculateHealth _ _ _ _); reflexivity.
Qed.

Lemma parseConversation_pins_unchanged st elements draftInput visibleChars :
  (forall i e, elements !! i = Some e -> nonBlank e = true ->
               legacyIdOf i ∉ pinnedMessageIds st) ->
  pinnedMessageIds
    (snd (fst (parseConversation st elements draftInput visibleChars)))
  = pinnedMessageIds st.
Proof.
  intros Hno. unfold parseConversation.
  destruct (negb (String.eqb draftInput "")
            && (strlen (trim draftInput) >? 0));
    cbn [fst snd pinnedMessageIds withPins];
    apply (parseLoop_no_migration 0 elements
             {| pa_messages := []; pa_cumulativeTokens := 0;
                pa_messageCounts := ∅; pa_pins := pinnedMessageIds st;
                pa_migratedLegacyPins := false;
                pa_totalCharsFromMessages := 0 |} Hno).
Qed.

Lemma togglePin_pins st messageId elements draftInput visibleChars :
  (forall i e, elements !! i = Some e -> nonBlank e = true ->
               (legacyIdOf i ∉ pinnedMessageIds st)
               /\ legacyIdOf i <> messageId) ->
  pinnedMessageIds
    (snd (togglePin st messageId elements draftInput visibleChars))
  = if bool_decide (messageId ∈ pinnedMessageIds st)
    then pinnedMessageIds st ∖ {[messageId]}
    else pinnedMessageIds st ∪ {[messageId]}.
Proof.
  intros Hno. unfold togglePin. rewrite updateHealthBar_pins.
  rewrite parseConversation_pins_unchanged.
  - destruct (bool_decide _); reflexivity.
  - intros i e He Hb. destruct (Hno i e He Hb) as [Hout Hne].
    destruct (bool_decide _); cbn [pinnedMessageIds withPins].
    + rewrite elem_of_difference. tauto.
    + rewrite elem_of_union, elem_of_singleton. tauto.
Qed.

(** Clicking a pin twice restores the pin set, on a page where neither
    the clicked id nor a pinned id is the legacy id of a kept element (so
    that the update after each click migrates nothing). *)
Theorem togglePin_twice
  (st : State) (messageId : string) (elements : list RawElement)
  (draftInput : string) (visibleChars : Z) :
  (forall i e, elements !! i = Some e -> nonBlank e = true ->
               (legacyIdOf i ∉ pinnedMessageIds st)
               /\ legacyIdOf i <> messageId) ->
  let st1 := snd (togglePin st messageId elements draftInput visibleChars) in
  let st2 := snd (togglePin st1 messageId elements draftInput visibleChars) in
  (messageId ∈ pinnedMessageIds st1 <-> messageId ∉ pinnedMessageIds st)
  /\ pinnedMessageIds st2 = pinnedMessageIds st.
Proof.
  intros Hno st1 st2.
  pose proof (togglePin_pins st messageId elements draftInput visibleChars
                Hno) as H1.
  fold st1 in H1.
  assert (forall i e, elements !! i = Some e -> nonBlank e = true ->
                      (legacyIdOf i ∉ pinnedMessageIds st1)
                      /\ legacyIdOf i <> messageId) as Hno1.
  { intros i e He Hb. destruct (Hno i e He Hb) as [Hout Hne].
    split; [|exact Hne]. rewrite H1.
    destruct (bool_decide _).
    - rewrite elem_of_difference. tauto.
    - rewrite elem_of_union, elem_of_singleton. tauto. }
  pose proof (togglePin_pins st1 messageId elements draftInput visibleChars
                Hno1) as H2.
  fold st2 in H2. rewrite H2. clear H2 Hno1.
  destruct (bool_decide_reflect (messageId ∈ pinnedMessageIds st))
    as [Hin|Hout]; rewrite H1.
  - assert (messageId ∉ pinnedMessageIds st ∖ {[messageId]}) as Hgone.
    { rewrite elem_of_difference, elem_of_singleton. tauto. }
    split; [tauto|].
    rewrite bool_decide_eq_false_2 by exact Hgone.
    apply set_eq. intros x.
    rewrite elem_of_union, elem_of_difference, elem_of_singleton.
    destruct (decide (x = messageId)) as [->|]; tauto.
  - assert (messageId ∈ pinnedMessageIds st ∪ {[messageId]}) as Hthere.
    { rewrite elem_of_union, elem_of_singleton. tauto. }
    split; [tauto|].
    rewrite bool_decide_eq_true_2 by exact Hthere.
    apply set_eq. intros x.
    rewrite elem_of_difference, elem_of_union, elem_of_singleton.
    destruct (decide (x = messageId)) as [->|]; tauto.
Qed.

Lemma togglePin_twice_witness :
  let st1 :=
    snd (togglePin Samples.initialState "msg_user_z0fldu_1"
           Samples.shortPage "" 0) in
  let st2 :=
    snd (togglePin st1 "msg_user_z0fldu_1" Samples.shortPage "" 0) in
  ("msg_user_z0fldu_1" ∈ pinnedMessageIds st1)
  /\ pinnedMessageIds st2 = pinnedMessageIds Samples.initialState.
Proof.
  intros st1 st2.
  destruct (togglePin_twice Samples.initialState "msg_user_z0fldu_1"
              Samples.shortPage "" 0) as [Hin Heq].
  - intros i e He _. split.
    + intros H. vm_compute in H. discriminate.
    + destruct i as [|[|i]]; [| |discriminate]; vm_compute; discriminate.
  - split; [|exact Heq]. apply Hin. intros H. vm_compute in H. discriminate.
Defined.

(** ** Clipping *)

Lemma length_append (a b : string) :
  String.length (a ++ b) = (String.length a + String.length b)%nat.
Proof.
  induction a as [|c a IH]; [reflexivity|].
  change (S (String.length (a ++ b))
          = S (String.length a + String.length b)).
  now rewrite IH.
Qed.

Lemma strlen_append (a b : string) : strlen (a ++ b) = strlen a + strlen b.
Proof. unfold strlen. rewrite length_append. lia. Qed.

Lemma takeStr_length (n : nat) (s : string) :
  (String.length (takeStr n s) <= n)%nat.
Proof.
  revert s. induction n as [|n IH]; intros [|c s]; simpl; try lia.
  specialize (IH s). lia.
Qed.

Lemma allChars_append p (a b : string) :
  allChars p (a ++ b) = allChars p a && allChars p b.
Proof.
  induction a as [|c a IH]; simpl; [reflexivity|].
  now rewrite IH, andb_assoc.
Qed.

Lemma allChars_takeStr p n s :
  allChars p s = true -> allChars p (takeStr n s) = true.
Proof.
  revert s. induction n as [|n IH]; intros [|c s] H; simpl; auto.
  simpl in H. apply andb_true_iff in H. destruct H as [-> H].
  simpl. auto.
Qed.

Lemma allChars_skipSpaces p s :
  allChars p s = true -> allChars p (skipSpaces s) = true.
Proof.
  induction s as [|c s IH]; intros H; simpl; auto.
  destruct (isSpace c); [|exact H].
  simpl in H. apply andb_true_iff in H. tauto.
Qed.

Lemma allChars_trimEnd p s :
  allChars p s = true -> allChars p (trimEnd s) = true.
Proof.
  induction s as [|c s IH]; intros H; simpl; auto.
  simpl in H. apply andb_true_iff in H. destruct H as [Hc H].
  specialize (IH H).
  destruct (trimEnd s) as [|d r].
  - destruct (isSpace c); simpl; [reflexivity|]. now rewrite Hc.
  - change (allChars p (String c (String d r)))
      with (p c && allChars p (String d r)).
    now rewrite Hc, IH.
Qed.

Lemma lineTerminator_isSpace (c : ascii) :
  isSpace c = false -> negb (isLineTerminator c) = true.
Proof. destruct c as [[] [] [] [] [] [] [] []]; vm_compute; congruence. Qed.

Lemma collapseSpaces_oneLine (inRun : bool) (s : string) :
  oneLine (collapseSpaces inRun s) = true.
Proof.
  unfold oneLine. revert inRun. induction s as [|c s IH]; intros inRun.
  - reflexivity.
  - simpl. destruct (isSpace c) eqn:E.
    + destruct inRun; [apply IH|]. simpl. apply IH.
    + simpl. rewrite IH. now rewrite lineTerminator_isSpace.
Qed.

(** What [clipText] returns, for every text and limit, holds no line
    terminator: every run of white space has become one space, so a
    message body takes one line of the handoff.  With a limit of at least
    3 the result is at most [maxChars] characters long. *)
Theorem clipText_one_line_and_bounded (text : string) (maxChars : Z) :
  oneLine (clipText text maxChars) = true /\
  (3 <= maxChars -> strlen (clipText text maxChars) <= maxChars).
Proof.
  assert (oneLine (normalizeText text) = true) as Hnorm.
  { unfold normalizeText, trim, oneLine.
    apply allChars_trimEnd, allChars_skipSpaces, collapseSpaces_oneLine. }
  unfold clipText.
  destruct (Z.leb_spec (strlen (normalizeText text)) maxChars) as [Hfit|Hcut].
  - split; [exact Hnorm|]. intros _. exact Hfit.
  - split.
    + unfold oneLine. rewrite allChars_append. apply andb_true_iff.
      split; [|reflexivity].
      unfold sliceTo. apply allChars_takeStr. exact Hnorm.
    + intros H3. rewrite strlen_append. unfold sliceTo.
      pose proof (takeStr_length
                    (Z.to_nat
                       (if maxChars - 3 <? 0
                        then Z.max (strlen (normalizeText text)
                                    + (maxChars - 3)) 0
                        else Z.min (maxChars - 3)
                                   (strlen (normalizeText text))))
                    (normalizeText text)) as Hlen.
      destruct (Z.ltb_spec (maxChars - 3) 0); [lia|].
      change (strlen "...") with 3. unfold strlen in *. lia.
Qed.

Lemma clipText_bounded_witness :
  strlen (clipText "  one   two  three  " 9) <= 9.
Proof.
  apply (proj2 (clipText_one_line_and_bounded "  one   two  three  " 9)).
  lia.
Defined.

(** ** The sections of the handoff *)

Lemma fullMessagesOf_idem (messages : list Message) :
  fullMessagesOf (fullMessagesOf messages) = fullMessagesOf messages.
Proof.
  unfold fullMessagesOf. induction messages as [|m l IH]; [reflexivity|].
  simpl. destruct (isDraft m) eqn:E; simpl; [exact IH|].
  rewrite E. simpl. now rewrite IH.
Qed.

Lemma slice_nil {A : Type} (start stop : Z) : slice (@nil A) start stop = [].
Proof.
  unfold slice. destruct (Z.to_nat _), (Z.to_nat _); reflexivity.
Qed.

(** Drafts never enter the handoff: the packet of a transcript is the
    packet of its non-draft messages, so two transcripts with the same
    non-draft messages give the same packet; and with no non-draft message
    the packet is the title and the closing line alone. *)
Theorem handoff_ignores_drafts (st : State) (messages1 messages2 : list Message) :
  (fullMessagesOf messages1 = fullMessagesOf messages2 ->
   buildHandoffPacket st messages1 = buildHandoffPacket st messages2) /\
  (fullMessagesOf messages1 = [] ->
   buildHandoffPacket st messages1
   = "# Context handoff from previous chat" ++ newline ++ newline ++ newline
     ++ "Please continue from this context.").
Proof.
  split.
  - intros H. unfold buildHandoffPacket. now rewrite H.
  - intros H. unfold buildHandoffPacket, getSalientMessages, selectSalient,
      sliceFrom.
    rewrite H. cbn [List.filter head last].
    rewrite !slice_nil. cbn [map scoreLoop]. unfold sortBy. cbn [fold_left].
    rewrite !slice_nil. reflexivity.
Qed.

Lemma handoff_ignores_drafts_witness :
  buildHandoffPacket Samples.compactState
    (Samples.eight
     ++ [ {| msgId := "draft"; role := user; text := "not sent yet";
             charCount := 12; tokens := 3; tokenStart := 15; tokenEnd := 18;
             isDraft := true |} ])
  = buildHandoffPacket Samples.compactState Samples.eight.
Proof.
  apply (proj1 (handoff_ignores_drafts Samples.compactState _ Samples.eight)).
  reflexivity.
Defined.

Lemma sliceFrom_last {A : Type} (l : list A) (n : Z) :
  0 < n -> sliceFrom l (- n) = skipn (length l - Z.to_nat n) l.
Proof.
  intros Hn. unfold sliceFrom, slice, relIndex.
  destruct (Z.ltb_spec (- n) 0); [|lia].
  destruct (Z.ltb_spec (Z.of_nat (length l)) 0); [lia|].
  replace (Z.to_nat (Z.max (Z.of_nat (length l) + - n) 0))
    with (length l - Z.to_nat n)%nat by lia.
  apply firstn_all2. rewrite length_skipn. lia.
Qed.

Lemma maxRecent_values (settings : option Settings) :
  maxRecent (getHandoffLimits settings) = 6
  \/ maxRecent (getHandoffLimits settings) = 8
  \/ maxRecent (getHandoffLimits settings) = 12.
Proof.
  unfold getHandoffLimits.
  destruct (String.eqb _ "compact"); [now left|].
  destruct (String.eqb _ "standard"); [right; now left|].
  right; now right.
Qed.

(** The "Recent exchange" of the handoff is the tail of the non-draft
    messages: the last 6, 8 or 12 of them according to the richness, or all
    of them when there are fewer. *)
Theorem recent_window_is_a_tail (st : State) (messages : list Message) :
  let full := fullMessagesOf messages in
  let n := Z.to_nat (maxRecent (getHandoffLimits (settings st))) in
  (n = 6 \/ n = 8 \/ n = 12)%nat /\
  recentMessagesOf st messages = skipn (length full - n) full /\
  length (recentMessagesOf st messages) = Nat.min n (length full).
Proof.
  intros full n.
  pose proof (maxRecent_values (settings st)) as Hv.
  assert (recentMessagesOf st messages = skipn (length full - n) full) as Hr.
  { unfold recentMessagesOf. apply sliceFrom_last. lia. }
  split; [subst n; lia|]. split; [exact Hr|].
  rewrite Hr, length_skipn. lia.
Qed.

Lemma scoreSalience_range (m : Message) :
  0 <= scoreSalience m <= 12 /\ (role m = user -> 1 <= scoreSalience m).
Proof.
  unfold scoreSalience.
  destruct (role m); simpl Role_eqb; cbv iota;
    destruct (hasBulletList (text m)),
             (MIN_IMPERATIVES <=? countImperativePhrases (text m))%nat,
             (charCount m >? 1200), (includes (text m) "```"),
             (importanceTest (text m));
    (split; [lia|]); intros; try lia; discriminate.
Qed.

Lemma slice_all {A : Type} (l : list A) (maxCount : Z) :
  Z.of_nat (length l) <= maxCount -> slice l 0 maxCount = l.
Proof.
  intros H. unfold slice. rewrite relIndex_zero by lia.
  unfold relIndex. destruct (Z.ltb_spec maxCount 0); [lia|].
  simpl skipn. apply firstn_all2. lia.
Qed.

(** The candidates for the "Key highlights": every score lies between 0
    and 12 and a user message scores at least 1, so every non-draft user
    message outside the recent window is a candidate; and when there are no
    more candidates than [maxSalience], all of them are selected. *)
Theorem salience_candidates (st : State) (messages : list Message) :
  let full := fullMessagesOf messages in
  let candidates := scoreLoop (recentIdsOf st messages) 0 full [] in
  (forall m, 0 <= scoreSalience m <= 12) /\
  (forall (i : nat) (m : Message),
      full !! i = Some m -> role m = user ->
      msgId m ∉ recentIdsOf st messages ->
      mkScored m (scoreSalience m) i ∈ candidates) /\
  (Z.of_nat (length candidates)
   <= maxSalience (getHandoffLimits (settings st)) ->
   handoffSalient st messages ≡ₚ candidates).
Proof.
  intros full candidates. split; [|split].
  - intros m. apply scoreSalience_range.
  - intros i m Hm Hrole Hout. apply scoreLoop_elem. simpl.
    rewrite Nat.sub_0_r.
    destruct (scoreSalience_range m) as [_ Hpos].
    repeat split; auto; try lia. specialize (Hpos Hrole). lia.
  - intros Hfew. unfold handoffSalient, selectSalient.
    fold full. fold candidates.
    rewrite slice_all.
    + apply sortBy_perm.
    + rewrite (Permutation_length (sortBy_perm compareScored candidates)).
      exact Hfew.
Qed.

Lemma salience_candidates_witness :
  handoffSalient Samples.compactState Samples.eight
  ≡ₚ scoreLoop (recentIdsOf Samples.compactState Samples.eight) 0
       (fullMessagesOf Samples.eight) [].
Proof.
  apply (proj2 (proj2 (salience_candidates Samples.compactState
                         Samples.eight))).
  vm_compute. discriminate.
Defined.

(** ** The score and the visible text *)

Lemma Qmax3_mono_mid (a b b' c : Q) :
  (b <= b')%Q -> (Qmax3 a b c <= Qmax3 a b' c)%Q.
Proof.
  intros H.
  destruct (Qmax3_spec a b' c) as (Ha & Hb & Hc & _).
  destruct (Qmax3_spec a b c) as (_ & _ & _ & [-> | [-> | ->]]); auto.
  apply Qle_trans with b'; auto.
Qed.

Lemma clamp_fin (h : Q) :
  nmax (Fin 0) (nmin (Fin 100) (Fin h))
  = Fin (if Qle_bool 100 h then 100 else if Qle_bool h 0 then 0 else h).
Proof.
  unfold nmin, ngeb. destruct (Qle_bool 100 h); [reflexivity|].
  unfold nmax, ngeb. destruct (Qle_bool h 0); reflexivity.
Qed.

Lemma clamp_fin_mono (h1 h2 : Q) :
  (h2 <= h1)%Q ->
  ((if Qle_bool 100 h2 then 100 else if Qle_bool h2 0 then 0 else h2)
   <= (if Qle_bool 100 h1 then 100 else if Qle_bool h1 0 then 0 else h1))%Q.
Proof.
  intros H.
  destruct (Qle_bool 100 h2) eqn:A2; [apply Qle_bool_iff in A2
                                     |apply Qle_bool_false in A2];
  destruct (Qle_bool 100 h1) eqn:A1; [apply Qle_bool_iff in A1
                                     |apply Qle_bool_false in A1
                                     |apply Qle_bool_iff in A1
                                     |apply Qle_bool_false in A1];
  try (destruct (Qle_bool h2 0) eqn:B2; [apply Qle_bool_iff in B2
                                        |apply Qle_bool_false in B2]);
  try (destruct (Qle_bool h1 0) eqn:B1; [apply Qle_bool_iff in B1
                                        |apply Qle_bool_false in B1]);
  lra.
Qed.

Lemma clampedHealth_antitone (p1 p2 : num) (lp1 lp2 : Q) (np : Z) :
  finite_or_pinf p1 -> penalty_le p1 p2 -> (lp1 <= lp2)%Q ->
  exists q1 q2,
    clampedHealth p1 lp1 np = Fin q1 /\ clampedHealth p2 lp2 np = Fin q2
    /\ (q2 <= q1)%Q.
Proof.
  intros Hf Hle Hlp.
  destruct p1 as [a| | |], p2 as [b| | |]; simpl in Hf, Hle; try contradiction.
  - unfold clampedHealth, nsub, ofZ. rewrite !clamp_fin.
    eexists _, _. split; [reflexivity|]. split; [reflexivity|].
    apply clamp_fin_mono. lra.
  - destruct (clampedHealth_range (Fin a) lp1 np I) as (q1 & -> & Hlo & _).
    exists q1, 0%Q. repeat split; auto.
  - exists 0%Q, 0%Q. repeat split; auto. apply Qle_refl.
Qed.

Lemma no_instruction_ramp_mono (c1 c2 : Z) :
  c1 <= c2 ->
  penalty_le
    (nmin (Fin 30) (nmul (ndiv (ofZ c1) (Fin 120000)) (Fin 30)))
    (nmin (Fin 30) (nmul (ndiv (ofZ c2) (Fin 120000)) (Fin 30))).
Proof.
  intros H. unfold ndiv, ofZ. change (Qeq_bool 120000 0) with false.
  cbv iota. unfold nmul, nmin, ngeb.
  assert (inject_Z c1 / 120000 * 30 <= inject_Z c2 / 120000 * 30)%Q as Hs.
  { unfold Qle, Qdiv, Qmult, Qinv, inject_Z. simpl. lia. }
  destruct (Qle_bool 30 (inject_Z c1 / 120000 * 30)) eqn:A1;
    [apply Qle_bool_iff in A1|apply Qle_bool_false in A1];
  (destruct (Qle_bool 30 (inject_Z c2 / 120000 * 30)) eqn:A2;
    [apply Qle_bool_iff in A2|apply Qle_bool_false in A2]);
  simpl; lra.
Qed.

Lemma penalty_le_refl (p : num) : finite_or_pinf p -> penalty_le p p.
Proof. destruct p; simpl; try tauto. intros _. apply Qle_refl. Qed.

Lemma instructionPart_mono messages T indices hasUser c1 c2 p1 rs1 p2 rs2 :
  c1 <= c2 ->
  instructionPart messages T indices hasUser c1 = Some (p1, rs1) ->
  instructionPart messages T indices hasUser c2 = Some (p2, rs2) ->
  penalty_le p1 p2.
Proof.
  intros Hc H1 H2.
  pose proof (instructionPart_shape _ _ _ _ _ _ _ H1) as Hshape.
  unfold instructionPart in H1, H2.
  destruct (0 <? length indices)%nat.
  - destruct (messages !! maxIndex indices) as [m|]; [|discriminate].
    injection H1 as <- _. injection H2 as <- _.
    apply penalty_le_refl, Hshape.
  - destruct hasUser.
    + injection H1 as <- _. injection H2 as <- _.
      apply no_instruction_ramp_mono, Hc.
    + injection H1 as <- _. injection H2 as <- _. apply Qle_refl.
Qed.

(** More visible text never raises the health: with everything else equal,
    the report for a larger [totalCharsOverride] carries a health that is
    at most the health for the smaller one. *)
Theorem health_antitone_in_visible_chars
  (messages : list Message) (T : Z) (indices : list nat)
  (visible1 visible2 : Z) (r1 r2 : HealthReport) :
  visible1 <= visible2 ->
  calculateHealth messages T indices (Some visible1) = Some r1 ->
  calculateHealth messages T indices (Some visible2) = Some r2 ->
  exists z1 z2,
    health r1 = ofZ z1 /\ health r2 = ofZ z2 /\ z2 <= z1.
Proof.
  intros Hv H1 H2.
  assert (totalCharsOf messages (Some visible1)
          <= totalCharsOf messages (Some visible2)) as Hc
    by (unfold totalCharsOf, orZero; lia).
  destruct (calculateHealth_length _ _ _ _ _ H1)
    as [(p1 & rs1 & E1 & ->) _].
  destruct (calculateHealth_length _ _ _ _ _ H2)
    as [(p2 & rs2 & E2 & ->) _].
  pose proof (instructionPart_mono _ _ _ _ _ _ _ _ _ _ Hc E1 E2) as Hp.
  pose proof (instructionPart_shape _ _ _ _ _ _ _ E1) as Hshape.
  destruct (clampedHealth_antitone p1 p2
              (fst (lengthPart T (totalCharsOf messages (Some visible1))
                      (messageCountOf messages)))
              (fst (lengthPart T (totalCharsOf messages (Some visible2))
                      (messageCountOf messages)))
              (detectNoise messages T) Hshape Hp)
    as (q1 & q2 & -> & -> & Hq).
  { unfold lengthPart. cbn [fst]. apply Qmax3_mono_mid.
    rewrite !interpolate_char_closed.
    pose proof (charPenaltyNumerator_mono _ _ Hc).
    unfold Qle. simpl. lia. }
  exists (Qfloor (q1 + (1 # 2))), (Qfloor (q2 + (1 # 2))).
  split; [reflexivity|]. split; [reflexivity|].
  apply Qfloor_resp_le. lra.
Qed.

Lemma health_antitone_witness :
  exists z1 z2,
    Fin 100 = ofZ z1 /\ Fin 80 = ofZ z2 /\ z2 <= z1.
Proof.
  exact (health_antitone_in_visible_chars Samples.shortPageMessages 7
           [0%nat] 0 97500 _ _ ltac:(lia) eq_refl eq_refl).
Defined.

(** ** Normalised text *)

Lemma collapseSpaces_loose (inRun : bool) (s : string) :
  loose (collapseSpaces inRun s) = true
  /\ (inRun = true -> headNonSpace (collapseSpaces inRun s) = true).
Proof.
  revert inRun. induction s as [|c s IH]; intros inRun.
  - split; reflexivity.
  - simpl. destruct (isSpace c) eqn:E.
    + destruct inRun.
      * apply IH.
      * split; [|discriminate].
        destruct (IH true) as [Hl Hh]. specialize (Hh eq_refl).
        simpl. change (isSpace " ") with true. cbv iota.
        rewrite Hl, andb_true_r.
        destruct (collapseSpaces true s); [reflexivity|exact Hh].
    + destruct (IH false) as [Hl _].
      split; [|intros _; simpl; now rewrite E].
      simpl. now rewrite E.
Qed.

Lemma skipSpaces_loose (s : string) :
  loose s = true ->
  loose (skipSpaces s) = true /\ headNonSpace (skipSpaces s) = true.
Proof.
  induction s as [|c s IH]; intros H.
  - split; reflexivity.
  - simpl. destruct (isSpace c) eqn:E.
    + apply IH. simpl in H. rewrite E in H.
      apply andb_true_iff in H. tauto.
    + split; [exact H|]. simpl. now rewrite E.
Qed.

Lemma trimEnd_head (c : ascii) (r : string) :
  isSpace c = false -> exists r', trimEnd (String c r) = String c r'.
Proof.
  intros E. simpl. destruct (trimEnd r); [rewrite E|]; eauto.
Qed.

Lemma trimEnd_tight (s : string) :
  loose s = true -> tight (trimEnd s) = true.
Proof.
  induction s as [|c s IH]; intros H; [reflexivity|].
  simpl in H. simpl trimEnd.
  destruct (isSpace c) eqn:E.
  - apply andb_true_iff in H. destruct H as [H Hl].
    apply andb_true_iff in H. destruct H as [Hc Hnext].
    specialize (IH Hl).
    destruct s as [|d s'].
    + simpl. rewrite ?E. reflexivity.
    + apply negb_true_iff in Hnext.
      destruct (trimEnd_head d s' Hnext) as [r' Hr']. rewrite Hr' in *.
      change (tight (String c (String d r')))
        with (if isSpace c
              then Ascii.eqb c " " && negb (isSpace d) && tight (String d r')
              else tight (String d r')).
      rewrite ?E, Hc, Hnext, IH. reflexivity.
  - specialize (IH H).
    destruct (trimEnd s) as [|d r'] eqn:Et.
    + simpl. rewrite ?E. reflexivity.
    + change (tight (String c (String d r')))
        with (if isSpace c
              then Ascii.eqb c " " && negb (isSpace d) && tight (String d r')
              else tight (String d r')).
      rewrite ?E. exact IH.
Qed.

Lemma trimEnd_headNonSpace (s : string) :
  headNonSpace s = true -> headNonSpace (trimEnd s) = true.
Proof.
  destruct s as [|c r]; [reflexivity|]. simpl. intros H.
  apply negb_true_iff in H.
  destruct (trimEnd r); [rewrite H|]; simpl; now rewrite H.
Qed.

Lemma tight_collapse (s : string) :
  tight s = true ->
  collapseSpaces false s = s
  /\ (headNonSpace s = true -> collapseSpaces true s = s).
Proof.
  induction s as [|c s IH]; intros H; [split; reflexivity|].
  simpl in H. simpl collapseSpaces. destruct (isSpace c) eqn:E.
  - apply andb_true_iff in H. destruct H as [H Ht].
    apply andb_true_iff in H. destruct H as [Hc Hnext].
    apply Ascii.eqb_eq in Hc. subst c.
    destruct (IH Ht) as [_ IH'].
    split.
    + f_equal. apply IH'. destruct s; [discriminate|exact Hnext].
    + simpl. discriminate.
  - destruct (IH H) as [IH' _]. split; [now rewrite IH'|].
    intros _. now rewrite IH'.
Qed.

Lemma tight_trimEnd (s : string) : tight s = true -> trimEnd s = s.
Proof.
  induction s as [|c s IH]; intros H; [reflexivity|].
  simpl in H. simpl. destruct (isSpace c) eqn:E.
  - apply andb_true_iff in H. destruct H as [H Ht].
    apply andb_true_iff in H. destruct H as [_ Hnext].
    rewrite (IH Ht). destruct s; [discriminate|reflexivity].
  - rewrite (IH H). destruct s; reflexivity.
Qed.

Lemma headNonSpace_skipSpaces (s : string) :
  headNonSpace s = true -> skipSpaces s = s.
Proof.
  destruct s as [|c r]; [reflexivity|]. simpl. intros H.
  apply negb_true_iff in H. now rewrite H.
Qed.

Lemma normalizeText_normal (text : string) :
  tight (normalizeText text) = true
  /\ headNonSpace (normalizeText text) = true.
Proof.
  unfold normalizeText, trim.
  destruct (collapseSpaces_loose false text) as [Hl _].
  destruct (skipSpaces_loose _ Hl) as [Hl' Hh].
  split; [apply trimEnd_tight, Hl'|apply trimEnd_headNonSpace, Hh].
Qed.

Lemma normal_fixed (s : string) :
  tight s = true -> headNonSpace s = true -> normalizeText s = s.
Proof.
  intros Ht Hh. unfold normalizeText, trim.
  rewrite (proj1 (tight_collapse s Ht)).
  rewrite (headNonSpace_skipSpaces s Hh).
  apply tight_trimEnd, Ht.
Qed.

(** [normalizeText] returns a text in normal form: it neither begins nor
    ends with white space, and its only white space is single spaces
    between other characters.  A text in that form is returned unchanged,
    so normalising twice is normalising once. *)
Theorem normalizeText_idempotent (text : string) :
  tight (normalizeText text) = true /\
  headNonSpace (normalizeText text) = true /\
  normalizeText (normalizeText text) = normalizeText text /\
  (forall s, tight s = true -> headNonSpace s = true -> normalizeText s = s).
Proof.
  destruct (normalizeText_normal text) as [Ht Hh].
  repeat split; auto using normal_fixed.
Qed.

Lemma normalizeText_idempotent_witness :
  normalizeText "one two three" = "one two three".
Proof.
  apply (proj2 (proj2 (proj2 (normalizeText_idempotent "")))); reflexivity.
Defined.

(** ** What counts as an instruction *)

(** [detectInstructions] returns exactly the indices of the non-draft user
    messages that are pinned, or hold at least two imperative phrases, or
    are among the first three user messages (counted over user messages
    only) and hold a bullet or numbered list. *)
Theorem detectInstructions_characterised
  (st : State) (messages : list Message) (k : nat) :
  k ∈ detectInstructions st messages
  <-> exists m,
        messages !! k = Some m /\ role m = user /\ isDraft m = false
        /\ (msgId m ∈ pinnedMessageIds st
            \/ (2 <= countImperativePhrases (text m))%nat
            \/ ((userMessageIndex messages k <= 3)%nat
                /\ hasBulletList (text m) = true)).
Proof.
  rewrite detectInstructions_elem. split.
  - intros (m & Hm & Hp). exists m. split; [exact Hm|].
    destruct (pushesIndex_true _ _ _ _ Hp) as [Hrole Hdraft].
    split; [exact Hrole|]. split; [exact Hdraft|].
    unfold pushesIndex in Hp. rewrite Hrole, Hdraft in Hp. simpl in Hp.
    destruct (bool_decide_reflect (msgId m ∈ pinnedMessageIds st));
      [now left|right].
    unfold autoDetect, MIN_IMPERATIVES, EARLY_MESSAGE_COUNT in Hp.
    destruct (Nat.leb_spec 2 (countImperativePhrases (text m)));
      [now left|right].
    destruct (Nat.leb_spec (userMessageIndex messages k) 3);
      destruct (hasBulletList (text m)); simpl in Hp; try discriminate.
    auto.
  - intros (m & Hm & Hrole & Hdraft & Hwhy). exists m. split; [exact Hm|].
    unfold pushesIndex. rewrite Hrole, Hdraft. simpl.
    destruct (bool_decide_reflect (msgId m ∈ pinnedMessageIds st));
      [reflexivity|].
    destruct Hwhy as [Hpin|[Himp|[Hrank Hlist]]]; [contradiction| |].
    + assert ((MIN_IMPERATIVES <=? countImperativePhrases (text m))%nat
              = true) as Hb by (apply Nat.leb_le; exact Himp).
      unfold autoDetect. rewrite Hb.
      destruct (userMessageIndex messages k <=? EARLY_MESSAGE_COUNT)%nat,
               (hasBulletList (text m)), (charCount m <? 800); reflexivity.
    + assert ((userMessageIndex messages k <=? EARLY_MESSAGE_COUNT)%nat
              = true) as Hb by (apply Nat.leb_le; exact Hrank).
      unfold autoDetect. rewrite Hb, Hlist.
      destruct (MIN_IMPERATIVES <=? countImperativePhrases (text m))%nat,
               (charCount m <? 800); reflexivity.
Qed.

Lemma lowerChar_idempotent (c : ascii) : lowerChar (lowerChar c) = lowerChar c.
Proof. destruct c as [[] [] [] [] [] [] [] []]; vm_compute; reflexivity. Qed.

Lemma toLowerCase_idempotent (s : string) :
  toLowerCase (toLowerCase s) = toLowerCase s.
Proof.
  induction s as [|c s IH]; [reflexivity|].
  simpl. now rewrite lowerChar_idempotent, IH.
Qed.

(** The count of imperative phrases does not depend on the case of the
    text, and it never exceeds the eleven phrases of the configuration. *)
Theorem countImperativePhrases_ignores_case (text : string) :
  countImperativePhrases (toLowerCase text) = countImperativePhrases text /\
  (countImperativePhrases text <= 11)%nat.
Proof.
  split.
  - unfold countImperativePhrases. now rewrite toLowerCase_idempotent.
  - unfold countImperativePhrases.
    apply (Nat.le_trans _ _ _ (filter_length_le _ IMPERATIVE_PHRASES)).
    reflexivity.
Qed.

Lemma parseConversation_invariants_witness :
  1 <= p_totalTokens
         (fst (fst (parseConversation Samples.initialState
                      Samples.shortPage "" 0))).
Proof.
  destruct (parseConversation_invariants Samples.initialState
              Samples.shortPage "" 0) as (_ & _ & _ & _ & H & _).
  apply H. discriminate.
Defined.

Lemma detectInstructions_characterised_witness :
  exists m,
    Samples.fiveUsers !! 4%nat = Some m /\ role m = user /\ isDraft m = false
    /\ (msgId m ∈ pinnedMessageIds Samples.pinnedLast
        \/ (2 <= countImperativePhrases (text m))%nat
        \/ ((userMessageIndex Samples.fiveUsers 4 <= 3)%nat
            /\ hasBulletList (text m) = true)).
Proof.
  apply (proj1 (detectInstructions_characterised Samples.pinnedLast
                  Samples.fiveUsers 4)).
  apply detectInstructions_elem.
  exists (Samples.plain "u5" user "thanks" 9).
  split; [reflexivity|vm_compute; reflexivity].
Defined.

(** ** Interpolation over any table *)

Lemma full_ratio (span : Z) (a b : Q) :
  0 < span -> (a + inject_Z span / inject_Z span * (b - a) == b)%Q.
Proof.
  intros H. field. intros H0.
  unfold Qeq in H0. simpl in H0. lia.
Qed.

Lemma interpolateFrom_through (prev : Point) (rest : list Point) (p : Point) :
  increasingTable (prev :: rest) -> p ∈ rest ->
  (interpolateFrom prev rest (CONFIG.chars p) == penalty p)%Q.
Proof.
  revert prev. induction rest as [|next rest IH]; intros prev Hs Hp.
  - inversion Hp.
  - apply StronglySorted_inv in Hs. destruct Hs as [Hs Hprev].
    apply Forall_cons in Hprev. destruct Hprev as [Hpn _].
    apply elem_of_cons in Hp. destruct Hp as [->|Hp].
    + simpl. rewrite Z.leb_refl.
      destruct (Z.leb_spec (CONFIG.chars next - CONFIG.chars prev) 0);
        [lia|].
      apply full_ratio. lia.
    + pose proof Hs as Hs'. apply StronglySorted_inv in Hs'.
      destruct Hs' as [_ Hnext]. rewrite Forall_forall in Hnext.
      specialize (Hnext p Hp).
      simpl. destruct (Z.leb_spec (CONFIG.chars p) (CONFIG.chars next));
        [lia|].
      apply IH; assumption.
Qed.

Lemma last_cons_default {A : Type} (x : A) (l : list A) (d d' : A) :
  List.last (x :: l) d = List.last (x :: l) d'.
Proof.
  revert x. induction l as [|y l IH]; intros x; [reflexivity|].
  change (List.last (y :: l) d = List.last (y :: l) d'). apply IH.
Qed.

Lemma interpolateFrom_beyond (prev : Point) (rest : list Point) (value : Z) :
  (forall p, p ∈ rest -> CONFIG.chars p < value) ->
  interpolateFrom prev rest value = penalty (List.last rest prev).
Proof.
  revert prev. induction rest as [|next rest IH]; intros prev H.
  - reflexivity.
  - assert (CONFIG.chars next < value) by (apply H; left).
    simpl interpolateFrom.
    destruct (Z.leb_spec value (CONFIG.chars next)); [lia|].
    rewrite IH by (intros p Hp; apply H; now right).
    destruct rest as [|p rest']; [reflexivity|].
    f_equal. change (List.last (next :: p :: rest') prev)
      with (List.last (p :: rest') prev).
    apply last_cons_default.
Qed.

(** For every table of control points in strictly increasing order of
    [chars] whose entries are safe integers, the penalties not negative,
    the interpolated curve passes through every control point.  (With a
    fractional penalty the source's [prev + 1 * (next - prev)] may round
    away from [next]; integers of this size it adds exactly.)  Every table
    is clamped at both ends, where no arithmetic is done: the first penalty
    at or below the first point, the last penalty above the last point, and
    0 for the empty table. *)
Theorem interpolatePenalty_through_points (points : list Point) :
  (increasingTable points -> integerTable points ->
   forall p, p ∈ points ->
             (interpolatePenalty points (CONFIG.chars p) == penalty p)%Q) /\
  (forall p0 rest value,
      points = p0 :: rest ->
      (value <= CONFIG.chars p0 ->
       interpolatePenalty points value = penalty p0)
      /\ ((forall p, p ∈ points -> CONFIG.chars p < value) ->
          interpolatePenalty points value = penalty (List.last rest p0))) /\
  (points = [] -> forall value, interpolatePenalty points value = 0%Q).
Proof.
  split; [|split].
  - intros Hs _ p Hp. destruct points as [|p0 rest]; [inversion Hp|].
    apply elem_of_cons in Hp. destruct Hp as [->|Hp].
    + simpl. rewrite Z.leb_refl. reflexivity.
    + pose proof Hs as Hs'. apply StronglySorted_inv in Hs'.
      destruct Hs' as [_ H0]. rewrite Forall_forall in H0.
      specialize (H0 p Hp). simpl.
      destruct (Z.leb_spec (CONFIG.chars p) (CONFIG.chars p0)); [lia|].
      apply interpolateFrom_through; assumption.
  - intros p0 rest value ->. split.
    + intros H. simpl. destruct (Z.leb_spec value (CONFIG.chars p0));
        [reflexivity|lia].
    + intros H. assert (CONFIG.chars p0 < value) by (apply H; left).
      simpl. destruct (Z.leb_spec value (CONFIG.chars p0)); [lia|].
      apply interpolateFrom_beyond. intros p Hp. apply H. now right.
  - intros -> value. reflexivity.
Qed.

Lemma interpolatePenalty_through_points_witness :
  (interpolatePenalty CHAR_PENALTY_POINTS 240000 == 50)%Q.
Proof.
  apply (proj1 (interpolatePenalty_through_points CHAR_PENALTY_POINTS)
           ltac:(unfold increasingTable, CHAR_PENALTY_POINTS;
                 repeat constructor)
           ltac:(unfold integerTable, CHAR_PENALTY_POINTS;
                 repeat (constructor;
                         [split;
                          [vm_compute; discriminate
                          |eexists; split;
                           [|apply Qeq_refl]; vm_compute;
                           split; discriminate]|]);
                 constructor)
           (mkPoint 240000 50)).
  unfold CHAR_PENALTY_POINTS. do 2 right. left.
Defined.
